(** * DomeAppPy: synchronized camera trigger and persistence pipeline

    A shallow embedding of [main.py]: the PTP sync barrier
    ([wait_for_sync]), one trigger cycle ([fire_cameras]), the
    persistence worker ([save_image_buffers]) and the interactive loop of
    the [__main__] block, together with the properties of the design
    document that concern them.

    The cameras, the transport layer, [BufferFactory], [Writer], the
    terminal and the clock are collaborators outside the program.  A
    call to one of them is modelled by what it answers: a value or a
    raised exception.  Effects of the program itself (the shared queue,
    buffer memory, buffers on loan from a device, the transport-layer
    node map, what is printed and slept) are kept in an explicit
    [world] that every operation threads. *)

From stdpp Require Import gmap strings list pretty.

Open Scope string_scope.
Open Scope list_scope.

(** ** Python values and effects *)

(** An exception object; [print(e)] shows its message.  Only instances
    of [Exception] are modelled: asynchronous [BaseException]s such as
    [KeyboardInterrupt] are outside the model. *)
Inductive exn := Exception (msg : string).

#[global] Instance exn_eq_dec : EqDecision exn.
Proof. solve_decision. Defined.

Definition message (e : exn) : string := let 'Exception m := e in m.

(** What a call answers: a value, or a raised exception. *)
Inductive outcome (A : Type) :=
| Return (a : A)
| Raise (e : exn).
Arguments Return {A} a.
Arguments Raise {A} e.

#[global] Instance outcome_eq_dec {A} `{EqDecision A} : EqDecision (outcome A).
Proof. solve_decision. Defined.

Definition returned {A} (o : outcome A) : bool :=
  match o with Return _ => true | Raise _ => false end.

(** A buffer object is a reference to image memory. *)
Definition addr := nat.
Definition image := list Z.

(** The tuple [(buffer, batch, serial)] that travels through the queue.
    [batch] is the counter of the interactive loop, a natural number. *)
Record FrameTask := mkTask {
  ft_buffer : addr;
  ft_batch : nat;
  ft_serial : string;
}.

(** A device handle, seen at one moment: its identity and what each of
    its operations answers when called at that moment. *)
Record device := mkDevice {
  handle : nat;
  PtpStatus : outcome string;
  PtpDataSetLatch : outcome unit;
  PtpDataSetLatchValue : outcome Z;
  TransferStart : outcome unit;
  get_buffer : outcome (addr * image);
  TransferStop : outcome unit;
  DeviceSerialNumber : outcome string;
  buffer_copy : outcome unit;     (* BufferFactory.copy of its buffer *)
  requeue_buffer : outcome unit;
}.

(** Observable actions, in the order they happen. *)
Inductive event :=
| Print (s : string)
| Sleep (seconds : nat)
| NodeExecute (dev : nat) (node : string)
| NodeRead (dev : nat) (node : string)
| GetBuffer (dev : nat) (timeout : nat)
| SysSet (node : string) (value : Z)
| SysExecute (node : string)
| Copy (src dst : addr)
| Put (task : FrameTask)
| RequeueBuffer (dev : nat) (buffer : addr).

Record world := mkWorld {
  buffer_queue : list FrameTask;      (* queue.Queue(), unbounded FIFO *)
  memory : gmap addr image;           (* contents of every live buffer *)
  on_loan : list (nat * addr);        (* got from a device, not yet requeued *)
  SYS_TL_MAP : gmap string Z;         (* system.tl_system_nodemap values *)
  trace : list event;
}.

Definition PTP_DELTA : Z := 10000000.  (* 10ms *)

(** ** A state and exception monad over [world] *)

Definition M (A : Type) : Type := world → outcome A * world.

Definition ret {A} (a : A) : M A := λ w, (Return a, w).
Definition raise {A} (e : exn) : M A := λ w, (Raise e, w).
Definition bind {A B} (c : M A) (k : A → M B) : M B :=
  λ w, match c w with
       | (Return a, w') => k a w'
       | (Raise e, w') => (Raise e, w')
       end.
Definition answer {A} (o : outcome A) : M A := λ w, (o, w).

Notation "x <- c ;; k" := (bind c (λ x, k))
  (at level 100, c at next level, right associativity).
Notation "c ;; k" := (bind c (λ _, k))
  (at level 100, right associativity).

(** [try: body except Exception as e: handler e] *)
Definition try_except {A} (body : M A) (handler : exn → M A) : M A :=
  λ w, match body w with
       | (Return a, w') => (Return a, w')
       | (Raise e, w') => handler e w'
       end.

(** [for x in xs: body x] *)
Fixpoint for_each {A} (xs : list A) (body : A → M unit) : M unit :=
  match xs with
  | [] => ret tt
  | x :: rest => body x ;; for_each rest body
  end.

Definition emit (e : event) : M unit :=
  λ w, (Return tt,
        mkWorld (buffer_queue w) (memory w) (on_loan w) (SYS_TL_MAP w)
                (trace w ++ [e])).

Definition print (s : string) : M unit := emit (Print s).
Definition sleep (seconds : nat) : M unit := emit (Sleep seconds).

(** [d.nodemap[node].execute()] and [d.nodemap[node].value] *)
Definition node_execute (d : device) (node : string) (r : outcome unit) : M unit :=
  emit (NodeExecute (handle d) node) ;; answer r.
Definition node_value {A} (d : device) (node : string) (r : outcome A) : M A :=
  emit (NodeRead (handle d) node) ;; answer r.

(** [SYS_TL_MAP[node].value = v] and [SYS_TL_MAP[node].execute()].  The
    system transport layer is taken to answer both: a raising system
    node is outside the model, and what is stated of a run that gets
    past such a call is stated of the runs in which it answers. *)
Definition sys_set (node : string) (v : Z) : M unit :=
  emit (SysSet node v) ;;
  λ w, (Return tt,
        mkWorld (buffer_queue w) (memory w) (on_loan w)
                (<[node := v]> (SYS_TL_MAP w)) (trace w)).
Definition sys_execute (node : string) : M unit := emit (SysExecute node).

(** [d.get_buffer(timeout)]: when the device delivers, the frame is in
    the device's stream buffer and that buffer is on loan to the caller. *)
Definition device_get_buffer (d : device) (timeout : nat) : M addr :=
  emit (GetBuffer (handle d) timeout) ;;
  λ w, match get_buffer d with
       | Return (a, img) =>
           (Return a,
            mkWorld (buffer_queue w) (<[a := img]> (memory w))
                    ((handle d, a) :: on_loan w) (SYS_TL_MAP w) (trace w))
       | Raise e => (Raise e, w)
       end.

Definition remove_loan (x : nat * addr) (l : list (nat * addr)) : list (nat * addr) :=
  filter (λ y, y ≠ x) l.

(** [d.requeue_buffer(buffer)]: the buffer goes back to the device. *)
Definition device_requeue_buffer (d : device) (buffer : addr) : M unit :=
  emit (RequeueBuffer (handle d) buffer) ;;
  λ w, match requeue_buffer d with
       | Return _ =>
           (Return tt,
            mkWorld (buffer_queue w) (memory w)
                    (remove_loan (handle d, buffer) (on_loan w))
                    (SYS_TL_MAP w) (trace w))
       | Raise e => (Raise e, w)
       end.

(** [BufferFactory.copy(buffer)], answering [r]: when the factory
    answers, a new buffer, at an address not in use, holding the same
    image; otherwise what it raises leaves the call and nothing is
    allocated. *)
Definition BufferFactory_copy (buffer : addr) (r : outcome unit) : M addr :=
  λ w, match r, memory w !! buffer with
       | Raise e, _ => (Raise e, w)
       | Return _, Some img =>
           let c := fresh (dom (memory w)) in
           (Return c,
            mkWorld (buffer_queue w) (<[c := img]> (memory w)) (on_loan w)
                    (SYS_TL_MAP w) (trace w ++ [Copy buffer c]))
       | Return _, None => (Raise (Exception "invalid buffer"), w)
       end.

(** [buffer_queue.put(task)]; the queue is unbounded, [put] never blocks. *)
Definition put (task : FrameTask) : M unit :=
  λ w, (Return tt,
        mkWorld (buffer_queue w ++ [task]) (memory w) (on_loan w)
                (SYS_TL_MAP w) (trace w ++ [Put task])).

(** [devices[0]] *)
Definition first_of (devices : list device) : M device :=
  match devices with
  | [] => raise (Exception "list index out of range")
  | d :: _ => ret d
  end.

(** ** [fire_cameras] *)

(** The body of [for device in devices:], lines 110 to 121. *)
Definition retrieve (batch : nat) (d : device) : M unit :=
  try_except
    (node_execute d "TransferStart" (TransferStart d) ;;
     buffer <- device_get_buffer d 500 ;;
     node_execute d "TransferStop" (TransferStop d) ;;
     print "." ;;
     serial <- node_value d "DeviceSerialNumber" (DeviceSerialNumber d) ;;
     copy <- BufferFactory_copy buffer (buffer_copy d) ;;
     put (mkTask copy batch serial) ;;
     device_requeue_buffer d buffer)
    (λ e, print (message e)).

Definition fire_cameras (devices : list device) (batch : nat) : M unit :=
  d <- first_of devices ;;
  node_execute d "PtpDataSetLatch" (PtpDataSetLatch d) ;;
  ptp_time <- node_value d "PtpDataSetLatchValue" (PtpDataSetLatchValue d) ;;
  sys_set "ActionCommandExecuteTime" (ptp_time + PTP_DELTA) ;;
  sys_execute "ActionCommandFireCommand" ;;
  print "Retrieving images..." ;;
  for_each devices (retrieve batch) ;;
  print " | OK".

(** ** [wait_for_sync] *)

(** A list comprehension [[f(x) for x in xs]] whose element may raise. *)
Fixpoint comprehension {A B} (xs : list A) (f : A → M B) : M (list B) :=
  match xs with
  | [] => ret []
  | x :: rest => y <- f x ;; ys <- comprehension rest f ;; ret (y :: ys)
  end.

(** [status.count("Master")] *)
Definition count (x : string) (l : list string) : nat :=
  length (filter (λ y, y = x) l).

(** One pass through the body of [while masters != 1:], lines 72 to 75;
    the result is the new value of [masters]. *)
Definition poll (devices : list device) : M nat :=
  status <- comprehension devices (λ d, node_value d "PtpStatus" (PtpStatus d)) ;;
  print "." ;;
  sleep 2 ;;
  ret (count "Master" status).

(** The [while] loop.  The devices are observed anew at every pass:
    [devices k] is the device list as it answers during pass [k].  The
    loop has no bound in the source; [fuel] bounds the number of passes
    the model follows, and [None] means the loop is still running when
    the fuel is spent. *)
Fixpoint wait_for_sync_loop (fuel : nat) (devices : nat → list device)
    (pass masters : nat) (w : world) : option (outcome unit * world) :=
  if decide (masters ≠ 1) then
    match fuel with
    | O => None
    | S fuel' =>
        match poll (devices pass) w with
        | (Return masters', w') =>
            wait_for_sync_loop fuel' devices (S pass) masters' w'
        | (Raise e, w') => Some (Raise e, w')
        end
    end
  else Some (Return tt, w).

Definition wait_for_sync (fuel : nat) (devices : nat → list device)
    (w : world) : option (outcome unit * world) :=
  let '(_, w0) := print "Waiting for PTP Sync..." w in
  match wait_for_sync_loop fuel devices 0 0 w0 with
  | Some (Return _, w1) => Some (print " | OK " w1)
  | r => r
  end.

(** ** The interactive loop of [__main__], lines 187 to 190 *)

Definition prompt : string := "Press enter to capture, or q then enter to exit".

(** [inputs] are the lines the terminal will deliver to [input], in
    order; at end of input [input] raises [EOFError].  [devices b] is the
    device list as it answers during the cycle of batch [b].  The result
    is the final value of [batch]. *)
Fixpoint interactive_loop (inputs : list string) (devices : nat → list device)
    (batch : nat) : M nat :=
  print prompt ;;
  match inputs with
  | [] => raise (Exception "EOF when reading a line")
  | line :: rest =>
      if decide (line ≠ "q") then
        fire_cameras (devices batch) batch ;;
        interactive_loop rest devices (S batch)
      else ret batch
  end.

Definition capture_session (inputs : list string) (devices : nat → list device)
    : M nat :=
  interactive_loop inputs devices 0.

(** ** [save_image_buffers] *)

(** [f"{batch:03}"]: decimal, padded with zeros on the left to a width
    of at least three. *)
Definition format_03 (batch : nat) : string :=
  let digits := pretty batch in
  String.concat "" (replicate (3 - String.length digits) "0") +:+ digits.

(** [f"images/{sessionID}/Scene_{batch:03}/cam_{serial}.raw"] *)
Definition save_path (sessionID : string) (batch : nat) (serial : string) : string :=
  "images/" +:+ sessionID +:+ "/Scene_" +:+ format_03 batch +:+
  "/cam_" +:+ serial +:+ ".raw".

(** The worker runs in its own thread, so it is embedded as a machine
    that takes one step per access to the shared queue or flag; the
    control points are the lines of the source. *)
Inductive control :=
| AtWhile                  (* line 133, before reading to_do.value *)
| AtWhileEmpty             (* line 133, to_do.value was 0, before buffer_queue.empty() *)
| AtInnerWhile             (* line 134 *)
| AtGet                    (* line 135 *)
| AtSave (task : FrameTask)  (* line 137 *)
| AtSleep                  (* line 143 *)
| Finished                 (* the outer loop was left *)
| Failed (e : exn).        (* an exception left the function *)

Record pipeline := mkPipeline {
  queue : list FrameTask;          (* buffer_queue *)
  to_do : Z;                       (* to_do_signal = Value("i", 1) *)
  worker : control;
  saved : list (addr * string);    (* completed writer.save(buffer, path) *)
  naps : nat;                      (* completed time.sleep(1) *)
}.

(** The task the worker has taken from the queue and not yet saved. *)
Definition in_hand (c : control) : list FrameTask :=
  match c with AtSave task => [task] | _ => [] end.

Definition failed (c : control) : bool :=
  match c with Failed _ => true | _ => false end.

(** The worker is inside its loop: it has neither returned from it nor
    been ended by an exception. *)
Definition in_loop (c : control) : bool :=
  match c with Finished | Failed _ => false | _ => true end.

Section Worker.
(** [sessionID] is the string [datetime.now().strftime("%Y%m%dT%H%M%S")]
    computed once at line 131, before the loop; [writer_save] is what
    [Writer().save] answers. *)
Variable sessionID : string.
Variable writer_save : addr → string → outcome unit.

Definition goto (c : control) (s : pipeline) : pipeline :=
  mkPipeline (queue s) (to_do s) c (saved s) (naps s).

Definition save_image_buffers_step (s : pipeline) : pipeline :=
  match worker s with
  | AtWhile =>
      if decide (to_do s ≠ 0%Z) then goto AtInnerWhile s else goto AtWhileEmpty s
  | AtWhileEmpty =>
      match queue s with
      | [] => goto Finished s
      | _ :: _ => goto AtInnerWhile s
      end
  | AtInnerWhile =>
      match queue s with
      | [] => goto AtSleep s
      | _ :: _ => goto AtGet s
      end
  | AtGet =>
      match queue s with
      | [] => s                       (* get() blocks on an empty queue *)
      | task :: rest =>
          mkPipeline rest (to_do s) (AtSave task) (saved s) (naps s)
      end
  | AtSave task =>
      let path := save_path sessionID (ft_batch task) (ft_serial task) in
      match writer_save (ft_buffer task) path with
      | Return _ =>
          mkPipeline (queue s) (to_do s) AtInnerWhile
                     (saved s ++ [(ft_buffer task, path)]) (naps s)
      | Raise e => goto (Failed e) s
      end
  | AtSleep =>
      mkPipeline (queue s) (to_do s) AtWhile (saved s) (S (naps s))
  | Finished => s
  | Failed _ => s
  end.

(** What the two threads can do to the shared state: the main thread
    enqueues a task ([buffer_queue.put], line 117) or clears the flag
    ([to_do_signal.value = 0], line 193); the worker takes a step. *)
Inductive action :=
| Enqueue (task : FrameTask)
| ClearFlag
| Work.

Definition act (s : pipeline) (a : action) : pipeline :=
  match a with
  | Enqueue task =>
      mkPipeline (queue s ++ [task]) (to_do s) (worker s) (saved s) (naps s)
  | ClearFlag => mkPipeline (queue s) 0 (worker s) (saved s) (naps s)
  | Work => save_image_buffers_step s
  end.

(** An interleaving of the two threads is a schedule, run from left to
    right. *)
Definition run (schedule : list action) (s : pipeline) : pipeline :=
  foldl act s schedule.

Definition is_enqueue (a : action) : bool :=
  match a with Enqueue _ => true | _ => false end.

(** The main thread clears the flag only after its last enqueue. *)
Fixpoint stops_before_signal (schedule : list action) : bool :=
  match schedule with
  | [] => true
  | ClearFlag :: rest => forallb (λ a, negb (is_enqueue a)) rest
  | _ :: rest => stops_before_signal rest
  end.

(** The tasks the schedule enqueues, in order. *)
Definition enqueued (schedule : list action) : list FrameTask :=
  omap (λ a, match a with Enqueue t => Some t | _ => None end) schedule.

(** What persisting a task records. *)
Definition persisted (task : FrameTask) : addr * string :=
  (ft_buffer task, save_path sessionID (ft_batch task) (ft_serial task)).

(** What [Writer().save] answers for a task. *)
Definition write_of (task : FrameTask) : outcome unit :=
  writer_save (ft_buffer task)
              (save_path sessionID (ft_batch task) (ft_serial task)).

(** What holds of the pipeline after any interleaving in which the
    tasks [puts] were enqueued. *)
Record consistent (s : pipeline) (puts : list FrameTask) : Prop := {
  failure_from_writer :
    ∀ e, worker s = Failed e → ∃ t, t ∈ puts ∧ write_of t = Raise e;
  all_accounted :
    failed (worker s) = false →
    saved s ++ map persisted (in_hand (worker s) ++ queue s) = map persisted puts;
  flag_seen_cleared :
    worker s = AtWhileEmpty ∨ worker s = Finished → to_do s = 0%Z;
  get_finds_task :
    worker s = AtGet → queue s ≠ [];
  pending_were_put :
    ∀ t, t ∈ in_hand (worker s) ++ queue s → t ∈ puts;
  saved_were_put :
    Forall (λ x, ∃ t, t ∈ puts ∧ write_of t = Return tt ∧ x = persisted t) (saved s);
}.

(** The worker reaches the end of its loop from [s] within some number
    of steps of its own, having saved exactly the tasks [tasks] on top
    of what it had saved. *)
Definition finishes_with (s : pipeline) (tasks : list FrameTask) : Prop :=
  ∃ n, let s' := run (replicate n Work) s in
    worker s' = Finished ∧ queue s' = [] ∧
    saved s' = saved s ++ map persisted tasks.
End Worker.

(** The three decimal digits of a number below 1000. *)
Definition digit (n : nat) : Ascii.ascii := Ascii.ascii_of_nat (48 + n).
Definition three_digits (n : nat) : string :=
  String (digit (n / 100))
    (String (digit (n / 10 mod 10)) (String (digit (n mod 10)) EmptyString)).

(** The state in which the worker thread is started, line 183. *)
Definition pipeline0 : pipeline := mkPipeline [] 1 AtWhile [] 0.

(** ** Notions used by the statements *)

(** The device answers every step of its retrieval up to and including
    the copy of its buffer: a frame of this device reaches the queue. *)
Definition delivers (d : device) : bool :=
  returned (TransferStart d) && returned (get_buffer d) &&
  returned (TransferStop d) && returned (DeviceSerialNumber d) &&
  returned (buffer_copy d).

(** [get_buffer] handed over a buffer. *)
Definition retrieved (d : device) : bool :=
  returned (TransferStart d) && returned (get_buffer d).

(** No timeout and no transfer error. *)
Definition transferred (d : device) : bool :=
  returned (TransferStart d) && returned (get_buffer d) &&
  returned (TransferStop d).

(** No step of the [try] block raises. *)
Definition completes (d : device) : bool :=
  delivers d && returned (requeue_buffer d).

(** The number of devices reporting "Master". *)
Definition masters (devices : list device) : nat :=
  length (filter (λ d, PtpStatus d = Return "Master") devices).

(** The first exception of the [try] block of a device, if any. *)
Definition raised (d : device) : option exn :=
  match TransferStart d with
  | Raise e => Some e
  | Return _ =>
  match get_buffer d with
  | Raise e => Some e
  | Return _ =>
  match TransferStop d with
  | Raise e => Some e
  | Return _ =>
  match DeviceSerialNumber d with
  | Raise e => Some e
  | Return _ =>
  match buffer_copy d with
  | Raise e => Some e
  | Return _ =>
  match requeue_buffer d with
  | Raise e => Some e
  | Return _ => None
  end end end end end end.

(** The devices on which an event starts a transfer, or waits for a
    buffer. *)
Definition started (ev : event) : option nat :=
  match ev with
  | NodeExecute h node => if decide (node = "TransferStart") then Some h else None
  | _ => None
  end.
Definition awaited (ev : event) : option nat :=
  match ev with GetBuffer h _ => Some h | _ => None end.

(** World [w] after the events [evs]. *)
Definition add_events (evs : list event) (w : world) : world :=
  mkWorld (buffer_queue w) (memory w) (on_loan w) (SYS_TL_MAP w) (trace w ++ evs).

(** What one pass of the sync loop does: it reads the clock role of
    every device, prints a dot and sleeps two seconds. *)
Definition poll_events (devices : list device) : list event :=
  map (λ d, NodeRead (handle d) "PtpStatus") devices ++ [Print "."; Sleep 2].

(** Every device answers the read of its clock role. *)
Definition readable (devices : list device) : Prop :=
  Forall (λ d, returned (PtpStatus d) = true) devices.

(** Events on the system transport layer: setting a node of
    [SYS_TL_MAP] or executing one. *)
Definition sys_event (ev : event) : bool :=
  match ev with
  | SysSet _ _ | SysExecute _ => true
  | _ => false
  end.

(** The tasks put on the queue, and the events, between two worlds. *)
Definition enqueued_between (w w' : world) : list FrameTask :=
  drop (length (buffer_queue w)) (buffer_queue w').
Definition events_between (w w' : world) : list event :=
  drop (length (trace w)) (trace w').

(** ** Sample devices and worlds *)

(** The empty world. *)
Definition world0 : world := mkWorld [] ∅ [] ∅ [].

(** A camera that reports the master clock role. *)
Definition cam_master (h : nat) (serial : string) (a : addr) (img : image) : device :=
  mkDevice h (Return "Master") (Return tt) (Return 1000%Z) (Return tt)
           (Return (a, img)) (Return tt) (Return serial) (Return tt) (Return tt).

(** A world in which the stream buffers 10, 11 and 12 exist. *)
Definition world_streaming : world :=
  mkWorld [] (<[10 := []]> (<[11 := []]> (<[12 := []]> ∅))) [] ∅ [].

(** A camera that answers every call. *)
Definition cam (h : nat) (serial : string) (a : addr) (img : image) : device :=
  mkDevice h (Return "Slave") (Return tt) (Return 1000%Z) (Return tt)
           (Return (a, img)) (Return tt) (Return serial) (Return tt) (Return tt).

(** A camera whose [get_buffer] times out. *)
Definition cam_timeout (h : nat) (serial : string) : device :=
  mkDevice h (Return "Slave") (Return tt) (Return 1000%Z) (Return tt)
           (Raise (Exception "timeout")) (Return tt) (Return serial) (Return tt)
           (Return tt).

(** A camera that hands over a buffer and then fails to stop the transfer. *)
Definition cam_stop_fault (h : nat) (serial : string) (a : addr) (img : image) : device :=
  mkDevice h (Return "Slave") (Return tt) (Return 1000%Z) (Return tt)
           (Return (a, img)) (Raise (Exception "transfer stop failed"))
           (Return serial) (Return tt) (Return tt).

(** A camera that hands over a buffer; reading its serial number fails. *)
Definition cam_serial_fault (h : nat) (a : addr) (img : image) : device :=
  mkDevice h (Return "Slave") (Return tt) (Return 1000%Z) (Return tt)
           (Return (a, img)) (Return tt) (Raise (Exception "read failed"))
           (Return tt) (Return tt).

(** A camera that answers every call; the copy of its buffer fails. *)
Definition cam_copy_fault (h : nat) (serial : string) (a : addr) (img : image) : device :=
  mkDevice h (Return "Slave") (Return tt) (Return 1000%Z) (Return tt)
           (Return (a, img)) (Return tt) (Return serial)
           (Raise (Exception "out of memory")) (Return tt).

(** A camera that answers every call but the requeue of its buffer. *)
Definition cam_requeue_fault (h : nat) (serial : string) (a : addr) (img : image) : device :=
  mkDevice h (Return "Slave") (Return tt) (Return 1000%Z) (Return tt)
           (Return (a, img)) (Return tt) (Return serial) (Return tt)
           (Raise (Exception "requeue failed")).

(** The world after the trigger part of [fire_cameras], lines 96 to 106,
    when the latch of [d] answers [t0]. *)
Definition triggered (d : device) (t0 : Z) (w : world) : world :=
  mkWorld (buffer_queue w) (memory w) (on_loan w)
          (<["ActionCommandExecuteTime" := (t0 + PTP_DELTA)%Z]> (SYS_TL_MAP w))
          (trace w ++
           [NodeExecute (handle d) "PtpDataSetLatch";
            NodeRead (handle d) "PtpDataSetLatchValue";
            SysSet "ActionCommandExecuteTime" (t0 + PTP_DELTA);
            SysExecute "ActionCommandFireCommand";
            Print "Retrieving images..."]).

(** ** Notions used by the statements, continued *)

(** The task a delivering device contributes in world [w]. *)
Definition frame_of (batch : nat) (d : device) (w : world) : option FrameTask :=
  match TransferStart d, get_buffer d, TransferStop d, DeviceSerialNumber d,
        buffer_copy d with
  | Return _, Return (a, img), Return _, Return s, Return _ =>
      Some (mkTask (fresh (dom (<[a := img]> (memory w)))) batch s)
  | _, _, _, _, _ => None
  end.

(** Task [t] is the frame of device [d]: it carries the batch, the
    serial number read from [d], and a copy of the buffer [d] handed
    over, the copy being made among the events [evs]. *)
Definition frame_from (batch : nat) (evs : list event)
    (t : FrameTask) (d : device) : Prop :=
  ft_batch t = batch ∧
  DeviceSerialNumber d = Return (ft_serial t) ∧
  ∃ a img, get_buffer d = Return (a, img) ∧ Copy a (ft_buffer t) ∈ evs.

(** Task [t] holds a private copy of the frame of device [d]: among the
    events [evs] the copy is made, the task is put on the queue and only
    then the device's buffer is requeued; the task's buffer is outside
    the set [D] of device buffers and holds the frame in memory [mem]. *)
Definition private_copy (D : gset addr) (evs : list event)
    (mem : gmap addr image) (t : FrameTask) (d : device) : Prop :=
  ∃ a img, get_buffer d = Return (a, img) ∧
    (∃ before after,
       evs = before ++
             [Copy a (ft_buffer t); Put t; RequeueBuffer (handle d) a] ++ after) ∧
    (ft_buffer t ∉ D) ∧
    mem !! (ft_buffer t) = Some img.

(** Whatever is later written to the buffers in [D], the buffer of task
    [t] still holds the frame that device [d] delivered. *)
Definition survives_device_writes (D : gset addr) (mem : gmap addr image)
    (t : FrameTask) (d : device) : Prop :=
  ∃ a img, get_buffer d = Return (a, img) ∧
    ∀ mem' : gmap addr image,
      (∀ c, c ∉ D → mem' !! c = mem !! c) →
      mem' !! (ft_buffer t) = Some img.

(** ** The rest of the program: configuration, streams and [__main__] *)

(** A value assigned to a node.  [VFloat n] is the float with the
    integral value [n], as in the literal [30000.0]. *)
Inductive value :=
| VInt (n : Z)
| VStr (s : string)
| VBool (b : bool)
| VFloat (n : Z).

#[global] Instance value_eq_dec : EqDecision value.
Proof. solve_decision. Defined.

(** A camera as [__main__] handles it before the capture loop: the
    device, and what it answers when a node's maximum is read, when a
    node of its node map or of its stream node map is assigned, and when
    its stream is started. *)
Record camera := mkCamera {
  device_of : device;
  node_max : string → outcome Z;
  node_assign : string → outcome unit;
  tl_assign : string → outcome unit;
  start_stream : outcome unit;
}.

(** The state of the whole rig: the [world] of the capture functions,
    the node maps of the cameras (keyed by camera and node name), the
    cameras that are streaming, and the state [__main__] shares with the
    worker thread. *)
Record rig := mkRig {
  rig_world : world;
  nodemap : gmap (nat * string) value;            (* device.nodemap *)
  tl_stream_nodemap : gmap (nat * string) value;  (* device.tl_stream_nodemap *)
  streaming : list nat;         (* start_stream() returned *)
  to_do_signal : option Z;      (* Value("i", 1), once created *)
  worker_started : bool;        (* save_thread.start() *)
  destroyed : bool;             (* system.destroy_device() *)
}.

Definition rig0 : rig := mkRig world0 ∅ ∅ [] None false false.

Definition R (A : Type) : Type := rig → outcome A * rig.

Definition rret {A} (a : A) : R A := λ r, (Return a, r).
Definition rbind {A B} (c : R A) (k : A → R B) : R B :=
  λ r, match c r with
       | (Return a, r') => k a r'
       | (Raise e, r') => (Raise e, r')
       end.

Declare Scope rig_scope.
Delimit Scope rig_scope with R.
Notation "x <- c ;; k" := (rbind c (λ x, k))
  (at level 100, c at next level, right associativity) : rig_scope.
Notation "c ;; k" := (rbind c (λ _, k))
  (at level 100, right associativity) : rig_scope.

Definition rtry_except {A} (body : R A) (handler : exn → R A) : R A :=
  λ r, match body r with
       | (Return a, r') => (Return a, r')
       | (Raise e, r') => handler e r'
       end.

Fixpoint rfor_each {A} (xs : list A) (body : A → R unit) : R unit :=
  match xs with
  | [] => rret tt
  | x :: rest => rbind (body x) (λ _, rfor_each rest body)
  end.

Definition set_world (w : world) (r : rig) : rig :=
  mkRig w (nodemap r) (tl_stream_nodemap r) (streaming r) (to_do_signal r)
        (worker_started r) (destroyed r).

(** An operation on the world, as an operation on the rig. *)
Definition lift {A} (c : M A) : R A :=
  λ r, let '(o, w) := c (rig_world r) in (o, set_world w r).

(** [dev_map[node].max] *)
Definition read_max (c : camera) (node : string) : R Z :=
  λ r, (node_max c node, r).

(** [dev_map[node].value = v] *)
Definition assign (c : camera) (node : string) (v : value) : R unit :=
  λ r, match node_assign c node with
       | Return _ =>
           (Return tt,
            mkRig (rig_world r) (<[(handle (device_of c), node) := v]> (nodemap r))
                  (tl_stream_nodemap r) (streaming r) (to_do_signal r)
                  (worker_started r) (destroyed r))
       | Raise e => (Raise e, r)
       end.

(** [tl_map[node].value = v] *)
Definition assign_tl (c : camera) (node : string) (v : value) : R unit :=
  λ r, match tl_assign c node with
       | Return _ =>
           (Return tt,
            mkRig (rig_world r) (nodemap r)
                  (<[(handle (device_of c), node) := v]> (tl_stream_nodemap r))
                  (streaming r) (to_do_signal r) (worker_started r) (destroyed r))
       | Raise e => (Raise e, r)
       end.

(** [configure_camera(device, id)], lines 16 to 64. *)
Definition configure_camera (c : camera) (id : nat) : R unit :=
  (lift (print ".") ;;
   width <- read_max c "Width" ;;
   assign c "Width" (VInt width) ;;
   height <- read_max c "Height" ;;
   assign c "Height" (VInt height) ;;
   assign c "PixelFormat" (VStr "BayerRG16") ;;
   assign c "ExposureAuto" (VStr "Off") ;;
   assign c "ExposureTime" (VFloat 30000) ;;
   assign c "AcquisitionMode" (VStr "Continuous") ;;
   assign c "TriggerMode" (VStr "On") ;;
   assign c "TriggerSource" (VStr "Action0") ;;
   assign c "TriggerSelector" (VStr "FrameStart") ;;
   assign c "ActionUnconditionalMode" (VStr "On") ;;
   assign c "ActionSelector" (VInt 0) ;;
   assign c "ActionDeviceKey" (VInt 1) ;;
   assign c "ActionGroupKey" (VInt 1) ;;
   assign c "ActionGroupMask" (VInt 1) ;;
   assign c "TransferControlMode" (VStr "UserControlled") ;;
   assign c "TransferOperationMode" (VStr "Continuous") ;;
   lift (node_execute (device_of c) "TransferStop" (TransferStop (device_of c))) ;;
   assign c "PtpEnable" (VBool true) ;;
   assign c "PtpSlaveOnly" (VBool (bool_decide (id ≠ 0))) ;;
   assign c "AcquisitionStart" (VStr "PTPSync") ;;
   assign_tl c "StreamBufferHandlingMode" (VStr "OldestFirst") ;;
   assign_tl c "StreamAutoNegotiatePacketSize" (VBool true) ;;
   assign_tl c "StreamPacketResendEnable" (VBool true) ;;
   lift (print " | OK"))%R.

(** The configuration loop of [__main__], lines 156 to 162; the result
    is the final value of [id]. *)
Fixpoint configure_cameras (cameras : list camera) (id : nat) : R nat :=
  match cameras with
  | [] => rret id
  | c :: rest =>
      (rtry_except (configure_camera c id) (λ e, lift (print (message e))) ;;
       configure_cameras rest (S id))%R
  end.

(** [device.start_stream()] *)
Definition device_start_stream (c : camera) : R unit :=
  λ r, match start_stream c with
       | Return _ =>
           (Return tt,
            mkRig (rig_world r) (nodemap r) (tl_stream_nodemap r)
                  (streaming r ++ [handle (device_of c)]) (to_do_signal r)
                  (worker_started r) (destroyed r))
       | Raise e => (Raise e, r)
       end.

(** [start_streams(devices)], lines 80 to 91; the bare [except:] catches
    whatever is raised. *)
Definition start_streams (cameras : list camera) : R unit :=
  (lift (print "Starting Streams...") ;;
   rfor_each cameras
     (λ c, rtry_except (lift (print ".") ;; device_start_stream c)
                       (λ _, lift (print "*"))) ;;
   lift (print " | OK "))%R.

(** Lines 165 to 168. *)
Definition setup_action_command : M unit :=
  sys_set "ActionCommandDeviceKey" 1 ;;
  sys_set "ActionCommandGroupKey" 1 ;;
  sys_set "ActionCommandGroupMask" 1 ;;
  sys_set "ActionCommandTargetIP" 4294967295.

(** Lines 177 to 183: the queue and the flag are created and the worker
    thread is started. *)
Definition start_worker : R unit :=
  λ r, (Return tt,
        mkRig (rig_world r) (nodemap r) (tl_stream_nodemap r) (streaming r)
              (Some 1%Z) true (destroyed r)).

(** Line 193. *)
Definition clear_to_do : R unit :=
  λ r, (Return tt,
        mkRig (rig_world r) (nodemap r) (tl_stream_nodemap r) (streaming r)
              (Some 0%Z) (worker_started r) (destroyed r)).

(** Line 198. *)
Definition destroy_device : R unit :=
  λ r, (Return tt,
        mkRig (rig_world r) (nodemap r) (tl_stream_nodemap r) (streaming r)
              (to_do_signal r) (worker_started r) true).

(** Steps 1 and 2 of [__main__], and the setup of the action command. *)
Definition prepare (cameras : list camera) : R unit :=
  match cameras with
  | [] => λ r, (Raise (Exception "No cameras connected"), r)
  | _ :: _ =>
      (lift (print ("Found and connected to " +:+ pretty (length cameras) +:+
                    " cameras")) ;;
       lift (print "Configuring Cameras...") ;;
       configure_cameras cameras 0 ;;
       lift setup_action_command)%R
  end.

(** Steps 4 to 6 and the cleanup, from [start_streams] on.  The main
    thread's [save_thread.join()] waits for the worker and changes
    nothing; the worker itself is the machine [save_image_buffers_step]. *)
Definition operate (cameras : list camera) (devices : nat → list device)
    (inputs : list string) : R unit :=
  (start_streams cameras ;;
   start_worker ;;
   lift (interactive_loop inputs devices 0) ;;
   clear_to_do ;;
   destroy_device)%R.

(** The [__main__] block.  [cameras] is what [system.create_device()]
    returned; [syncing k] are the devices as they answer in pass [k] of
    the sync loop, [devices b] as they answer in the cycle of batch [b];
    [fuel] bounds the passes of the sync loop that are followed. *)
Definition main (fuel : nat) (cameras : list camera)
    (syncing devices : nat → list device) (inputs : list string)
    (r : rig) : option (outcome unit * rig) :=
  match prepare cameras r with
  | (Raise e, r1) => Some (Raise e, r1)
  | (Return _, r1) =>
      match wait_for_sync fuel syncing (rig_world r1) with
      | None => None
      | Some (Raise e, w2) => Some (Raise e, set_world w2 r1)
      | Some (Return _, w2) => Some (operate cameras devices inputs (set_world w2 r1))
      end
  end.

(** What the main thread does to the state it shares with the worker, in
    program order: the tasks it put, then the clearing of the flag if it
    got that far. *)
Definition main_actions (r : rig) : list action :=
  map Enqueue (buffer_queue (rig_world r)) ++
  (if decide (to_do_signal r = Some 0%Z) then [ClearFlag] else []).

(** [schedule] interleaves steps of the worker with the actions
    [actions] of the main thread. *)
Definition of_main_thread (a : action) : bool :=
  match a with Work => false | _ => true end.
Definition interleaves (schedule actions : list action) : Prop :=
  filter of_main_thread schedule = actions.

(** A camera that answers every call. *)
Definition camera_ok (h : nat) (w hgt : Z) : camera :=
  mkCamera (cam h "S" h []) (λ n, Return (if decide (n = "Width") then w else hgt))
           (λ _, Return tt) (λ _, Return tt) (Return tt).

(** A camera on which the assignment of the node [node] raises, and the
    start of the stream with it. *)
Definition camera_faulty (h : nat) (node : string) : camera :=
  mkCamera (cam h "S" h []) (λ _, Return 100%Z)
           (λ n, if decide (n = node) then Raise (Exception "not writable") else Return tt)
           (λ _, Return tt) (Raise (Exception "stream failed")).

(** The assignments [configure_camera] makes to the node map of a
    camera, in order: those before [TransferStop] is executed, with the
    maxima read for width and height, and those after it. *)
Definition settings_before_stop (width height : Z) : list (string * value) :=
  [("Width", VInt width); ("Height", VInt height);
   ("PixelFormat", VStr "BayerRG16"); ("ExposureAuto", VStr "Off");
   ("ExposureTime", VFloat 30000); ("AcquisitionMode", VStr "Continuous");
   ("TriggerMode", VStr "On"); ("TriggerSource", VStr "Action0");
   ("TriggerSelector", VStr "FrameStart");
   ("ActionUnconditionalMode", VStr "On"); ("ActionSelector", VInt 0);
   ("ActionDeviceKey", VInt 1); ("ActionGroupKey", VInt 1);
   ("ActionGroupMask", VInt 1); ("TransferControlMode", VStr "UserControlled");
   ("TransferOperationMode", VStr "Continuous")].

Definition settings_after_stop (id : nat) : list (string * value) :=
  [("PtpEnable", VBool true); ("PtpSlaveOnly", VBool (bool_decide (id ≠ 0)));
   ("AcquisitionStart", VStr "PTPSync")].

Definition settings (id : nat) (width height : Z) : list (string * value) :=
  settings_before_stop width height ++ settings_after_stop id.

(** The assignments to the stream node map. *)
Definition stream_settings : list (string * value) :=
  [("StreamBufferHandlingMode", VStr "OldestFirst");
   ("StreamAutoNegotiatePacketSize", VBool true);
   ("StreamPacketResendEnable", VBool true)].

(** Assignments made one after the other. *)
Definition assign_all (c : camera) (l : list (string * value)) : R unit :=
  rfor_each l (λ nv, assign c nv.1 nv.2).
Definition assign_tl_all (c : camera) (l : list (string * value)) : R unit :=
  rfor_each l (λ nv, assign_tl c nv.1 nv.2).

(** Node map [m] after the assignments [l] to the nodes of camera [h]. *)
Definition assigned (h : nat) (l : list (string * value))
    (m : gmap (nat * string) value) : gmap (nat * string) value :=
  foldl (λ m nv, <[(h, nv.1) := nv.2]> m) m l.

(** The camera answers every call of its configuration, with maxima
    [width] and [height]. *)
Definition accepts (c : camera) (width height : Z) : Prop :=
  node_max c "Width" = Return width ∧ node_max c "Height" = Return height ∧
  (∀ n, node_assign c n = Return tt) ∧ (∀ n, tl_assign c n = Return tt) ∧
  TransferStop (device_of c) = Return tt.

(** Rig [r] after the events [evs]. *)
Definition rig_events (evs : list event) (r : rig) : rig :=
  set_world (add_events evs (rig_world r)) r.

(** The handle of a camera. *)
Definition camera_handle (c : camera) : nat := handle (device_of c).

(** The rig with more cameras streaming. *)
Definition with_streaming (hs : list nat) (r : rig) : rig :=
  mkRig (rig_world r) (nodemap r) (tl_stream_nodemap r) (streaming r ++ hs)
        (to_do_signal r) (worker_started r) (destroyed r).

(** The rig with its node map, or its stream node map, replaced. *)
Definition set_nodemap (m : gmap (nat * string) value) (r : rig) : rig :=
  mkRig (rig_world r) m (tl_stream_nodemap r) (streaming r) (to_do_signal r)
        (worker_started r) (destroyed r).
Definition set_tl_stream_nodemap (m : gmap (nat * string) value) (r : rig) : rig :=
  mkRig (rig_world r) (nodemap r) m (streaming r) (to_do_signal r)
        (worker_started r) (destroyed r).

(** The operation leaves the nodes of every camera but [h] as they are. *)
Definition touches_only {A} (h : nat) (c : R A) : Prop :=
  ∀ r k, k.1 ≠ h →
    nodemap (c r).2 !! k = nodemap r !! k ∧
    tl_stream_nodemap (c r).2 !! k = tl_stream_nodemap r !! k.

(** The operation leaves alone what the main thread shares with the
    worker, the queue included, and starts or destroys nothing. *)
Definition idle {A} (c : R A) : Prop :=
  ∀ r,
    to_do_signal (c r).2 = to_do_signal r ∧
    worker_started (c r).2 = worker_started r ∧
    destroyed (c r).2 = destroyed r ∧
    streaming (c r).2 = streaming r ∧
    buffer_queue (rig_world (c r).2) = buffer_queue (rig_world r).

(** The operation on the world changes nothing but the trace and the
    system node map. *)
Definition logs_only {A} (c : M A) : Prop :=
  ∀ w, buffer_queue (c w).2 = buffer_queue w ∧ memory (c w).2 = memory w ∧
       on_loan (c w).2 = on_loan w.

(** The exception that the calls on the first device raise in the
    trigger part of a cycle, lines 96 to 98, if any. *)
Definition trigger_error (devices : list device) : option exn :=
  match devices with
  | [] => Some (Exception "list index out of range")
  | d :: _ =>
      match PtpDataSetLatch d, PtpDataSetLatchValue d with
      | Raise e, _ => Some e
      | Return _, Raise e => Some e
      | Return _, Return _ => None
      end
  end.

(** The calls made on the first device up to that exception. *)
Definition trigger_attempt (devices : list device) : list event :=
  match devices with
  | [] => []
  | d :: _ =>
      NodeExecute (handle d) "PtpDataSetLatch" ::
      (if returned (PtpDataSetLatch d)
       then [NodeRead (handle d) "PtpDataSetLatchValue"] else [])
  end.

(** A camera whose latched clock value cannot be read. *)
Definition cam_latch_fault (h : nat) (serial : string) (a : addr) (img : image) : device :=
  mkDevice h (Return "Slave") (Return tt) (Raise (Exception "latch not readable"))
           (Return tt) (Return (a, img)) (Return tt) (Return serial) (Return tt)
           (Return tt).

(** What [start_streams] prints for a camera. *)
Definition stream_marks (c : camera) : list event :=
  if returned (start_stream c) then [Print "."] else [Print "."; Print "*"].

(** ** Notions used by the further properties *)

(** The buffer a device leaves on loan after its retrieval block: it
    handed over a buffer and some later step of the block (transfer
    stop, serial read, buffer copy or requeue) raised. *)
Definition leak (d : device) : option (nat * addr) :=
  match TransferStart d, get_buffer d with
  | Return _, Return (a, _) => if completes d then None else Some (handle d, a)
  | _, _ => None
  end.

(** World [w] with the queue replaced by [q]. *)
Definition with_queue (q : list FrameTask) (w : world) : world :=
  mkWorld q (memory w) (on_loan w) (SYS_TL_MAP w) (trace w).

(** The queue owns its buffers: with [D] the buffers of the devices, no
    queued task holds a buffer of [D], every task's buffer is allocated,
    and no two tasks share one. *)
Definition owned (D : gset addr) (w : world) : Prop :=
  D ⊆ dom (memory w) ∧
  NoDup (map ft_buffer (buffer_queue w)) ∧
  ∀ t, t ∈ buffer_queue w →
    (ft_buffer t ∉ D) ∧ is_Some (memory w !! (ft_buffer t)).

(** Task [t] is the frame device [d] delivered in the cycle of [batch],
    and memory [mem] holds that frame in the task's own buffer. *)
Definition holds_frame (D : gset addr) (mem : gmap addr image) (batch : nat)
    (t : FrameTask) (d : device) : Prop :=
  ft_batch t = batch ∧
  DeviceSerialNumber d = Return (ft_serial t) ∧
  (ft_buffer t ∉ D) ∧
  ∃ a img, get_buffer d = Return (a, img) ∧ mem !! (ft_buffer t) = Some img.

(** Reading a string of decimal digits as a number, as [int] does. *)
Definition digit_value (c : Ascii.ascii) : N := (Ascii.N_of_ascii c - 48)%N.
Fixpoint decode_go (acc : N) (s : string) : N :=
  match s with
  | EmptyString => acc
  | String c rest => decode_go (10 * acc + digit_value c) rest
  end.
Definition decode (s : string) : nat := N.to_nat (decode_go 0 s).

(** The string consists of decimal digits. *)
Fixpoint digits_only (s : string) : bool :=
  match s with
  | EmptyString => true
  | String c rest =>
      Ascii.leb (digit 0) c && Ascii.leb c (digit 9) && digits_only rest
  end.

(** A camera whose clock role cannot be read. *)
Definition cam_role_fault (h : nat) (serial : string) : device :=
  mkDevice h (Raise (Exception "read failed")) (Return tt) (Return 1000%Z)
           (Return tt) (Raise (Exception "timeout")) (Return tt)
           (Return serial) (Return tt) (Return tt).

(** The action command that the system is set up to send addresses the
    camera with handle [h] as it is configured: the device keys and the
    group keys are equal, the group masks have a bit in common, the
    command is broadcast, and the camera takes action 0 as its trigger. *)
Definition addressed (r : rig) (h : nat) : Prop :=
  ∃ key group mask command_mask : Z,
    nodemap r !! (h, "ActionDeviceKey") = Some (VInt key) ∧
    SYS_TL_MAP (rig_world r) !! "ActionCommandDeviceKey" = Some key ∧
    nodemap r !! (h, "ActionGroupKey") = Some (VInt group) ∧
    SYS_TL_MAP (rig_world r) !! "ActionCommandGroupKey" = Some group ∧
    nodemap r !! (h, "ActionGroupMask") = Some (VInt mask) ∧
    SYS_TL_MAP (rig_world r) !! "ActionCommandGroupMask" = Some command_mask ∧
    Z.land mask command_mask ≠ 0%Z ∧
    SYS_TL_MAP (rig_world r) !! "ActionCommandTargetIP" = Some (2 ^ 32 - 1)%Z ∧
    nodemap r !! (h, "TriggerSource") = Some (VStr "Action0") ∧
    nodemap r !! (h, "ActionSelector") = Some (VInt 0) ∧
    nodemap r !! (h, "TriggerMode") = Some (VStr "On").

(** * Properties *)

(** ** One device's retrieval *)

Ltac unfold_retrieve :=
  cbv [retrieve try_except bind node_execute node_value emit answer
       device_get_buffer device_requeue_buffer BufferFactory_copy put print ret];
  cbn [buffer_queue memory on_loan SYS_TL_MAP trace fst snd].

Ltac by_outcomes d :=
  destruct (TransferStart d) as [[]|?] eqn:?;
  [destruct (get_buffer d) as [[? ?]|?] eqn:?;
   [destruct (TransferStop d) as [[]|?] eqn:?;
    [destruct (DeviceSerialNumber d) as [?|?] eqn:?;
     [destruct (buffer_copy d) as [[]|?] eqn:?;
      [destruct (requeue_buffer d) as [[]|?] eqn:?|]|]|]|]|].

Ltac step_retrieve d :=
  unfold_retrieve; by_outcomes d;
  cbn [buffer_queue memory on_loan SYS_TL_MAP trace fst snd];
  rewrite ?lookup_insert_eq;
  cbn [buffer_queue memory on_loan SYS_TL_MAP trace fst snd].

Lemma retrieve_returns batch d w : (retrieve batch d w).1 = Return tt.
Proof. step_retrieve d; reflexivity. Qed.

Lemma for_each_retrieve_returns batch devices w :
  (for_each devices (retrieve batch) w).1 = Return tt.
Proof.
  revert w; induction devices as [|d devices IH]; intros w; [done|].
  cbn [for_each]. unfold bind at 1.
  pose proof (retrieve_returns batch d w) as Hd.
  destruct (retrieve batch d w) as [[[]|e] w1]; cbn in Hd; [apply IH|done].
Qed.

Lemma for_each_cons batch d devices w :
  for_each (d :: devices) (retrieve batch) w =
  for_each devices (retrieve batch) (retrieve batch d w).2.
Proof.
  cbn [for_each]. unfold bind at 1.
  pose proof (retrieve_returns batch d w) as Hd.
  destruct (retrieve batch d w) as [[[]|e] w1]; cbn in Hd; [done|done].
Qed.

Lemma frame_of_delivers batch d w : is_Some (frame_of batch d w) ↔ delivers d = true.
Proof.
  unfold frame_of, delivers. by_outcomes d; cbn; split; intros H;
    try done; try (by destruct H); eauto.
Qed.

Lemma retrieve_queue batch d w :
  buffer_queue (retrieve batch d w).2 =
  buffer_queue w ++ option_list (frame_of batch d w).
Proof.
  unfold frame_of. step_retrieve d; cbn; rewrite ?app_nil_r; reflexivity.
Qed.

Lemma retrieve_trace batch d w :
  ∃ evs, trace (retrieve batch d w).2 = trace w ++ evs.
Proof.
  step_retrieve d; rewrite <- ?app_assoc; eexists; reflexivity.
Qed.

(** What a delivering device leaves behind. *)
Lemma retrieve_delivering batch d w a img s :
  delivers d = true →
  get_buffer d = Return (a, img) →
  DeviceSerialNumber d = Return s →
  let c := fresh (dom (<[a := img]> (memory w))) in
  let w' := (retrieve batch d w).2 in
  buffer_queue w' = buffer_queue w ++ [mkTask c batch s] ∧
  memory w' = <[c := img]> (<[a := img]> (memory w)) ∧
  ∃ tail,
    trace w' = trace w ++
      [NodeExecute (handle d) "TransferStart"; GetBuffer (handle d) 500;
       NodeExecute (handle d) "TransferStop"; Print ".";
       NodeRead (handle d) "DeviceSerialNumber"; Copy a c;
       Put (mkTask c batch s); RequeueBuffer (handle d) a] ++ tail ∧
    tail = match requeue_buffer d with
           | Return _ => []
           | Raise e => [Print (message e)]
           end.
Proof.
  unfold delivers. intros Hd Hg Hs. revert Hd Hg Hs.
  step_retrieve d; cbn; intros Hd Hg Hs; try done;
    injection Hg as <- <-; injection Hs as <-;
    (split; [reflexivity|split; [reflexivity|]]);
    eexists; (split; [|reflexivity]); rewrite <- ?app_assoc; reflexivity.
Qed.

(** A device that does not deliver leaves queue and memory of copies alone. *)
Lemma retrieve_not_delivering batch d w :
  delivers d = false →
  buffer_queue (retrieve batch d w).2 = buffer_queue w.
Proof.
  intros Hd. rewrite retrieve_queue.
  destruct (frame_of batch d w) eqn:Hf; [|by rewrite app_nil_r].
  assert (delivers d = true) by (apply (frame_of_delivers batch d w); eauto).
  congruence.
Qed.

(** ** The trigger part *)

Lemma fire_cameras_triggered d rest batch w t0 :
  PtpDataSetLatch d = Return tt →
  PtpDataSetLatchValue d = Return t0 →
  fire_cameras (d :: rest) batch w =
  print " | OK" (for_each (d :: rest) (retrieve batch) (triggered d t0 w)).2.
Proof.
  intros Hl Hv.
  pose proof (for_each_retrieve_returns batch (d :: rest) (triggered d t0 w)) as Hr.
  unfold fire_cameras, first_of.
  cbv [bind ret node_execute node_value emit answer sys_set sys_execute print] in *.
  cbn [buffer_queue memory on_loan SYS_TL_MAP trace fst snd] in *.
  rewrite Hl, Hv. cbn [buffer_queue memory on_loan SYS_TL_MAP trace fst snd].
  unfold triggered in *. rewrite <- !app_assoc. cbn [app].
  destruct (for_each (d :: rest) (retrieve batch) _) as [[[]|e] w1];
    cbn in Hr; [reflexivity|done].
Qed.

(** [fire_cameras] returns exactly when the trigger part raises nothing:
    the list has a first device, and its latch and latch value answer. *)
Lemma fire_cameras_returns_iff devices batch w :
  (fire_cameras devices batch w).1 = Return tt ↔
  ∃ d rest t0, devices = d :: rest ∧
    PtpDataSetLatch d = Return tt ∧ PtpDataSetLatchValue d = Return t0.
Proof.
  split.
  - destruct devices as [|d rest]; [done|].
    destruct (PtpDataSetLatch d) as [[]|e1] eqn:Hl;
      [destruct (PtpDataSetLatchValue d) as [t0|e2] eqn:Hv|].
    + intros _. by exists d, rest, t0.
    + unfold fire_cameras, first_of.
      cbv [bind ret node_execute node_value emit answer]. by rewrite Hl, Hv.
    + unfold fire_cameras, first_of.
      cbv [bind ret node_execute node_value emit answer]. by rewrite Hl.
  - intros (d & rest & t0 & -> & Hl & Hv).
    by rewrite (fire_cameras_triggered _ _ _ _ _ Hl Hv).
Qed.

(** ** Which tasks a cycle enqueues *)

Lemma frame_from_weaken batch before evs after t d :
  frame_from batch evs t d → frame_from batch (before ++ evs ++ after) t d.
Proof.
  intros (Hb & Hs & a & img & Hg & Hin). repeat split; [done..|].
  exists a, img. split; [done|]. set_solver.
Qed.

Lemma delivers_inv d :
  delivers d = true →
  ∃ a img s, get_buffer d = Return (a, img) ∧ DeviceSerialNumber d = Return s.
Proof.
  unfold delivers. by_outcomes d; cbn; intros H; try done; eauto.
Qed.

Lemma for_each_retrieve_frames batch devices w :
  let w' := (for_each devices (retrieve batch) w).2 in
  ∃ tasks evs,
    buffer_queue w' = buffer_queue w ++ tasks ∧
    trace w' = trace w ++ evs ∧
    Forall2 (frame_from batch evs) tasks (filter delivers devices).
Proof.
  revert w. induction devices as [|d devices IH]; intros w.
  { exists [], []. cbn. rewrite !app_nil_r. by repeat split. }
  cbn zeta. rewrite for_each_cons.
  destruct (IH (retrieve batch d w).2) as (tasks & evs & Hq & Ht & Hf).
  rewrite Hq, Ht. rewrite filter_cons.
  destruct (decide (delivers d)) as [Hd|Hd].
  - apply Is_true_true in Hd.
    destruct (delivers_inv d Hd) as (a & img & s & Hg & Hs).
    destruct (retrieve_delivering batch d w a img s Hd Hg Hs)
      as (Hq1 & _ & tail & Ht1 & _).
    match type of Ht1 with _ = _ ++ ?e => set (evs1 := e) in * end.
    assert (Copy a (fresh (dom (<[a:=img]> (memory w)))) ∈ evs1) as Hcopy
      by (subst evs1; apply list_elem_of_In; cbn; tauto).
    clearbody evs1.
    rewrite Hq1, Ht1, <- !app_assoc.
    eexists (_ :: tasks), (evs1 ++ evs).
    split; [reflexivity|]. split; [reflexivity|].
    constructor.
    + repeat split; [done|]. exists a, img. split; [done|]. set_solver.
    + eapply Forall2_impl; [exact Hf|]. intros t d' H.
      rewrite <- (app_nil_r evs). by apply frame_from_weaken.
  - apply Is_true_false in Hd.
    rewrite (retrieve_not_delivering batch d w Hd).
    destruct (retrieve_trace batch d w) as [evs0 Ht0]. rewrite Ht0.
    exists tasks, (evs0 ++ evs). rewrite <- !app_assoc.
    split; [reflexivity|]. split; [reflexivity|].
    eapply Forall2_impl; [exact Hf|]. intros t d' H.
    rewrite <- (app_nil_r evs). by apply frame_from_weaken.
Qed.

Lemma fire_cameras_frames devices batch w :
  (fire_cameras devices batch w).1 = Return tt →
  let w' := (fire_cameras devices batch w).2 in
  ∃ tasks evs,
    buffer_queue w' = buffer_queue w ++ tasks ∧
    trace w' = trace w ++ evs ∧
    Forall2 (frame_from batch evs) tasks (filter delivers devices).
Proof.
  intros (d & rest & t0 & -> & Hl & Hv)%fire_cameras_returns_iff.
  cbn zeta. rewrite (fire_cameras_triggered _ _ _ _ _ Hl Hv).
  destruct (for_each_retrieve_frames batch (d :: rest) (triggered d t0 w))
    as (tasks & evs & Hq & Ht & Hf).
  unfold print, emit. cbn [snd buffer_queue trace]. rewrite Hq, Ht.
  unfold triggered. cbn [buffer_queue trace]. rewrite <- !app_assoc.
  eexists tasks, (_ ++ evs ++ _).
  split; [reflexivity|]. split; [reflexivity|].
  eapply Forall2_impl; [exact Hf|]. intros t d' H.
  by apply frame_from_weaken.
Qed.

Lemma fire_cameras_delivery devices batch w :
  (fire_cameras devices batch w).1 = Return tt →
  let w' := (fire_cameras devices batch w).2 in
  buffer_queue w' = buffer_queue w ++ enqueued_between w w' ∧
  length (enqueued_between w w') = length (filter delivers devices) ∧
  Forall2 (frame_from batch (events_between w w'))
          (enqueued_between w w') (filter delivers devices).
Proof.
  intros Hret. cbn zeta.
  destruct (fire_cameras_frames devices batch w Hret) as (tasks & evs & Hq & Ht & Hf).
  unfold enqueued_between, events_between. rewrite Hq, Ht.
  rewrite !drop_app_length.
  split; [reflexivity|]. split; [by eapply Forall2_length|done].
Qed.

(** C1, as amended.  In a trigger cycle of [fire_cameras] over a list of
    devices, the FrameTasks enqueued are, in order, one for each device
    whose transfer start, buffer retrieval, transfer stop, serial read
    and buffer copy all answer without raising (whether or not the
    requeue that follows raises): with K such devices exactly K tasks
    are enqueued, and each carries the batch index passed to
    [fire_cameras], the serial number read from its own device and a
    copy of the buffer that device handed over. *)
Theorem fire_cameras_enqueues_delivered devices batch w :
  (fire_cameras devices batch w).1 = Return tt →
  let w' := (fire_cameras devices batch w).2 in
  buffer_queue w' = buffer_queue w ++ enqueued_between w w' ∧
  length (enqueued_between w w') = length (filter delivers devices) ∧
  (length (filter delivers devices) ≤ length devices)%nat ∧
  Forall2 (frame_from batch (events_between w w'))
          (enqueued_between w w') (filter delivers devices).
Proof.
  intros Hret.
  destruct (fire_cameras_delivery devices batch w Hret) as (Hq & Hlen & Hf).
  repeat split; [exact Hq|exact Hlen|apply length_filter|exact Hf].
Qed.

Lemma fire_cameras_enqueues_delivered_witness :
  let devices := [cam 0 "A" 10 [1%Z]; cam_timeout 1 "B";
                  cam_copy_fault 2 "C" 12 [3%Z]; cam 3 "D" 13 [4%Z]] in
  let w' := (fire_cameras devices 7 world0).2 in
  buffer_queue w' = buffer_queue world0 ++ enqueued_between world0 w' ∧
  length (enqueued_between world0 w') = length (filter delivers devices) ∧
  (length (filter delivers devices) ≤ length devices)%nat ∧
  Forall2 (frame_from 7 (events_between world0 w'))
          (enqueued_between world0 w') (filter delivers devices).
Proof.
  apply (fire_cameras_enqueues_delivered
           [cam 0 "A" 10 [1%Z]; cam_timeout 1 "B";
            cam_copy_fault 2 "C" 12 [3%Z]; cam 3 "D" 13 [4%Z]] 7 world0).
  reflexivity.
Defined.

(** C1, as stated, fails.  The first camera hands over a buffer without
    timeout or transfer error, and the read of its serial number then
    raises: nothing is enqueued for it.  The second camera's task is
    enqueued, and the requeue of its buffer then raises.  So two devices
    retrieved a buffer, none completed its retrieval block, and one task
    is on the queue. *)
Lemma fire_cameras_retrieved_not_enqueued :
  let devices := [cam_serial_fault 0 10 [1%Z]; cam_requeue_fault 1 "B" 11 [2%Z]] in
  let w' := (fire_cameras devices 0 world0).2 in
  (fire_cameras devices 0 world0).1 = Return tt ∧
  length (filter retrieved devices) = 2 ∧
  length (filter transferred devices) = 2 ∧
  length (filter completes devices) = 0 ∧
  length (enqueued_between world0 w') = 1 ∧
  length (enqueued_between world0 w') ≠ length (filter retrieved devices) ∧
  length (enqueued_between world0 w') ≠ length (filter transferred devices) ∧
  length (enqueued_between world0 w') ≠ length (filter completes devices).
Proof. vm_compute. repeat split; congruence. Qed.

(** Three cameras, the second times out: the batch holds the frames of
    the first and the third, and the timeout is printed. *)
Example partial_batch :
  let w' := (fire_cameras [cam 0 "A" 10 [1%Z]; cam_timeout 1 "B"; cam 2 "C" 12 [3%Z]]
                          7 world_streaming).2 in
  buffer_queue w' = [mkTask 13 7 "A"; mkTask 14 7 "C"] ∧
  memory w' !! 13 = Some [1%Z] ∧ memory w' !! 14 = Some [3%Z] ∧
  on_loan w' = [] ∧
  Print "timeout" ∈ trace w'.
Proof.
  cbn zeta. repeat split; try reflexivity.
  apply list_elem_of_In. vm_compute. tauto.
Qed.

(** ** Containment of per-device failures *)

Lemma transferred_delivers d : transferred d = false → delivers d = false.
Proof. unfold transferred, delivers. intros ->. reflexivity. Qed.

(** One retrieval starts the transfer once, waits for a buffer at most
    once, and prints the exception it catches. *)
Lemma retrieve_attempts batch d w :
  ∃ evs, trace (retrieve batch d w).2 = trace w ++ evs ∧
    omap started evs = [handle d] ∧
    omap awaited evs = (if returned (TransferStart d) then [handle d] else []) ∧
    ∀ e, raised d = Some e → Print (message e) ∈ evs.
Proof.
  unfold raised. step_retrieve d; rewrite <- ?app_assoc;
    (eexists; split; [reflexivity|]);
    (split; [reflexivity|]); (split; [reflexivity|]);
    intros e' He; try done; injection He as <-;
    apply list_elem_of_In; cbn; tauto.
Qed.

Lemma for_each_retrieve_attempts batch devices w :
  ∃ evs, trace (for_each devices (retrieve batch) w).2 = trace w ++ evs ∧
    omap started evs = map handle devices ∧
    omap awaited evs =
      map handle (filter (λ d, returned (TransferStart d)) devices) ∧
    ∀ d e, d ∈ devices → raised d = Some e → Print (message e) ∈ evs.
Proof.
  revert w. induction devices as [|d devices IH]; intros w.
  { exists []. cbn. rewrite app_nil_r. repeat split; try done.
    intros d e Hd. by apply not_elem_of_nil in Hd. }
  rewrite for_each_cons.
  destruct (retrieve_attempts batch d w) as (evs1 & Ht1 & Hs1 & Ha1 & Hp1).
  destruct (IH (retrieve batch d w).2) as (evs & Ht & Hs & Ha & Hp).
  exists (evs1 ++ evs). rewrite Ht, Ht1, <- app_assoc.
  split; [reflexivity|]. rewrite !omap_app, Hs1, Ha1, Hs, Ha.
  split; [reflexivity|]. split.
  - rewrite filter_cons. destruct (returned (TransferStart d)); reflexivity.
  - intros x e [->|Hx]%elem_of_cons Hr; apply elem_of_app; eauto.
Qed.

(** C7.  Once the trigger part of [fire_cameras] has gone through, no
    failure inside a device's retrieval block leaves the function: it
    returns normally.  Every device of the list has its retrieval
    started exactly once, in list order, whatever happened to the
    devices before it, and [get_buffer] is called at most once per
    device: nothing is skipped and nothing retried.  Every exception
    raised in a retrieval block is printed.  A device with a timeout or
    a transfer error (one that does not get through transfer start,
    buffer retrieval and transfer stop) leaves the batch with fewer
    FrameTasks than devices. *)
Theorem retrieval_failure_contained d rest batch w t0 :
  PtpDataSetLatch d = Return tt →
  PtpDataSetLatchValue d = Return t0 →
  let devices := d :: rest in
  let w' := (fire_cameras devices batch w).2 in
  (fire_cameras devices batch w).1 = Return tt ∧
  omap started (events_between w w') = map handle devices ∧
  omap awaited (events_between w w') =
    map handle (filter (λ x, returned (TransferStart x)) devices) ∧
  (∀ x e, x ∈ devices → raised x = Some e →
     Print (message e) ∈ events_between w w') ∧
  (∀ x, x ∈ devices → transferred x = false →
     (length (enqueued_between w w') < length devices)%nat).
Proof.
  intros Hl Hv devices w'.
  assert ((fire_cameras devices batch w).1 = Return tt) as Hret.
  { apply fire_cameras_returns_iff. by exists d, rest, t0. }
  split; [exact Hret|].
  destruct (fire_cameras_delivery devices batch w Hret)
    as (_ & Hlen & _).
  fold w' in Hlen.
  assert (events_between w w' =
          [NodeExecute (handle d) "PtpDataSetLatch";
           NodeRead (handle d) "PtpDataSetLatchValue";
           SysSet "ActionCommandExecuteTime" (t0 + PTP_DELTA);
           SysExecute "ActionCommandFireCommand";
           Print "Retrieving images..."] ++
          events_between (triggered d t0 w)
            (for_each devices (retrieve batch) (triggered d t0 w)).2 ++
          [Print " | OK"]) as Hev.
  { subst w' devices. rewrite (fire_cameras_triggered _ _ _ _ _ Hl Hv).
    destruct (for_each_retrieve_attempts batch (d :: rest) (triggered d t0 w))
      as (evs & Ht & _).
    unfold events_between, print, emit. cbn [snd trace]. rewrite Ht.
    rewrite drop_app_length. unfold triggered. cbn [trace].
    rewrite <- !app_assoc, drop_app_length. reflexivity. }
  destruct (for_each_retrieve_attempts batch devices (triggered d t0 w))
    as (evs & Ht & Hs & Ha & Hp).
  rewrite Hev. unfold events_between at 1 2 3. rewrite Ht, drop_app_length.
  rewrite !omap_app, Hs, Ha. cbn [omap started awaited]. rewrite !app_nil_r.
  split; [reflexivity|]. split; [reflexivity|]. split.
  - intros x e Hx Hr. apply elem_of_app. right. apply elem_of_app. left. eauto.
  - intros x Hx Hfail%transferred_delivers. rewrite Hlen.
    apply (length_filter_lt _ devices x); [done|].
    rewrite Hfail. intros [].
Qed.

(** ** The scheduled execution time *)

Lemma retrieve_sys batch d w :
  SYS_TL_MAP (retrieve batch d w).2 = SYS_TL_MAP w ∧
  ∃ evs, trace (retrieve batch d w).2 = trace w ++ evs ∧
    Forall (λ ev, sys_event ev = false) evs.
Proof.
  step_retrieve d; (split; [reflexivity|]); rewrite <- ?app_assoc;
    (eexists; split; [reflexivity|]); repeat constructor.
Qed.

Lemma for_each_retrieve_sys batch devices w :
  SYS_TL_MAP (for_each devices (retrieve batch) w).2 = SYS_TL_MAP w ∧
  ∃ evs, trace (for_each devices (retrieve batch) w).2 = trace w ++ evs ∧
    Forall (λ ev, sys_event ev = false) evs.
Proof.
  revert w. induction devices as [|d devices IH]; intros w.
  { split; [reflexivity|]. exists []. cbn. by rewrite app_nil_r. }
  rewrite for_each_cons.
  destruct (retrieve_sys batch d w) as (Hm1 & evs1 & Ht1 & Hf1).
  destruct (IH (retrieve batch d w).2) as (Hm & evs & Ht & Hf).
  split; [congruence|]. exists (evs1 ++ evs).
  rewrite Ht, Ht1, <- app_assoc. split; [reflexivity|]. by apply Forall_app.
Qed.

(** C5.  [fire_cameras] latches the clock of the first device of the
    list, reads the latched value [t0], sets the execution time of the
    action command to [t0] plus 10 ms (the clock counts nanoseconds), and
    only then fires the group command; these are the first four events
    of the cycle, and the rest of the cycle neither sets nor executes
    anything on the transport layer, so the command is fired once and
    the execution time stays [t0 + 10 ms].  Device and margin do not
    depend on the batch or on the world the cycle starts in. *)
Theorem fire_time_is_latch_plus_margin d rest batch w t0 :
  PtpDataSetLatch d = Return tt →
  PtpDataSetLatchValue d = Return t0 →
  let w' := (fire_cameras (d :: rest) batch w).2 in
  PTP_DELTA = (10 * 1000000)%Z ∧
  SYS_TL_MAP w' !! "ActionCommandExecuteTime" = Some (t0 + 10 * 1000000)%Z ∧
  ∃ evs,
    events_between w w' =
      [NodeExecute (handle d) "PtpDataSetLatch";
       NodeRead (handle d) "PtpDataSetLatchValue";
       SysSet "ActionCommandExecuteTime" (t0 + 10 * 1000000);
       SysExecute "ActionCommandFireCommand"] ++ evs ∧
    Forall (λ ev, sys_event ev = false) evs.
Proof.
  intros Hl Hv w'. split; [reflexivity|]. subst w'.
  rewrite (fire_cameras_triggered _ _ _ _ _ Hl Hv).
  destruct (for_each_retrieve_sys batch (d :: rest) (triggered d t0 w))
    as (Hm & evs & Ht & Hf).
  unfold events_between, print, emit. cbn [snd trace SYS_TL_MAP].
  rewrite Hm, Ht. unfold triggered. cbn [SYS_TL_MAP trace].
  split; [apply lookup_insert_eq|].
  exists (Print "Retrieving images..." :: evs ++ [Print " | OK"]).
  rewrite <- !app_assoc, drop_app_length. split; [reflexivity|].
  constructor; [reflexivity|]. apply Forall_app. split; [done|].
  by repeat constructor.
Qed.

Lemma fire_time_is_latch_plus_margin_witness :
  let d := cam 0 "A" 10 [1%Z] in
  let w' := (fire_cameras [d; cam 1 "B" 11 [2%Z]] 3 world0).2 in
  PTP_DELTA = (10 * 1000000)%Z ∧
  SYS_TL_MAP w' !! "ActionCommandExecuteTime" = Some (1000 + 10 * 1000000)%Z ∧
  ∃ evs,
    events_between world0 w' =
      [NodeExecute (handle d) "PtpDataSetLatch";
       NodeRead (handle d) "PtpDataSetLatchValue";
       SysSet "ActionCommandExecuteTime" (1000 + 10 * 1000000);
       SysExecute "ActionCommandFireCommand"] ++ evs ∧
    Forall (λ ev, sys_event ev = false) evs.
Proof.
  apply (fire_time_is_latch_plus_margin
           (cam 0 "A" 10 [1%Z]) [cam 1 "B" 11 [2%Z]] 3 world0 1000%Z);
    reflexivity.
Defined.

Lemma retrieval_failure_contained_witness :
  let d := cam 0 "A" 10 [1%Z] in
  let devices := [d; cam_timeout 1 "B"; cam 2 "C" 12 [3%Z]] in
  let w' := (fire_cameras devices 7 world0).2 in
  (fire_cameras devices 7 world0).1 = Return tt ∧
  omap started (events_between world0 w') = map handle devices ∧
  omap awaited (events_between world0 w') =
    map handle (filter (λ x, returned (TransferStart x)) devices) ∧
  (∀ x e, x ∈ devices → raised x = Some e →
     Print (message e) ∈ events_between world0 w') ∧
  (∀ x, x ∈ devices → transferred x = false →
     (length (enqueued_between world0 w') < length devices)%nat).
Proof.
  apply (retrieval_failure_contained
           (cam 0 "A" 10 [1%Z]) [cam_timeout 1 "B"; cam 2 "C" 12 [3%Z]]
           7 world0 1000%Z); reflexivity.
Defined.

(** ** Buffers on loan from the devices *)

(** When no step of the block raises, the buffer is back with the device. *)
Lemma retrieve_requeues batch d w a img :
  completes d = true →
  get_buffer d = Return (a, img) →
  on_loan (retrieve batch d w).2 =
  remove_loan (handle d, a) ((handle d, a) :: on_loan w).
Proof.
  unfold completes, delivers. intros Hc Hg. revert Hc Hg.
  step_retrieve d; cbn; intros Hc Hg; try done. by injection Hg as <- <-.
Qed.

(** When a step after [get_buffer] and before the requeue raises, the
    buffer stays on loan. *)
Lemma retrieve_leaks batch d w a img :
  retrieved d = true →
  delivers d = false →
  get_buffer d = Return (a, img) →
  on_loan (retrieve batch d w).2 = (handle d, a) :: on_loan w.
Proof.
  unfold retrieved, delivers. intros Hr Hd Hg. revert Hr Hd Hg.
  step_retrieve d; cbn; intros Hr Hd Hg; try done; by injection Hg as <- <-.
Qed.

(** C4 fails on the code.  A camera hands over buffer 10 and the stop of
    its transfer then raises: [fire_cameras] returns normally, buffer 10
    of camera 0 is still on loan, and [requeue_buffer] was never called. *)
Theorem fire_cameras_leaks_buffer_on_error :
  let devices := [cam_stop_fault 0 "A" 10 [1%Z]] in
  let w' := (fire_cameras devices 0 world0).2 in
  (fire_cameras devices 0 world0).1 = Return tt ∧
  GetBuffer 0 500 ∈ trace w' ∧
  on_loan w' = [(0, 10)] ∧
  Forall (λ ev, ∀ h a, ev ≠ RequeueBuffer h a) (trace w').
Proof.
  cbn zeta. split; [reflexivity|]. split.
  - apply list_elem_of_In. vm_compute. tauto.
  - split; [reflexivity|]. vm_compute. repeat constructor; congruence.
Qed.

(** ** The queued buffer is a private copy *)

Lemma retrieve_memory batch d w (D : gset addr) :
  D ⊆ dom (memory w) →
  (∀ a img, get_buffer d = Return (a, img) → a ∈ D) →
  dom (memory w) ⊆ dom (memory (retrieve batch d w).2) ∧
  ∀ c img, c ∉ D → memory w !! c = Some img →
    memory (retrieve batch d w).2 !! c = Some img.
Proof.
  intros HD Hdev.
  assert (∀ a img c img', a ∈ D → c ∉ D → memory w !! c = Some img' →
            <[fresh (dom (<[a:=img]> (memory w))):=img]> (<[a:=img]> (memory w)) !! c
            = Some img') as Hcopy.
  { intros a img c img' Ha Hc Hm.
    rewrite lookup_insert_ne, lookup_insert_ne; [done|set_solver|].
    intros Heq. pose proof (is_fresh (dom (<[a:=img]> (memory w)))) as Hf.
    rewrite Heq in Hf. apply Hf. rewrite dom_insert. apply elem_of_union. right.
    apply elem_of_dom. eauto. }
  revert Hdev. step_retrieve d; intros Hdev;
    try (split; [set_solver|done]);
    try (split; [rewrite !dom_insert; set_solver|]);
    try (intros c img' Hc Hm; rewrite lookup_insert_ne; [done|];
         intros <-; apply Hc; eapply Hdev; reflexivity);
    intros c img' Hc Hm; apply Hcopy; eauto.
Qed.

Lemma private_copy_weaken D before evs after mem mem' t d :
  (∀ c img, c ∉ D → mem !! c = Some img → mem' !! c = Some img) →
  private_copy D evs mem t d →
  private_copy D (before ++ evs ++ after) mem' t d.
Proof.
  intros Hmem (a & img & Hg & (b & f & ->) & Hc & Hm).
  exists a, img. split; [done|]. split; [|split; [done|eauto]].
  exists (before ++ b), (f ++ after). by rewrite <- !app_assoc.
Qed.

Lemma private_copy_later D before evs mem t d :
  private_copy D evs mem t d → private_copy D (before ++ evs) mem t d.
Proof.
  intros H. rewrite <- (app_nil_r evs).
  by apply (private_copy_weaken D before evs [] mem mem t d).
Qed.

Lemma for_each_retrieve_copies batch devices (D : gset addr) w :
  D ⊆ dom (memory w) →
  (∀ d a img, d ∈ devices → get_buffer d = Return (a, img) → a ∈ D) →
  let w' := (for_each devices (retrieve batch) w).2 in
  dom (memory w) ⊆ dom (memory w') ∧
  (∀ c img, c ∉ D → memory w !! c = Some img → memory w' !! c = Some img) ∧
  ∃ tasks evs,
    buffer_queue w' = buffer_queue w ++ tasks ∧
    trace w' = trace w ++ evs ∧
    Forall2 (private_copy D evs (memory w')) tasks (filter delivers devices).
Proof.
  revert w. induction devices as [|d devices IH]; intros w HD Hdev.
  { cbn. split; [done|]. split; [done|]. exists [], [].
    rewrite !app_nil_r. by repeat split. }
  cbn zeta. rewrite for_each_cons.
  destruct (retrieve_memory batch d w D HD) as (Hdom1 & Hkeep1).
  { intros a img. apply Hdev. by left. }
  destruct (IH (retrieve batch d w).2) as (Hdom & Hkeep & tasks & evs & Hq & Ht & Hf).
  { by etrans. }
  { intros x a img Hx. apply Hdev. by right. }
  split; [by etrans|]. split; [by eauto|].
  rewrite Hq, Ht, filter_cons.
  destruct (decide (delivers d)) as [Hd|Hd].
  - apply Is_true_true in Hd.
    destruct (delivers_inv d Hd) as (a & img & s & Hg & Hs).
    destruct (retrieve_delivering batch d w a img s Hd Hg Hs)
      as (Hq1 & Hm1 & tail & Ht1 & _).
    set (c := fresh (dom (<[a:=img]> (memory w)))) in *.
    assert (c ∉ D) as HcD.
    { intros Hc. apply (is_fresh (dom (<[a:=img]> (memory w)))).
      fold c. rewrite dom_insert. apply elem_of_union. right. by apply HD. }
    match type of Ht1 with _ = _ ++ ?e ++ tail => set (evs8 := e) in * end.
    rewrite Hq1, Ht1, <- !app_assoc.
    exists (mkTask c batch s :: tasks), (evs8 ++ tail ++ evs).
    split; [reflexivity|]. split; [reflexivity|].
    constructor.
    + exists a, img. split; [done|]. split; [|split; [done|]].
      * exists [NodeExecute (handle d) "TransferStart"; GetBuffer (handle d) 500;
                NodeExecute (handle d) "TransferStop"; Print ".";
                NodeRead (handle d) "DeviceSerialNumber"], (tail ++ evs).
        reflexivity.
      * apply Hkeep; [done|]. rewrite Hm1. apply lookup_insert_eq.
    + eapply Forall2_impl; [exact Hf|]. intros t d' H.
      apply (private_copy_later D (evs8 ++ tail)) in H.
      rewrite <- app_assoc in H. exact H.
  - destruct (retrieve_trace batch d w) as [evs0 Ht0].
    apply Is_true_false in Hd.
    rewrite (retrieve_not_delivering batch d w Hd), Ht0, <- app_assoc.
    exists tasks, (evs0 ++ evs). split; [reflexivity|]. split; [reflexivity|].
    eapply Forall2_impl; [exact Hf|]. intros t d' H.
    by apply private_copy_later.
Qed.

Lemma triggered_queue d t0 w : buffer_queue (triggered d t0 w) = buffer_queue w.
Proof. reflexivity. Qed.

Lemma triggered_trace d t0 w :
  trace (triggered d t0 w) =
  trace w ++ [NodeExecute (handle d) "PtpDataSetLatch";
              NodeRead (handle d) "PtpDataSetLatchValue";
              SysSet "ActionCommandExecuteTime" (t0 + PTP_DELTA);
              SysExecute "ActionCommandFireCommand";
              Print "Retrieving images..."].
Proof. reflexivity. Qed.

Lemma private_copy_survives D evs mem t d :
  private_copy D evs mem t d → survives_device_writes D mem t d.
Proof.
  intros (a & img & Hg & _ & Hc & Hm). exists a, img. split; [done|].
  intros mem' Hsame. by rewrite Hsame.
Qed.

(** C8.  Take a cycle that starts in a world where the stream buffers of
    the devices already exist.  Every task the cycle enqueues holds a
    buffer that [BufferFactory.copy] made of its device's buffer, and the
    copy and the [put] come before that device buffer is requeued.  The
    task's buffer is none of the device buffers, so the queue keeps no
    reference to a requeued buffer, and it holds the delivered frame at
    the end of the cycle and after any later writes to device buffers. *)
Theorem queued_buffer_is_private_copy devices batch w :
  (fire_cameras devices batch w).1 = Return tt →
  (∀ d a img, d ∈ devices → get_buffer d = Return (a, img) →
     a ∈ dom (memory w)) →
  let w' := (fire_cameras devices batch w).2 in
  Forall2 (λ t d,
             private_copy (dom (memory w)) (events_between w w') (memory w') t d ∧
             survives_device_writes (dom (memory w)) (memory w') t d)
          (enqueued_between w w') (filter delivers devices) ∧
  ∀ t d a img, t ∈ enqueued_between w w' → d ∈ devices →
    get_buffer d = Return (a, img) → ft_buffer t ≠ a.
Proof.
  intros (d0 & rest & t0 & -> & Hl & Hv)%fire_cameras_returns_iff Hdev.
  cbn zeta. rewrite (fire_cameras_triggered _ _ _ _ _ Hl Hv).
  destruct (for_each_retrieve_copies batch (d0 :: rest) (dom (memory w))
              (triggered d0 t0 w)) as (_ & _ & tasks & evs & Hq & Ht & Hf);
    [done|exact Hdev|].
  unfold enqueued_between, events_between, print, emit.
  cbn [snd buffer_queue trace memory]. rewrite Hq, Ht.
  rewrite triggered_queue, triggered_trace, <- !app_assoc, !drop_app_length.
  assert (Forall2 (private_copy (dom (memory w))
            ([NodeExecute (handle d0) "PtpDataSetLatch";
              NodeRead (handle d0) "PtpDataSetLatchValue";
              SysSet "ActionCommandExecuteTime" (t0 + PTP_DELTA);
              SysExecute "ActionCommandFireCommand";
              Print "Retrieving images..."] ++ evs ++ [Print " | OK"])
            (memory (for_each (d0 :: rest) (retrieve batch) (triggered d0 t0 w)).2))
            tasks (filter delivers (d0 :: rest))) as Hpriv.
  { eapply Forall2_impl; [exact Hf|]. intros t d H.
    eapply private_copy_weaken; [|exact H]. done. }
  split.
  - eapply Forall2_impl; [exact Hpriv|]. intros t d H.
    split; [exact H|by eapply private_copy_survives].
  - intros t d a img Ht' Hd Hg Heq.
    assert (Forall (λ t, ft_buffer t ∉ dom (memory w)) tasks) as Hout.
    { eapply Forall2_Forall_l; [exact Hpriv|]. apply Forall_forall.
      by intros d' _ t' (? & ? & _ & _ & Hc & _). }
    rewrite Forall_forall in Hout. apply (Hout t Ht'). rewrite Heq.
    by eapply Hdev.
Qed.

Lemma queued_buffer_is_private_copy_witness :
  let devices := [cam 0 "A" 10 [1%Z]; cam_timeout 1 "B"; cam 2 "C" 12 [3%Z]] in
  let w := world_streaming in
  let w' := (fire_cameras devices 7 w).2 in
  Forall2 (λ t d,
             private_copy (dom (memory w)) (events_between w w') (memory w') t d ∧
             survives_device_writes (dom (memory w)) (memory w') t d)
          (enqueued_between w w') (filter delivers devices) ∧
  ∀ t d a img, t ∈ enqueued_between w w' → d ∈ devices →
    get_buffer d = Return (a, img) → ft_buffer t ≠ a.
Proof.
  apply (queued_buffer_is_private_copy
           [cam 0 "A" 10 [1%Z]; cam_timeout 1 "B"; cam 2 "C" 12 [3%Z]]
           7 world_streaming).
  - reflexivity.
  - intros d a img Hd Hg. apply list_elem_of_In in Hd. cbn in Hd.
    destruct Hd as [<-|[<-|[<-|[]]]]; cbn in Hg; try done;
      injection Hg as <- <-; apply elem_of_dom; eexists; reflexivity.
Defined.

(** ** Batch indices across cycles *)

Lemma bind_assoc {A B C} (c : M A) (k1 : A → M B) (k2 : B → M C) w :
  bind (bind c k1) k2 w = bind c (λ a, bind (k1 a) k2) w.
Proof. unfold bind. by destruct (c w) as [[a|e] w1]. Qed.

Lemma bind_ext {A B} (c : M A) (k k' : A → M B) w :
  (∀ a w1, k a w1 = k' a w1) → bind c k w = bind c k' w.
Proof. intros Hk. unfold bind. by destruct (c w) as [[a|e] w1]. Qed.

(** The loop, unrolled: with [lines] all different from "q" and then a
    "q", it prompts and fires with batch [b], [b + 1], ... once per line,
    as long as no cycle raises, prompts once more and ends. *)
Lemma interactive_loop_unrolled lines rest devices b w :
  Forall (λ line, line ≠ "q") lines →
  interactive_loop (lines ++ "q" :: rest) devices b w =
  (for_each (seq b (length lines))
            (λ batch, print prompt ;; fire_cameras (devices batch) batch) ;;
   print prompt ;;
   ret (b + length lines)) w.
Proof.
  intros Hlines. revert b w.
  induction Hlines as [|line lines Hline Hlines IH]; intros b w.
  - cbn [app interactive_loop length seq for_each].
    destruct (decide ("q" ≠ "q")) as [Hq|_]; [done|].
    cbv [bind ret print emit]. by rewrite Nat.add_0_r.
  - cbn [app interactive_loop length seq for_each].
    destruct (decide (line ≠ "q")) as [_|Hq]; [|done].
    rewrite !bind_assoc. apply bind_ext. intros _ w1.
    apply bind_ext. intros _ w2. rewrite IH. by rewrite Nat.add_succ_r.
Qed.

(** A cycle whose trigger part raises enqueues and allocates nothing. *)
Lemma fire_cameras_raise_keeps devices batch w e :
  (fire_cameras devices batch w).1 = Raise e →
  buffer_queue (fire_cameras devices batch w).2 = buffer_queue w ∧
  memory (fire_cameras devices batch w).2 = memory w ∧
  ∃ evs, trace (fire_cameras devices batch w).2 = trace w ++ evs.
Proof.
  destruct devices as [|d rest].
  { intros _. repeat split. exists []. cbn. by rewrite app_nil_r. }
  destruct (PtpDataSetLatch d) as [[]|e1] eqn:Hl;
    [destruct (PtpDataSetLatchValue d) as [t0|e2] eqn:Hv|].
  - by rewrite (fire_cameras_triggered _ _ _ _ _ Hl Hv).
  - unfold fire_cameras, first_of.
    cbv [bind ret node_execute node_value emit answer]. rewrite Hl, Hv.
    intros _. cbn. rewrite <- app_assoc. repeat split. by eexists.
  - unfold fire_cameras, first_of.
    cbv [bind ret node_execute node_value emit answer]. rewrite Hl.
    intros _. cbn. repeat split. by eexists.
Qed.

Lemma interactive_loop_nil devices b w :
  interactive_loop [] devices b w =
  (Raise (Exception "EOF when reading a line"), add_events [Print prompt] w).
Proof. reflexivity. Qed.

Lemma interactive_loop_quit inputs devices b w :
  interactive_loop ("q" :: inputs) devices b w =
  (Return b, add_events [Print prompt] w).
Proof. reflexivity. Qed.

Lemma interactive_loop_line line inputs devices b w :
  line ≠ "q" →
  interactive_loop (line :: inputs) devices b w =
  match fire_cameras (devices b) b (add_events [Print prompt] w) with
  | (Return _, w1) => interactive_loop inputs devices (S b) w1
  | (Raise e, w1) => (Raise e, w1)
  end.
Proof.
  intros Hline. cbn [interactive_loop]. rewrite decide_True by done. reflexivity.
Qed.

Lemma frames_batch batch evs tasks devices :
  Forall2 (frame_from batch evs) tasks devices →
  Forall (λ t, ft_batch t = batch) tasks.
Proof.
  intros Hf. eapply Forall2_Forall_l; [exact Hf|].
  apply Forall_forall. by intros d _ t (Hb & _).
Qed.

(** The tasks a session enqueues fall into consecutive groups, one for
    each cycle that returned; the group of the cycle number [i] after
    batch [b] holds the frames of the devices that delivered in that
    cycle, with batch index [b + i].  When the loop ends by "q", the
    batch it ends with counts the groups. *)
Lemma interactive_loop_cycles inputs devices b w :
  ∃ (cycles : list (list FrameTask)) evs,
    buffer_queue (interactive_loop inputs devices b w).2 =
      buffer_queue w ++ concat cycles ∧
    trace (interactive_loop inputs devices b w).2 = trace w ++ evs ∧
    (∀ n, (interactive_loop inputs devices b w).1 = Return n →
          n = (b + length cycles)%nat) ∧
    ∀ i tasks, cycles !! i = Some tasks →
      Forall2 (frame_from (b + i) evs) tasks (filter delivers (devices (b + i))).
Proof.
  revert b w. induction inputs as [|line inputs IH]; intros b w.
  - rewrite interactive_loop_nil. exists [], [Print prompt]. cbn.
    rewrite app_nil_r. repeat split; [done|]. by intros i ts.
  - destruct (decide (line = "q")) as [->|Hline].
    { rewrite interactive_loop_quit. exists [], [Print prompt]. cbn.
      rewrite app_nil_r. repeat split.
      - intros n [= <-]. lia.
      - by intros i ts. }
    rewrite (interactive_loop_line _ _ _ _ _ Hline).
    set (w0 := add_events [Print prompt] w).
    destruct (fire_cameras (devices b) b w0) as [[[]|e] w1] eqn:Hfire.
    + destruct (fire_cameras_frames (devices b) b w0)
        as (tasks & evs1 & Hq1 & Ht1 & Hf1); [by rewrite Hfire|].
      rewrite Hfire in Hq1, Ht1. cbn [snd] in Hq1, Ht1.
      destruct (IH (S b) w1) as (cycles & evs2 & Hq & Ht & Hn & Hc).
      exists (tasks :: cycles), ([Print prompt] ++ evs1 ++ evs2).
      rewrite Hq, Hq1, Ht, Ht1. cbn [concat length w0 add_events buffer_queue trace].
      rewrite <- !app_assoc. split; [reflexivity|]. split; [reflexivity|]. split.
      * intros n Hret. rewrite (Hn n Hret). lia.
      * intros [|i] ts Hi; cbn in Hi.
        -- injection Hi as <-. rewrite Nat.add_0_r.
           eapply Forall2_impl; [exact Hf1|]. intros t d.
           apply (frame_from_weaken b [Print prompt] evs1 evs2).
        -- rewrite Nat.add_succ_r.
           eapply Forall2_impl; [exact (Hc i ts Hi)|]. intros t d Hfrom.
           rewrite <- (app_nil_r evs2), app_assoc.
           by apply (frame_from_weaken _ ([Print prompt] ++ evs1) evs2 []).
    + destruct (fire_cameras_raise_keeps (devices b) b w0 e) as (Hq1 & _ & evs1 & Ht1);
        [by rewrite Hfire|].
      rewrite Hfire in Hq1, Ht1. cbn [snd] in *.
      exists [], ([Print prompt] ++ evs1). rewrite Hq1, Ht1. cbn.
      rewrite app_nil_r, <- app_assoc. repeat split; [done|]. by intros i ts.
Qed.

(** C9.  In one run of the interactive loop, started with [batch = 0]:
    as long as the user enters lines other than "q", [fire_cameras] is
    invoked once per line, with batch 0 the first time and one more each
    time after, until a cycle raises.  The tasks on the queue fall into
    consecutive groups; group [i] consists of exactly the frames of the
    devices that delivered in cycle [i], one task per device and in
    their order, each carrying batch index [i] and the serial number of
    its own device; when the loop ends by "q" it ends with the number
    of lines entered as batch, and there is one group for each of these
    cycles, empty ones included.  So every task of a later cycle
    carries a strictly larger index than every task of an earlier one. *)
Theorem batch_index_counts_cycles lines rest devices w :
  Forall (λ line, line ≠ "q") lines →
  let run := capture_session (lines ++ "q" :: rest) devices w in
  run =
    (for_each (seq 0 (length lines))
              (λ batch, print prompt ;; fire_cameras (devices batch) batch) ;;
     print prompt ;;
     ret (length lines)) w ∧
  ∃ cycles : list (list FrameTask),
    (∀ n, run.1 = Return n → n = length lines ∧ length cycles = length lines) ∧
    buffer_queue run.2 = buffer_queue w ++ concat cycles ∧
    (∀ i tasks, cycles !! i = Some tasks →
       Forall2 (frame_from i (events_between w run.2)) tasks
               (filter delivers (devices i))) ∧
    (∀ i j earlier later t t',
       cycles !! i = Some earlier → cycles !! j = Some later →
       t ∈ earlier → t' ∈ later → (i < j)%nat →
       (ft_batch t < ft_batch t')%nat).
Proof.
  intros Hlines run.
  assert (run =
          (for_each (seq 0 (length lines))
                    (λ batch, print prompt ;; fire_cameras (devices batch) batch) ;;
           print prompt ;;
           ret (length lines)) w) as Hrun.
  { subst run. unfold capture_session. by rewrite interactive_loop_unrolled. }
  split; [exact Hrun|].
  destruct (interactive_loop_cycles (lines ++ "q" :: rest) devices 0 w)
    as (cycles & evs & Hq & Ht & Hn & Hc).
  fold (capture_session (lines ++ "q" :: rest) devices) in Hq, Ht, Hn.
  fold run in Hq, Ht, Hn.
  assert (∀ i tasks, cycles !! i = Some tasks →
            Forall2 (frame_from i (events_between w run.2)) tasks
                    (filter delivers (devices i))) as Hc'.
  { intros i tasks Hi. unfold events_between. rewrite Ht, drop_app_length.
    exact (Hc i tasks Hi). }
  exists cycles. split; [|split; [exact Hq|split; [exact Hc'|]]].
  - intros n Hret. pose proof (Hn n Hret) as Hlen. cbn in Hlen.
    assert (n = length lines) as ->; [|by split].
    rewrite Hrun in Hret. revert Hret. unfold bind at 1.
    destruct (for_each _ _ w) as [[[]|e] w1]; [|done].
    cbv [bind print emit ret]. by intros [= <-].
  - intros i j earlier later t t' Hi Hj Hin Hin' Hij.
    pose proof (frames_batch _ _ _ _ (Hc' i earlier Hi)) as Hbi.
    pose proof (frames_batch _ _ _ _ (Hc' j later Hj)) as Hbj.
    rewrite Forall_forall in Hbi, Hbj.
    by rewrite (Hbi t Hin), (Hbj t' Hin').
Qed.

Lemma batch_index_counts_cycles_witness :
  let devices := λ _ : nat, [cam 0 "A" 10 [1%Z]; cam_timeout 1 "B"] in
  let lines := [""; ""; ""] in
  let run := capture_session (lines ++ "q" :: []) devices world0 in
  run =
    (for_each (seq 0 (length lines))
              (λ batch, print prompt ;; fire_cameras (devices batch) batch) ;;
     print prompt ;;
     ret (length lines)) world0 ∧
  ∃ cycles : list (list FrameTask),
    (∀ n, run.1 = Return n → n = length lines ∧ length cycles = length lines) ∧
    buffer_queue run.2 = buffer_queue world0 ++ concat cycles ∧
    (∀ i tasks, cycles !! i = Some tasks →
       Forall2 (frame_from i (events_between world0 run.2)) tasks
               (filter delivers (devices i))) ∧
    (∀ i j earlier later t t',
       cycles !! i = Some earlier → cycles !! j = Some later →
       t ∈ earlier → t' ∈ later → (i < j)%nat →
       (ft_batch t < ft_batch t')%nat).
Proof.
  apply (batch_index_counts_cycles [""; ""; ""] []
           (λ _ : nat, [cam 0 "A" 10 [1%Z]; cam_timeout 1 "B"]) world0).
  repeat constructor; discriminate.
Defined.

(** The session of the example above ends by "q" with batch 3, so it has
    three groups; each holds one task, that of camera "A". *)
Example three_cycles :
  let devices := λ _ : nat, [cam 0 "A" 10 [1%Z]; cam_timeout 1 "B"] in
  let run := capture_session [""; ""; ""; "q"] devices world0 in
  run.1 = Return 3 ∧
  map (λ t, (ft_batch t, ft_serial t)) (buffer_queue run.2) =
    [(0, "A"); (1, "A"); (2, "A")].
Proof. split; reflexivity. Qed.


(** ** Waiting for the single master *)

Lemma add_events_nil w : add_events [] w = w.
Proof. destruct w. unfold add_events. cbn. by rewrite app_nil_r. Qed.

Lemma add_events_app evs evs' w :
  add_events evs' (add_events evs w) = add_events (evs ++ evs') w.
Proof. unfold add_events. cbn. by rewrite app_assoc. Qed.

Lemma bind_return {A B} (c : M A) (k : A → M B) w a w1 :
  c w = (Return a, w1) → bind c k w = k a w1.
Proof. intros Hc. unfold bind. by rewrite Hc. Qed.

Lemma comprehension_status devices w :
  readable devices →
  ∃ status,
    comprehension devices (λ d, node_value d "PtpStatus" (PtpStatus d)) w =
      (Return status,
       add_events (map (λ d, NodeRead (handle d) "PtpStatus") devices) w) ∧
    count "Master" status = masters devices.
Proof.
  intros Hr. revert w. induction Hr as [|d devices Hd Hr IH]; intros w.
  - exists []. cbn. by rewrite add_events_nil.
  - cbn [comprehension].
    destruct (PtpStatus d) as [st|e] eqn:Hst; [|done].
    destruct (IH (add_events [NodeRead (handle d) "PtpStatus"] w))
      as (status & Hc & Hm).
    rewrite (bind_return _ _ w st (add_events [NodeRead (handle d) "PtpStatus"] w))
      by reflexivity.
    rewrite (bind_return _ _ _ status _ Hc).
    exists (st :: status). split.
    + unfold ret. by rewrite add_events_app.
    + unfold count, masters in *. rewrite !filter_cons, Hst.
      destruct (decide (st = "Master")) as [->|Hne].
      * rewrite decide_True by done. cbn. by rewrite Hm.
      * rewrite decide_False by congruence. done.
Qed.

Lemma poll_readable devices w :
  readable devices →
  poll devices w = (Return (masters devices), add_events (poll_events devices) w).
Proof.
  intros Hr. destruct (comprehension_status devices w Hr) as (status & Hc & Hm).
  unfold poll. rewrite (bind_return _ _ _ status _ Hc).
  cbv [bind print sleep emit ret]. rewrite Hm. unfold poll_events, add_events.
  cbn. by rewrite <- !app_assoc.
Qed.

Section SyncLoop.
Variable devices : nat → list device.
Hypothesis all_readable : ∀ k, readable (devices k).

Lemma wait_for_sync_loop_step fuel pass m w :
  m ≠ 1 →
  wait_for_sync_loop (S fuel) devices pass m w =
  wait_for_sync_loop fuel devices (S pass) (masters (devices pass))
                     (add_events (poll_events (devices pass)) w).
Proof.
  intros Hm. cbn [wait_for_sync_loop]. rewrite decide_True by done.
  by rewrite (poll_readable _ _ (all_readable pass)).
Qed.

Lemma wait_for_sync_loop_done fuel pass w :
  wait_for_sync_loop fuel devices pass 1 w = Some (Return tt, w).
Proof. destruct fuel; cbn; by rewrite decide_False by (intros H; by apply H). Qed.

(** The loop is left after the first pass that counts one master. *)
Lemma wait_for_sync_loop_returns k fuel pass m w :
  m ≠ 1 →
  masters (devices (pass + k)) = 1 →
  (∀ j, j < k → masters (devices (pass + j)) ≠ 1) →
  k < fuel →
  wait_for_sync_loop fuel devices pass m w =
  Some (Return tt,
        add_events (flat_map (λ j, poll_events (devices j)) (seq pass (S k))) w).
Proof.
  revert fuel pass m w. induction k as [|k IH]; intros fuel pass m w Hm Hk Hbefore Hfuel.
  - destruct fuel as [|fuel]; [lia|]. rewrite wait_for_sync_loop_step by done.
    rewrite Nat.add_0_r in Hk. rewrite Hk, wait_for_sync_loop_done.
    cbn [seq flat_map]. by rewrite app_nil_r.
  - destruct fuel as [|fuel]; [lia|]. rewrite wait_for_sync_loop_step by done.
    rewrite (IH fuel (S pass)).
    + rewrite add_events_app. reflexivity.
    + specialize (Hbefore 0). rewrite Nat.add_0_r in Hbefore. apply Hbefore. lia.
    + by rewrite Nat.add_succ_comm.
    + intros j Hj. rewrite Nat.add_succ_comm. apply Hbefore. lia.
    + lia.
Qed.

(** When the loop is left, some pass counted one master, and no
    earlier pass did. *)
Lemma wait_for_sync_loop_returned fuel pass m w w' :
  m ≠ 1 →
  wait_for_sync_loop fuel devices pass m w = Some (Return tt, w') →
  ∃ k, k < fuel ∧ masters (devices (pass + k)) = 1 ∧
    ∀ j, j < k → masters (devices (pass + j)) ≠ 1.
Proof.
  revert pass m w. induction fuel as [|fuel IH]; intros pass m w Hm Hrun.
  - cbn in Hrun. by rewrite decide_True in Hrun by done.
  - rewrite wait_for_sync_loop_step in Hrun by done.
    destruct (decide (masters (devices pass) = 1)) as [Hone|Hnot].
    + exists 0. split; [lia|]. rewrite Nat.add_0_r. split; [done|]. lia.
    + destruct (IH _ _ _ Hnot Hrun) as (k & Hk & Hone & Hbefore).
      exists (S k). split; [lia|]. rewrite <- Nat.add_succ_comm.
      split; [done|]. intros [|j] Hj.
      * by rewrite Nat.add_0_r.
      * rewrite <- Nat.add_succ_comm. apply Hbefore. lia.
Qed.

(** While no pass counts one master, the loop goes on. *)
Lemma wait_for_sync_loop_spins fuel pass m w :
  m ≠ 1 →
  (∀ k, masters (devices k) ≠ 1) →
  wait_for_sync_loop fuel devices pass m w = None.
Proof.
  intros Hm Hnever. revert pass m w Hm.
  induction fuel as [|fuel IH]; intros pass m w Hm.
  - cbn. by rewrite decide_True by done.
  - rewrite wait_for_sync_loop_step by done. by apply IH.
Qed.
End SyncLoop.

(** C3.  Let every device answer the read of its clock role at every
    pass.  [wait_for_sync] reads the role of every device, prints a dot
    and sleeps two seconds, pass after pass; it returns after the first
    pass in which exactly one device reports "Master" and not before.
    If at every pass the number of masters is zero or more than one it
    never returns: whatever number of passes is followed, the loop is
    still running. *)
Theorem wait_for_sync_single_master devices w :
  (∀ k, readable (devices k)) →
  (∀ k fuel,
     masters (devices k) = 1 →
     (∀ j, j < k → masters (devices j) ≠ 1) →
     k < fuel →
     wait_for_sync fuel devices w =
     Some (Return tt,
           add_events
             ([Print "Waiting for PTP Sync..."] ++
              flat_map (λ j, poll_events (devices j)) (seq 0 (S k)) ++
              [Print " | OK "]) w)) ∧
  (∀ fuel w',
     wait_for_sync fuel devices w = Some (Return tt, w') →
     ∃ k, k < fuel ∧ masters (devices k) = 1 ∧
       ∀ j, j < k → masters (devices j) ≠ 1) ∧
  ((∀ k, masters (devices k) ≠ 1) →
   ∀ fuel, wait_for_sync fuel devices w = None).
Proof.
  intros Hread. split; [|split].
  - intros k fuel Hone Hbefore Hfuel. unfold wait_for_sync, print at 1, emit.
    rewrite (wait_for_sync_loop_returns devices Hread k fuel 0 0) by done.
    unfold print, emit, add_events. cbn. by rewrite <- !app_assoc.
  - intros fuel w' Hrun. unfold wait_for_sync, print at 1, emit in Hrun.
    destruct (wait_for_sync_loop fuel devices 0 0 _) as [[[[]|e] w1]|] eqn:Hloop;
      [|done|done].
    by apply (wait_for_sync_loop_returned devices Hread fuel 0 0 _ w1 ltac:(lia) Hloop).
  - intros Hnever fuel. unfold wait_for_sync, print at 1, emit.
    by rewrite (wait_for_sync_loop_spins devices Hread fuel 0 0).
Qed.

(** ** The persistence worker *)

Section WorkerProperties.
Variable sessionID : string.
Variable writer_save : addr → string → outcome unit.

Local Abbreviation step := (save_image_buffers_step sessionID writer_save).
Local Abbreviation exec := (run sessionID writer_save).
Local Abbreviation persisted := (persisted sessionID).
Local Abbreviation write_of := (write_of sessionID writer_save).
Local Abbreviation consistent := (consistent sessionID writer_save).
Local Abbreviation finishes_with := (finishes_with sessionID writer_save).

Lemma consistent_start : consistent pipeline0 [].
Proof. split; cbn; try done. intros [|]; done. Qed.

Lemma consistent_step s puts : consistent s puts → consistent (step s) puts.
Proof.
  intros [Hfail Hall Hflag Hget Hpend Hsaved].
  unfold save_image_buffers_step, write_of in *.
  destruct (worker s) as [| | | |task| | |e] eqn:Hw; cbn [in_hand failed] in *.
  - destruct (decide (to_do s ≠ 0%Z)) as [Hne|Heq%dec_stable];
      split; cbn; try done; try (intros [|]; done); eauto.
  - destruct (queue s) as [|t q] eqn:Hq;
      split; cbn; rewrite ?Hq; try done; try (intros [|]; done); eauto.
  - destruct (queue s) as [|t q] eqn:Hq;
      split; cbn; rewrite ?Hq; try done; try (intros [|]; done); eauto.
  - destruct (queue s) as [|t q] eqn:Hq; [by destruct Hget|].
    split; cbn; try done; try (intros [|]; done); eauto.
  - destruct (writer_save _ _) as [[]|e] eqn:Hsave.
    + split; cbn; try done; try (intros [|]; done).
      * intros _. rewrite <- app_assoc. by apply Hall.
      * intros t Ht. apply Hpend. by right.
      * apply Forall_app. split; [done|]. constructor; [|done].
        exists task. split; [apply Hpend; by left|done].
    + split; cbn; try done; try (intros [|]; done).
      * intros e' [= <-]. exists task. split; [apply Hpend; by left|done].
      * intros t Ht. apply Hpend. by right.
  - split; cbn; try done; try (intros [|]; done); eauto.
  - split; rewrite ?Hw; cbn; try done; eauto.
  - split; rewrite ?Hw; cbn; try done; eauto.
Qed.
Lemma consistent_act s puts a :
  consistent s puts → consistent (act sessionID writer_save s a) (puts ++ enqueued [a]).
Proof.
  intros Hs. destruct a as [task| |]; cbn [act].
  - change (enqueued [Enqueue task]) with [task].
    destruct Hs as [Hfail Hall Hflag Hget Hpend Hsaved].
    split; cbn [queue to_do worker saved]; try done.
    + intros e He. destruct (Hfail e He) as (t & Ht & Hw).
      exists t. split; [|done]. apply elem_of_app. by left.
    + intros Hok. rewrite (map_app _ puts), <- (Hall Hok), !map_app, <- !app_assoc.
      reflexivity.
    + intros Hg Hq. by destruct (app_cons_not_nil _ _ _ (eq_sym Hq)).
    + intros t. rewrite app_assoc, !elem_of_app.
      intros [Ht|Ht]; [left; apply Hpend; by apply elem_of_app|by right].
    + eapply Forall_impl; [exact Hsaved|]. cbn.
      intros x (t & Ht & Hw & Hx). exists t. rewrite elem_of_app. eauto.
  - change (enqueued [ClearFlag]) with (@nil FrameTask). rewrite app_nil_r.
    destruct Hs as [Hfail Hall Hflag Hget Hpend Hsaved].
    split; cbn [queue to_do worker saved]; done.
  - change (enqueued [Work]) with (@nil FrameTask). rewrite app_nil_r.
    by apply consistent_step.
Qed.

Lemma exec_cons a schedule s :
  exec (a :: schedule) s = exec schedule (act sessionID writer_save s a).
Proof. reflexivity. Qed.

Lemma enqueued_cons a schedule : enqueued (a :: schedule) = enqueued [a] ++ enqueued schedule.
Proof. unfold enqueued. cbn. by destruct a. Qed.

Lemma consistent_run schedule s puts :
  consistent s puts → consistent (exec schedule s) (puts ++ enqueued schedule).
Proof.
  revert s puts. induction schedule as [|a schedule IH]; intros s puts Hs.
  - cbn. by rewrite app_nil_r.
  - rewrite enqueued_cons, app_assoc. rewrite exec_cons.
    apply IH. by apply consistent_act.
Qed.

Lemma step_to_do s : to_do (step s) = to_do s.
Proof.
  unfold save_image_buffers_step.
  destruct (worker s); try done.
  - by destruct (decide _).
  - by destruct (queue s).
  - by destruct (queue s).
  - by destruct (queue s).
  - by destruct (writer_save _ _) as [[]|].
Qed.

Lemma quiet_stops schedule :
  forallb (λ a, negb (is_enqueue a)) schedule = true →
  stops_before_signal schedule = true.
Proof.
  induction schedule as [|[| |] schedule IH]; cbn; try done.
Qed.

(** Under the shutdown discipline the queue is empty whenever the
    worker has left its loop. *)
Lemma run_finished_empty schedule s puts :
  consistent s puts →
  (worker s = Finished → queue s = []) →
  (to_do s = 0%Z → forallb (λ a, negb (is_enqueue a)) schedule = true) →
  stops_before_signal schedule = true →
  worker (exec schedule s) = Finished →
  queue (exec schedule s) = [].
Proof.
  revert s puts.
  induction schedule as [|a schedule IH]; intros s puts Hs Hfin Hquiet Hstop; [done|].
  rewrite exec_cons.
  apply (IH _ _ (consistent_act s puts a Hs)).
  - destruct a as [task| |]; cbn [act queue worker].
    + intros Hw. exfalso.
      assert (to_do s = 0%Z) as Hz by (apply (flag_seen_cleared _ _ _ _ Hs); by right).
      by specialize (Hquiet Hz).
    + done.
    + unfold save_image_buffers_step.
      destruct (worker s) eqn:Hw; try done.
      * by destruct (decide _).
      * by destruct (queue s) eqn:Hq.
      * by destruct (queue s) eqn:Hq.
      * by destruct (queue s) eqn:Hq.
      * by destruct (writer_save _ _) as [[]|].
      * intros _. by apply Hfin.
      * congruence.
  - destruct a as [task| |]; cbn [act to_do].
    + intros Hz. specialize (Hquiet Hz). done.
    + done.
    + rewrite step_to_do. done.
  - destruct a as [task| |]; cbn in Hstop; [done|by apply quiet_stops|done].
Qed.
(** *** The worker on its own, after the flag is cleared *)

Lemma finishes_after_step s tasks :
  saved (step s) = saved s →
  finishes_with (step s) tasks → finishes_with s tasks.
Proof.
  intros Hsaved (n & Hw & Hq & Hs). exists (S n).
  cbn [replicate]. rewrite exec_cons. cbn [act]. by rewrite <- Hsaved.
Qed.

Lemma finishes_after_save s task tasks :
  saved (step s) = saved s ++ [persisted task] →
  finishes_with (step s) tasks → finishes_with s (task :: tasks).
Proof.
  intros Hsaved (n & Hw & Hq & Hs). exists (S n).
  cbn [replicate]. rewrite exec_cons. cbn [act map].
  rewrite Hs, Hsaved, <- app_assoc. done.
Qed.

Lemma finishes_at_inner q sv np :
  (∀ t, t ∈ q → write_of t = Return tt) →
  finishes_with (mkPipeline q 0 AtInnerWhile sv np) q.
Proof.
  revert sv. induction q as [|t q IH]; intros sv Hwrite.
  - exists 4. cbn. by rewrite app_nil_r.
  - apply finishes_after_step; [done|]. cbn.
    apply finishes_after_step; [done|]. cbn.
    assert (write_of t = Return tt) as Ht by (apply Hwrite; by left).
    unfold write_of in Ht.
    apply (finishes_after_save _ t q);
      unfold save_image_buffers_step; cbn; rewrite Ht; cbn; [done|].
    apply IH. intros t' Ht'. apply Hwrite. by right.
Qed.

Lemma finishes s :
  to_do s = 0%Z →
  failed (worker s) = false →
  (worker s = AtGet → queue s ≠ []) →
  (worker s = Finished → queue s = []) →
  (∀ t, t ∈ in_hand (worker s) ++ queue s → write_of t = Return tt) →
  finishes_with s (in_hand (worker s) ++ queue s).
Proof.
  destruct s as [q td c sv np]. cbn. intros -> Hok Hget Hfin Hwrite.
  assert (∀ np', finishes_with (mkPipeline q 0 AtWhileEmpty sv np') q) as Hempty.
  { intros np'. destruct q as [|t q].
    - exists 1. cbn. by rewrite app_nil_r.
    - apply finishes_after_step; [done|]. cbn. apply finishes_at_inner.
      destruct c; cbn in Hwrite; try done.
      intros t' Ht'. apply Hwrite. by right. }
  assert (∀ np', finishes_with (mkPipeline q 0 AtWhile sv np') q) as Hwhile.
  { intros np'. apply finishes_after_step; [done|]. apply Hempty. }
  destruct c as [| | | |task| | |e]; cbn [in_hand app] in *; try done.
  - by apply finishes_at_inner.
  - destruct q as [|t q]; [by destruct Hget|].
    apply finishes_after_step; [done|]. cbn.
    assert (write_of t = Return tt) as Ht by (apply Hwrite; by left).
    unfold write_of in Ht.
    apply (finishes_after_save _ t q);
      unfold save_image_buffers_step; cbn; rewrite Ht; cbn; [done|].
    apply finishes_at_inner. intros t' Ht'. apply Hwrite. by right.
  - assert (write_of task = Return tt) as Ht by (apply Hwrite; by left).
    unfold write_of in Ht.
    apply (finishes_after_save _ task q);
      unfold save_image_buffers_step; cbn; rewrite Ht; cbn; [done|].
    apply finishes_at_inner. intros t' Ht'. apply Hwrite. by right.
  - apply finishes_after_step; [done|]. apply Hwhile.
  - rewrite Hfin by done. exists 0. cbn. by rewrite app_nil_r.
Qed.
(** C2.  Take any interleaving of the main thread and the worker in
    which the flag is cleared only after the last enqueue.  If the
    worker has left its loop, the queue is empty and the worker has
    saved every task that was enqueued, in order.  And once the flag
    is cleared the worker does leave its loop: unless the writer
    raises, a bounded number of its own steps brings it there, with
    every enqueued task saved and the queue empty. *)
Theorem worker_drains_queue_on_shutdown schedule :
  stops_before_signal schedule = true →
  let s := exec schedule pipeline0 in
  (worker s = Finished →
     queue s = [] ∧ saved s = map persisted (enqueued schedule)) ∧
  (to_do s = 0%Z →
   (∀ t, t ∈ enqueued schedule → write_of t = Return tt) →
   ∃ n, let s' := exec (replicate n Work) s in
     worker s' = Finished ∧ queue s' = [] ∧
     saved s' = map persisted (enqueued schedule)).
Proof.
  intros Hstop s.
  pose proof (consistent_run schedule pipeline0 [] consistent_start) as Hs.
  cbn [app] in Hs. fold s in Hs.
  assert (worker s = Finished → queue s = []) as Hfin.
  { apply (run_finished_empty schedule pipeline0 [] consistent_start);
      [done|done|exact Hstop]. }
  split.
  - intros Hw. split; [by apply Hfin|].
    pose proof (all_accounted _ _ _ _ Hs) as Hall.
    rewrite Hw, (Hfin Hw) in Hall. cbn in Hall. rewrite app_nil_r in Hall.
    by apply Hall.
  - intros Hz Hwrite.
    assert (failed (worker s) = false) as Hok.
    { destruct (worker s) as [| | | | | | |e] eqn:Hw; try done.
      destruct (failure_from_writer _ _ _ _ Hs e Hw) as (t & Ht & He).
      rewrite (Hwrite t Ht) in He. done. }
    destruct (finishes s Hz Hok (get_finds_task _ _ _ _ Hs) Hfin) as (n & Hw & Hq & Hsv).
    { intros t Ht. apply Hwrite. by apply (pending_were_put _ _ _ _ Hs). }
    exists n. cbn zeta. split; [done|]. split; [done|].
    rewrite Hsv. by apply (all_accounted _ _ _ _ Hs).
Qed.

(** *** A failing writer *)

Lemma failed_stays schedule s e :
  worker s = Failed e →
  worker (exec schedule s) = Failed e ∧
  saved (exec schedule s) = saved s ∧
  queue (exec schedule s) = queue s ++ enqueued schedule.
Proof.
  revert s. induction schedule as [|a schedule IH]; intros s Hw.
  - cbn. by rewrite app_nil_r.
  - rewrite exec_cons, enqueued_cons.
    destruct (IH (act sessionID writer_save s a)) as (Hw' & Hs' & Hq').
    { destruct a; cbn; [done|done|].
      unfold save_image_buffers_step. by rewrite Hw. }
    rewrite Hw', Hs', Hq'. split; [done|].
    destruct a as [task| |]; cbn [act saved queue].
    + change (enqueued [Enqueue task]) with [task]. by rewrite <- app_assoc.
    + done.
    + unfold save_image_buffers_step. by rewrite Hw.
Qed.

(** C10.  The worker does not catch what the writer raises.  When
    [writer.save] raises for the task the worker has taken from the
    queue, the exception leaves [save_image_buffers] with the next
    step and nothing is saved for that task.  From then on, whatever
    the two threads do and whether or not the flag is cleared, the
    worker does nothing more: nothing further is saved, and the tasks
    then in the queue and those enqueued later stay in the queue. *)
Theorem writer_failure_ends_worker s task e schedule :
  worker s = AtSave task →
  write_of task = Raise e →
  let s1 := step s in
  worker s1 = Failed e ∧ saved s1 = saved s ∧ queue s1 = queue s ∧
  let s2 := exec schedule s1 in
  worker s2 = Failed e ∧ saved s2 = saved s ∧
  queue s2 = queue s ++ enqueued schedule.
Proof.
  intros Hw Hraise s1.
  assert (worker s1 = Failed e ∧ saved s1 = saved s ∧ queue s1 = queue s)
    as (Hw1 & Hs1 & Hq1).
  { subst s1. unfold save_image_buffers_step, write_of in *.
    by rewrite Hw, Hraise. }
  split; [done|]. split; [done|]. split; [done|].
  destruct (failed_stays schedule s1 e Hw1) as (Hw2 & Hs2 & Hq2).
  cbn zeta. by rewrite Hw2, Hs2, Hq2, Hs1, Hq1.
Qed.
End WorkerProperties.

(** Two frames, the second enqueued while the first is being saved, then
    shutdown: twelve more steps of the worker save both and end it. *)
Example drain_two_frames :
  let s := run "S" (λ _ _, Return tt)
               ([Enqueue (mkTask 1 0 "A"); Work; Work; Enqueue (mkTask 2 0 "B");
                 ClearFlag] ++ replicate 12 Work) pipeline0 in
  worker s = Finished ∧ queue s = [] ∧
  saved s = [(1, "images/S/Scene_000/cam_A.raw"); (2, "images/S/Scene_000/cam_B.raw")].
Proof. vm_compute. done. Qed.

(** ** The persisted layout *)

Lemma format_03_checked :
  forallb (λ n, String.eqb (format_03 n) (three_digits n)) (seq 0 1000) = true.
Proof. vm_compute. reflexivity. Qed.

Lemma format_03_three_digits batch :
  batch < 1000 → format_03 batch = three_digits batch.
Proof.
  intros Hb. apply String.eqb_eq.
  pose proof format_03_checked as Hall. rewrite forallb_forall in Hall.
  apply (Hall batch). apply in_seq. lia.
Qed.

(** C6.  Every file the worker saves goes to
    [images/<SessionID>/Scene_<batch>/cam_<serial>.raw], where batch and
    serial are those of the task whose buffer is saved, the batch is
    written with three decimal digits (for a batch below 1000; a larger
    one is written in full), and the session identifier is the one
    string computed before the loop.  For batch 7, serial "ABC123" and
    session "20240101T000000" the path is
    [images/20240101T000000/Scene_007/cam_ABC123.raw]. *)
Theorem saved_path_layout :
  save_path "20240101T000000" 7 "ABC123" =
    "images/20240101T000000/Scene_007/cam_ABC123.raw" ∧
  (∀ sessionID batch serial,
     batch < 1000 →
     save_path sessionID batch serial =
       "images/" +:+ sessionID +:+ "/Scene_" +:+ three_digits batch +:+
       "/cam_" +:+ serial +:+ ".raw") ∧
  (∀ sessionID writer_save schedule,
     Forall (λ x, ∃ t, t ∈ enqueued schedule ∧
                x = (ft_buffer t,
                     save_path sessionID (ft_batch t) (ft_serial t)))
            (saved (run sessionID writer_save schedule pipeline0))).
Proof.
  split; [reflexivity|]. split.
  - intros sessionID batch serial Hb. unfold save_path.
    by rewrite format_03_three_digits.
  - intros sessionID writer_save schedule.
    pose proof (consistent_run sessionID writer_save schedule pipeline0 []
                  (consistent_start sessionID writer_save)) as Hs.
    eapply Forall_impl; [exact (saved_were_put _ _ _ _ Hs)|]. cbn.
    intros x (t & Ht & _ & Hx). by exists t.
Qed.

Lemma wait_for_sync_single_master_witness :
  (wait_for_sync 5
     (λ k, if decide (k < 2)
           then [cam 0 "A" 10 []; cam 1 "B" 11 []]
           else [cam_master 0 "A" 10 []; cam 1 "B" 11 []])
     world0 =
   Some (Return tt,
         add_events
           [Print "Waiting for PTP Sync...";
            NodeRead 0 "PtpStatus"; NodeRead 1 "PtpStatus"; Print "."; Sleep 2;
            NodeRead 0 "PtpStatus"; NodeRead 1 "PtpStatus"; Print "."; Sleep 2;
            NodeRead 0 "PtpStatus"; NodeRead 1 "PtpStatus"; Print "."; Sleep 2;
            Print " | OK "] world0)) ∧
  wait_for_sync 5
    (λ _, [cam_master 0 "A" 10 []; cam_master 1 "B" 11 []]) world0 = None.
Proof.
  split.
  - assert (∀ k, readable (if decide (k < 2)
                           then [cam 0 "A" 10 []; cam 1 "B" 11 []]
                           else [cam_master 0 "A" 10 []; cam 1 "B" 11 []]))
      as Hread by (intros k; destruct (decide (k < 2)); repeat constructor).
    apply (proj1 (wait_for_sync_single_master _ world0 Hread) 2 5).
    + reflexivity.
    + intros [|[|j]] Hj; [discriminate|discriminate|lia].
    + lia.
  - assert (∀ k : nat, readable [cam_master 0 "A" 10 []; cam_master 1 "B" 11 []])
      as Hread by (intros k; repeat constructor).
    apply (proj2 (proj2 (wait_for_sync_single_master _ world0 Hread))).
    intros k. discriminate.
Defined.

Lemma worker_drains_queue_on_shutdown_witness :
  let schedule :=
    [Enqueue (mkTask 1 0 "A"); Work; Work; Enqueue (mkTask 2 0 "B");
     ClearFlag; Work] in
  let s := run "S" (λ _ _, Return tt) schedule pipeline0 in
  (worker s = Finished →
     queue s = [] ∧ saved s = map (persisted "S") (enqueued schedule)) ∧
  (to_do s = 0%Z →
   (∀ t, t ∈ enqueued schedule → write_of "S" (λ _ _, Return tt) t = Return tt) →
   ∃ n, let s' := run "S" (λ _ _, Return tt) (replicate n Work) s in
     worker s' = Finished ∧ queue s' = [] ∧
     saved s' = map (persisted "S") (enqueued schedule)).
Proof.
  apply (worker_drains_queue_on_shutdown "S" (λ _ _, Return tt)
           [Enqueue (mkTask 1 0 "A"); Work; Work; Enqueue (mkTask 2 0 "B");
            ClearFlag; Work]).
  reflexivity.
Defined.

Lemma writer_failure_ends_worker_witness :
  let writer := λ (_ : addr) (_ : string), Raise (A := unit) (Exception "disk full") in
  let s := mkPipeline [mkTask 2 0 "B"] 1 (AtSave (mkTask 1 0 "A")) [] 0 in
  let schedule := [Enqueue (mkTask 3 1 "A"); Work; ClearFlag; Work; Work] in
  let s1 := save_image_buffers_step "S" writer s in
  worker s1 = Failed (Exception "disk full") ∧
  saved s1 = saved s ∧ queue s1 = queue s ∧
  let s2 := run "S" writer schedule s1 in
  worker s2 = Failed (Exception "disk full") ∧ saved s2 = saved s ∧
  queue s2 = queue s ++ enqueued schedule.
Proof.
  apply (writer_failure_ends_worker "S"
           (λ _ _, Raise (Exception "disk full"))
           (mkPipeline [mkTask 2 0 "B"] 1 (AtSave (mkTask 1 0 "A")) [] 0)
           (mkTask 1 0 "A") (Exception "disk full")
           [Enqueue (mkTask 3 1 "A"); Work; ClearFlag; Work; Work]);
    reflexivity.
Defined.

(** * Further properties *)

(** ** The worker, whatever the main thread does *)

Section WorkerAlways.
Variable sessionID : string.
Variable writer_save : addr → string → outcome unit.

Local Abbreviation exec := (run sessionID writer_save).
Local Abbreviation persisted := (persisted sessionID).
Local Abbreviation write_of := (write_of sessionID writer_save).

(** X1.  In every interleaving of the two threads, with or without the
    shutdown discipline, as long as the writer has not raised: what the
    worker has saved, then the task it holds, then the queue, are
    exactly the tasks enqueued so far, in the order they were enqueued.
    No task is saved twice, skipped or overtaken. *)
Theorem worker_keeps_fifo_account schedule :
  let s := exec schedule pipeline0 in
  failed (worker s) = false →
  saved s ++ map persisted (in_hand (worker s) ++ queue s) =
  map persisted (enqueued schedule).
Proof.
  intros s.
  pose proof (consistent_run sessionID writer_save schedule pipeline0 []
                (consistent_start sessionID writer_save)) as Hs.
  exact (all_accounted _ _ _ _ Hs).
Qed.

Lemma exec_keeps_flag schedule s :
  Forall (λ a, a ≠ ClearFlag) schedule →
  to_do (exec schedule s) = to_do s.
Proof.
  intros Hno. revert s. induction Hno as [|a schedule Ha Hno IH]; intros s; [done|].
  rewrite exec_cons, IH. destruct a as [task| |]; [done|done|].
  apply step_to_do.
Qed.

(** X2.  While the flag has not been cleared the worker does not return
    from its loop, however long it runs and whether or not the queue is
    empty.  It leaves the loop in one way only, by an exception of the
    writer for a task that was enqueued; if the writer answers for every
    enqueued task the worker is still inside its loop. *)
Theorem worker_stays_while_flag_set schedule :
  Forall (λ a, a ≠ ClearFlag) schedule →
  let s := exec schedule pipeline0 in
  to_do s = 1%Z ∧
  worker s ≠ Finished ∧
  (∀ e, worker s = Failed e →
     ∃ t, t ∈ enqueued schedule ∧ write_of t = Raise e) ∧
  ((∀ t, t ∈ enqueued schedule → write_of t = Return tt) →
   in_loop (worker s) = true).
Proof.
  intros Hno s.
  pose proof (exec_keeps_flag schedule pipeline0 Hno) as Hflag.
  pose proof (consistent_run sessionID writer_save schedule pipeline0 []
                (consistent_start sessionID writer_save)) as Hs.
  cbn [app] in Hs. fold s in Hs, Hflag.
  assert (worker s ≠ Finished) as Hin.
  { intros Hfin. pose proof (flag_seen_cleared _ _ _ _ Hs (or_intror Hfin)) as Hz.
    rewrite Hflag in Hz. done. }
  split; [exact Hflag|]. split; [exact Hin|]. split.
  - intros e He. exact (failure_from_writer _ _ _ _ Hs e He).
  - intros Hwrite. destruct (worker s) as [| | | | | | |e] eqn:Hw; try done.
    destruct (failure_from_writer _ _ _ _ Hs e Hw) as (t & Ht & He).
    rewrite (Hwrite t Ht) in He. done.
Qed.
End WorkerAlways.

Lemma worker_keeps_fifo_account_witness :
  let schedule :=
    [Enqueue (mkTask 1 0 "A"); Work; Work; Enqueue (mkTask 2 0 "B"); Work] in
  let s := run "S" (λ _ _, Return tt) schedule pipeline0 in
  saved s ++ map (persisted "S") (in_hand (worker s) ++ queue s) =
  map (persisted "S") (enqueued schedule).
Proof.
  apply (worker_keeps_fifo_account "S" (λ _ _, Return tt)
           [Enqueue (mkTask 1 0 "A"); Work; Work; Enqueue (mkTask 2 0 "B"); Work]).
  reflexivity.
Defined.

Lemma worker_stays_while_flag_set_witness :
  let schedule :=
    [Enqueue (mkTask 1 0 "A"); Work; Work; Work; Work; Work; Work;
     Enqueue (mkTask 2 1 "B"); Work; Work; Work; Work; Work] in
  let s := run "S" (λ _ _, Return tt) schedule pipeline0 in
  to_do s = 1%Z ∧
  worker s ≠ Finished ∧
  (∀ e, worker s = Failed e →
     ∃ t, t ∈ enqueued schedule ∧
          write_of "S" (λ _ _, Return tt) t = Raise e) ∧
  ((∀ t, t ∈ enqueued schedule →
         write_of "S" (λ _ _, Return tt) t = Return tt) →
   in_loop (worker s) = true).
Proof.
  apply (worker_stays_while_flag_set "S" (λ _ _, Return tt)
           [Enqueue (mkTask 1 0 "A"); Work; Work; Work; Work; Work; Work;
            Enqueue (mkTask 2 1 "B"); Work; Work; Work; Work; Work]).
  repeat constructor; discriminate.
Defined.

(** ** More on a trigger cycle *)

(** X4.  When the device list is empty, or the latch of the first device
    or the read of the latched value raises, the cycle ends there: that
    exception leaves [fire_cameras], which has made the calls on the
    first device up to the failing one and nothing else: nothing is set
    or fired on the transport layer, no transfer is started, no device
    is asked for a buffer, and queue, memory, loans and the
    transport-layer node map are as before. *)
Theorem failed_trigger_fires_nothing devices batch w e :
  trigger_error devices = Some e →
  let w' := (fire_cameras devices batch w).2 in
  (fire_cameras devices batch w).1 = Raise e ∧
  buffer_queue w' = buffer_queue w ∧ memory w' = memory w ∧
  on_loan w' = on_loan w ∧ SYS_TL_MAP w' = SYS_TL_MAP w ∧
  trace w' = trace w ++ trigger_attempt devices ∧
  Forall (λ ev, sys_event ev = false ∧ started ev = None ∧ awaited ev = None)
         (trigger_attempt devices).
Proof.
  destruct devices as [|d rest].
  - cbn. intros [= <-]. rewrite app_nil_r. by repeat split.
  - unfold trigger_error, trigger_attempt.
    destruct (PtpDataSetLatch d) as [[]|e1] eqn:Hl;
      [destruct (PtpDataSetLatchValue d) as [t0|e2] eqn:Hv|]; [done|..];
      intros [= <-]; unfold fire_cameras, first_of;
      cbv [bind ret node_execute node_value emit answer];
      rewrite ?Hl, ?Hv; cbn; rewrite <- ?app_assoc;
      repeat split; try done; by repeat constructor.
Qed.

Lemma failed_trigger_fires_nothing_witness :
  let devices := [cam_latch_fault 0 "A" 10 [1%Z]; cam 1 "B" 11 [2%Z]] in
  let w' := (fire_cameras devices 4 world_streaming).2 in
  (fire_cameras devices 4 world_streaming).1 =
    Raise (Exception "latch not readable") ∧
  buffer_queue w' = buffer_queue world_streaming ∧
  memory w' = memory world_streaming ∧
  on_loan w' = on_loan world_streaming ∧
  SYS_TL_MAP w' = SYS_TL_MAP world_streaming ∧
  trace w' = trace world_streaming ++ trigger_attempt devices ∧
  Forall (λ ev, sys_event ev = false ∧ started ev = None ∧ awaited ev = None)
         (trigger_attempt devices).
Proof.
  apply (failed_trigger_fires_nothing
           [cam_latch_fault 0 "A" 10 [1%Z]; cam 1 "B" 11 [2%Z]] 4 world_streaming
           (Exception "latch not readable")).
  reflexivity.
Defined.

Lemma remove_loan_head x l : remove_loan x (x :: l) = remove_loan x l.
Proof.
  unfold remove_loan. rewrite filter_cons.
  by rewrite decide_False by (intros H; by apply H).
Qed.

(** What one retrieval does to the loans. *)
Lemma retrieve_loans batch d w :
  on_loan (retrieve batch d w).2 =
  match TransferStart d, get_buffer d with
  | Return _, Return (a, _) =>
      if completes d then remove_loan (handle d, a) (on_loan w)
      else (handle d, a) :: on_loan w
  | _, _ => on_loan w
  end.
Proof.
  unfold completes, delivers. step_retrieve d; cbn [andb returned];
    rewrite ?remove_loan_head; reflexivity.
Qed.

Lemma remove_loan_absent x l : x ∉ l → remove_loan x l = l.
Proof.
  intros Hx. unfold remove_loan. induction l as [|y l IH]; [done|].
  rewrite filter_cons. apply not_elem_of_cons in Hx as [Hne Hx].
  rewrite decide_True by done. by rewrite IH.
Qed.

Lemma for_each_retrieve_loans batch devices w :
  NoDup (map handle devices) →
  (∀ d a, d ∈ devices → (handle d, a) ∉ on_loan w) →
  on_loan (for_each devices (retrieve batch) w).2 =
  rev (omap leak devices) ++ on_loan w.
Proof.
  revert w. induction devices as [|d devices IH]; intros w Hnd Hfree; [done|].
  rewrite for_each_cons. cbn [map] in Hnd. apply NoDup_cons in Hnd as [Hd Hnd].
  assert (∀ x a, x ∈ devices → (handle x, a) ∉ on_loan (retrieve batch d w).2)
    as Hfree1.
  { intros x a Hx. rewrite retrieve_loans.
    assert ((handle x, a) ∉ on_loan w) as Hw by (apply Hfree; by right).
    assert (handle x ≠ handle d) as Hne.
    { intros Heq. apply Hd. rewrite <- Heq. apply list_elem_of_fmap. eauto. }
    destruct (TransferStart d) as [[]|?]; [|done].
    destruct (get_buffer d) as [[a' img]|?]; [|done].
    destruct (completes d).
    - rewrite remove_loan_absent; [done|]. apply Hfree. by left.
    - apply not_elem_of_cons. split; [congruence|done]. }
  rewrite (IH _ Hnd Hfree1), retrieve_loans.
  change (omap leak (d :: devices))
    with (match leak d with
          | Some x => x :: omap leak devices
          | None => omap leak devices
          end).
  remember (omap leak devices) as leaks eqn:Hleaks. unfold leak.
  destruct (TransferStart d) as [[]|?]; [|done].
  destruct (get_buffer d) as [[a' img]|?]; [|done].
  destruct (completes d).
  - rewrite remove_loan_absent; [done|]. apply Hfree. by left.
  - cbn [rev]. by rewrite <- app_assoc.
Qed.

(** X5.  After a cycle the buffers on loan are those that were on loan
    before and, for each device that handed over a buffer and then had a
    step of its block raise (the transfer stop, the serial read, the
    copy of the buffer or the requeue), that buffer; every other buffer
    the cycle took is back with its device.  (Handles are distinct and
    no buffer of these devices is on loan when the cycle starts.) *)
Theorem loans_after_cycle devices batch w :
  (fire_cameras devices batch w).1 = Return tt →
  NoDup (map handle devices) →
  (∀ d a, d ∈ devices → (handle d, a) ∉ on_loan w) →
  on_loan (fire_cameras devices batch w).2 =
  rev (omap leak devices) ++ on_loan w.
Proof.
  intros (d0 & rest & t0 & -> & Hl & Hv)%fire_cameras_returns_iff Hnd Hfree.
  rewrite (fire_cameras_triggered _ _ _ _ _ Hl Hv).
  unfold print, emit. cbn [snd on_loan].
  by rewrite (for_each_retrieve_loans batch (d0 :: rest) (triggered d0 t0 w)).
Qed.

Lemma loans_after_cycle_witness :
  let devices := [cam 0 "A" 10 [1%Z]; cam_stop_fault 1 "B" 11 [2%Z];
                  cam_timeout 2 "C"; cam_requeue_fault 3 "D" 13 [4%Z];
                  cam_copy_fault 4 "E" 14 [5%Z]] in
  on_loan (fire_cameras devices 0 world0).2 =
  rev (omap leak devices) ++ on_loan world0.
Proof.
  apply (loans_after_cycle
           [cam 0 "A" 10 [1%Z]; cam_stop_fault 1 "B" 11 [2%Z];
            cam_timeout 2 "C"; cam_requeue_fault 3 "D" 13 [4%Z];
            cam_copy_fault 4 "E" 14 [5%Z]] 0 world0).
  - reflexivity.
  - cbn. compute_done.
  - intros d a Hd. cbn. apply not_elem_of_nil.
Defined.

Example loans_example :
  on_loan (fire_cameras [cam 0 "A" 10 [1%Z]; cam_stop_fault 1 "B" 11 [2%Z];
                         cam_timeout 2 "C"; cam_requeue_fault 3 "D" 13 [4%Z];
                         cam_copy_fault 4 "E" 14 [5%Z]]
                        0 world0).2 = [(4, 14); (3, 13); (1, 11)].
Proof. reflexivity. Qed.

(** ** The producer does not look at the queue *)

Lemma retrieve_with_queue batch d w q :
  retrieve batch d (with_queue q w) =
  (Return tt,
   with_queue (q ++ option_list (frame_of batch d w)) (retrieve batch d w).2).
Proof.
  unfold frame_of, with_queue. step_retrieve d; cbn; rewrite ?app_nil_r; reflexivity.
Qed.

Lemma enqueued_between_app w w' tasks :
  buffer_queue w' = buffer_queue w ++ tasks → enqueued_between w w' = tasks.
Proof. intros Hq. unfold enqueued_between. by rewrite Hq, drop_app_length. Qed.

Lemma for_each_with_queue batch devices w q :
  for_each devices (retrieve batch) (with_queue q w) =
  (Return tt,
   with_queue (q ++ enqueued_between w (for_each devices (retrieve batch) w).2)
              (for_each devices (retrieve batch) w).2).
Proof.
  revert w q. induction devices as [|d devices IH]; intros w q.
  - cbn. unfold enqueued_between. by rewrite drop_all, app_nil_r.
  - rewrite !for_each_cons, retrieve_with_queue. cbn [snd]. rewrite IH.
    destruct (for_each_retrieve_frames batch devices (retrieve batch d w).2)
      as (tasks & evs & Hq & _ & _).
    rewrite (enqueued_between_app _ _ _ Hq).
    rewrite retrieve_queue, <- app_assoc in Hq.
    by rewrite (enqueued_between_app _ _ _ Hq), app_assoc.
Qed.

(** X6.  [fire_cameras] only ever appends to the queue: it does the same,
    raises the same and enqueues the same tasks whatever the queue holds
    when it runs, so what the worker has or has not yet taken from the
    queue makes no difference to a cycle. *)
Theorem fire_cameras_ignores_queue devices batch w q :
  fire_cameras devices batch (with_queue q w) =
  ((fire_cameras devices batch w).1,
   with_queue (q ++ enqueued_between w (fire_cameras devices batch w).2)
              (fire_cameras devices batch w).2).
Proof.
  destruct (decide ((fire_cameras devices batch w).1 = Return tt)) as [Hret|Hraise].
  - pose proof Hret as (d & rest & t0 & -> & Hl & Hv)%fire_cameras_returns_iff.
    rewrite !(fire_cameras_triggered _ _ _ _ _ Hl Hv).
    change (triggered d t0 (with_queue q w)) with (with_queue q (triggered d t0 w)).
    rewrite for_each_with_queue. unfold print, emit, with_queue, enqueued_between.
    cbn. reflexivity.
  - destruct devices as [|d rest].
    { cbn. unfold with_queue, enqueued_between. cbn. by rewrite drop_all, app_nil_r. }
    revert Hraise. unfold fire_cameras, first_of.
    cbv [bind ret node_execute node_value emit answer].
    destruct (PtpDataSetLatch d) as [[]|e1] eqn:Hl.
    + destruct (PtpDataSetLatchValue d) as [t0|e2] eqn:Hv.
      * intros Hraise. exfalso. apply Hraise.
        pose proof (fire_cameras_triggered d rest batch w t0 Hl Hv) as Heq.
        unfold fire_cameras, first_of in Heq.
        cbv [bind ret node_execute node_value emit answer] in Heq.
        rewrite Hl, Hv in Heq. by rewrite Heq.
      * intros _. unfold with_queue, enqueued_between. cbn.
        by rewrite drop_all, app_nil_r.
    + intros _. unfold with_queue, enqueued_between. cbn.
      by rewrite drop_all, app_nil_r.
Qed.

(** ** Queued frames across a session *)

Lemma owned_same D w w1 :
  memory w1 = memory w → buffer_queue w1 = buffer_queue w →
  owned D w → owned D w1.
Proof. unfold owned. by intros -> ->. Qed.

Lemma retrieve_owned batch d w D :
  owned D w →
  (∀ a img, get_buffer d = Return (a, img) → a ∈ D) →
  owned D (retrieve batch d w).2.
Proof.
  intros (HD & Hnd & Hq) Hdev.
  destruct (retrieve_memory batch d w D HD Hdev) as (Hdom & Hkeep).
  assert (∀ t, t ∈ buffer_queue w →
            (ft_buffer t ∉ D) ∧
            is_Some (memory (retrieve batch d w).2 !! (ft_buffer t))) as Hold.
  { intros t Ht. destruct (Hq t Ht) as (HtD & img & Hm). split; [done|]. eauto. }
  split; [by etrans|].
  destruct (delivers d) eqn:Hd.
  - destruct (delivers_inv d Hd) as (a & img & s & Hg & Hs).
    destruct (retrieve_delivering batch d w a img s Hd Hg Hs) as (Hq1 & Hm1 & _).
    set (c := fresh (dom (<[a:=img]> (memory w)))) in *.
    assert (c ∉ dom (<[a:=img]> (memory w))) as Hfresh by apply is_fresh.
    assert (c ∉ D) as HcD.
    { intros Hc. apply Hfresh. rewrite dom_insert. apply elem_of_union. right.
      by apply HD. }
    rewrite Hq1. split.
    + rewrite map_app. apply NoDup_app. split; [done|]. split; [|apply NoDup_singleton].
      intros x Hx [->|[]%not_elem_of_nil]%elem_of_cons.
      apply list_elem_of_fmap in Hx as (t & Hc & Ht). cbn in Hc.
      destruct (Hq t Ht) as (_ & img' & Hm). apply Hfresh.
      rewrite dom_insert. apply elem_of_union. right. rewrite Hc.
      apply elem_of_dom. eauto.
    + intros t [Ht|[->|[]%not_elem_of_nil]%elem_of_cons]%elem_of_app.
      * by apply Hold.
      * cbn. split; [done|]. rewrite Hm1, lookup_insert_eq. eauto.
  - rewrite (retrieve_not_delivering batch d w Hd). split; [done|]. exact Hold.
Qed.

Lemma for_each_retrieve_owned batch devices w D :
  owned D w →
  (∀ d a img, d ∈ devices → get_buffer d = Return (a, img) → a ∈ D) →
  owned D (for_each devices (retrieve batch) w).2.
Proof.
  revert w. induction devices as [|d devices IH]; intros w Hw Hdev; [done|].
  rewrite for_each_cons. apply IH.
  - apply retrieve_owned; [done|]. intros a img. apply Hdev. by left.
  - intros x a img Hx. apply Hdev. by right.
Qed.

Lemma Forall2_both {A B} (P Q : A → B → Prop) l k :
  Forall2 P l k → Forall2 Q l k → Forall2 (λ x y, P x y ∧ Q x y) l k.
Proof.
  intros HP. revert Q. induction HP; intros Q HQ; inversion HQ; subst;
    constructor; auto.
Qed.

(** What a cycle that goes through does to the queue and to memory. *)
Lemma fire_cameras_holds devices batch w D :
  (fire_cameras devices batch w).1 = Return tt →
  owned D w →
  (∀ d a img, d ∈ devices → get_buffer d = Return (a, img) → a ∈ D) →
  let w' := (fire_cameras devices batch w).2 in
  owned D w' ∧
  (∀ c img, c ∉ D → memory w !! c = Some img → memory w' !! c = Some img) ∧
  ∃ tasks, buffer_queue w' = buffer_queue w ++ tasks ∧
    Forall2 (holds_frame D (memory w') batch) tasks (filter delivers devices).
Proof.
  intros (d0 & rest & t0 & -> & Hl & Hv)%fire_cameras_returns_iff Hw Hdev.
  cbn zeta. rewrite (fire_cameras_triggered _ _ _ _ _ Hl Hv).
  set (devices := d0 :: rest) in *.
  assert (owned D (triggered d0 t0 w)) as Hw0 by (by apply (owned_same D w)).
  pose proof (for_each_retrieve_owned batch devices _ D Hw0 Hdev) as Hown.
  destruct (for_each_retrieve_copies batch devices D (triggered d0 t0 w))
    as (_ & Hkeep & tasks & evs & Hq & _ & Hpriv); [apply Hw0|exact Hdev|].
  destruct (for_each_retrieve_frames batch devices (triggered d0 t0 w))
    as (tasks' & evs' & Hq' & _ & Hfrom).
  assert (tasks' = tasks) as ->.
  { rewrite Hq in Hq'. by apply app_inv_head in Hq'. }
  unfold print, emit. cbn [snd].
  split; [by eapply owned_same; [..|exact Hown]|].
  split; [exact Hkeep|]. exists tasks. split; [exact Hq|]. cbn [memory].
  eapply Forall2_impl; [exact (Forall2_both _ _ _ _ Hfrom Hpriv)|].
  intros t d ((Hb & Hs & _) & a & img & Hg & _ & HtD & Hm).
  repeat split; [done..|]. by exists a, img.
Qed.

Lemma holds_frame_later D mem mem' batch t d :
  (∀ c img, c ∉ D → mem !! c = Some img → mem' !! c = Some img) →
  holds_frame D mem batch t d → holds_frame D mem' batch t d.
Proof.
  intros Hkeep (Hb & Hs & HtD & a & img & Hg & Hm).
  repeat split; [done..|]. exists a, img. eauto.
Qed.

Lemma interactive_loop_holds inputs devices b D w :
  owned D w →
  (∀ i d a img, d ∈ devices i → get_buffer d = Return (a, img) → a ∈ D) →
  let run := interactive_loop inputs devices b w in
  owned D run.2 ∧
  (∀ c img, c ∉ D → memory w !! c = Some img → memory run.2 !! c = Some img) ∧
  ∃ cycles : list (list FrameTask),
    buffer_queue run.2 = buffer_queue w ++ concat cycles ∧
    (∀ n, run.1 = Return n → n = (b + length cycles)%nat) ∧
    ∀ i tasks, cycles !! i = Some tasks →
      Forall2 (holds_frame D (memory run.2) (b + i)) tasks
              (filter delivers (devices (b + i))).
Proof.
  intros Hw Hdev. revert b w Hw.
  induction inputs as [|line inputs IH]; intros b w Hw.
  - rewrite interactive_loop_nil. cbn.
    split; [by eapply owned_same; [..|exact Hw]|]. split; [done|].
    exists []. rewrite app_nil_r. repeat split; [done|]. by intros i ts.
  - destruct (decide (line = "q")) as [->|Hline]; [|].
    2: { rewrite (interactive_loop_line _ _ _ _ _ Hline).
      set (w0 := add_events [Print prompt] w).
      assert (owned D w0) as Hw0 by (by apply (owned_same D w)).
      destruct (fire_cameras (devices b) b w0) as [[[]|e] w1] eqn:Hfire.
      * destruct (fire_cameras_holds (devices b) b w0 D)
          as (Hw1 & Hkeep1 & tasks & Hq1 & Hf1);
          [by rewrite Hfire|done|by apply Hdev|].
        rewrite Hfire in Hw1, Hkeep1, Hq1, Hf1. cbn [snd] in *.
        destruct (IH (S b) w1 Hw1) as (Hw' & Hkeep & cycles & Hq & Hn & Hc).
        cbn zeta. split; [exact Hw'|]. split.
        { intros c img HcD Hm. apply Hkeep; [done|]. apply Hkeep1; [done|]. exact Hm. }
        exists (tasks :: cycles). rewrite Hq, Hq1. cbn [concat length].
        rewrite <- app_assoc. split; [reflexivity|]. split.
        { intros n Hret. rewrite (Hn n Hret). lia. }
        intros [|i] ts Hi; cbn in Hi.
        -- injection Hi as <-. rewrite Nat.add_0_r.
           eapply Forall2_impl; [exact Hf1|]. intros t d.
           by apply holds_frame_later.
        -- rewrite Nat.add_succ_r. by apply Hc.
      * destruct (fire_cameras_raise_keeps (devices b) b w0 e) as (Hq1 & Hm1 & _);
          [by rewrite Hfire|].
        rewrite Hfire in Hq1, Hm1. cbn [snd fst] in *.
        split; [by apply (owned_same D w0)|]. split; [by rewrite Hm1|].
        exists []. rewrite Hq1, app_nil_r. repeat split; [done|]. by intros i ts. }
    rewrite interactive_loop_quit. cbn.
    split; [by eapply owned_same; [..|exact Hw]|]. split; [done|].
    exists []. rewrite app_nil_r. repeat split.
    + intros n [= <-]. cbn. lia.
    + by intros i ts.
Qed.

(** X7.  Let the stream buffers of the devices exist when a capture
    session starts with an empty queue.  When the session ends, however
    it ends, no two queued tasks share a buffer, and the queue falls
    into consecutive groups; group [i] consists of exactly the frames of
    the devices that delivered in cycle [i], one task per device and in
    their order, each with batch [i], its device's serial number and, in
    a buffer of its own that is no device buffer, the image its device
    delivered: no later cycle has overwritten it.  When the session
    ends by "q" after [n] cycles there are [n] groups, one for each
    cycle. *)
Theorem session_queue_holds_delivered_frames inputs devices w :
  buffer_queue w = [] →
  (∀ i d a img, d ∈ devices i → get_buffer d = Return (a, img) →
     a ∈ dom (memory w)) →
  let run := capture_session inputs devices w in
  NoDup (map ft_buffer (buffer_queue run.2)) ∧
  ∃ cycles : list (list FrameTask),
    buffer_queue run.2 = concat cycles ∧
    (∀ n, run.1 = Return n → length cycles = n) ∧
    ∀ i tasks, cycles !! i = Some tasks →
      Forall2 (holds_frame (dom (memory w)) (memory run.2) i) tasks
              (filter delivers (devices i)).
Proof.
  intros Hempty Hdev.
  assert (owned (dom (memory w)) w) as Hw.
  { split; [done|]. rewrite Hempty. split; [constructor|].
    by intros t []%not_elem_of_nil. }
  destruct (interactive_loop_holds inputs devices 0 _ w Hw Hdev)
    as ((_ & Hnd & _) & _ & cycles & Hq & Hn & Hc).
  split; [exact Hnd|]. exists cycles. rewrite Hempty in Hq.
  split; [exact Hq|]. split; [|exact Hc].
  intros n Hret. by rewrite (Hn n Hret).
Qed.

Lemma session_queue_holds_delivered_frames_witness :
  let devices := λ _ : nat, [cam 0 "A" 10 [1%Z]; cam_timeout 1 "B"; cam 2 "C" 12 [3%Z]] in
  let w := world_streaming in
  let run := capture_session [""; ""; "q"] devices w in
  NoDup (map ft_buffer (buffer_queue run.2)) ∧
  ∃ cycles : list (list FrameTask),
    buffer_queue run.2 = concat cycles ∧
    (∀ n, run.1 = Return n → length cycles = n) ∧
    ∀ i tasks, cycles !! i = Some tasks →
      Forall2 (holds_frame (dom (memory w)) (memory run.2) i) tasks
              (filter delivers (devices i)).
Proof.
  apply (session_queue_holds_delivered_frames [""; ""; "q"]
           (λ _ : nat, [cam 0 "A" 10 [1%Z]; cam_timeout 1 "B"; cam 2 "C" 12 [3%Z]])
           world_streaming).
  - reflexivity.
  - intros i d a img Hd Hg. apply list_elem_of_In in Hd. cbn in Hd.
    destruct Hd as [<-|[<-|[<-|[]]]]; cbn in Hg; try done;
      injection Hg as <- <-; apply elem_of_dom; eexists; reflexivity.
Defined.

(** ** A read error while waiting for the master *)

Lemma comprehension_error before d after w e :
  readable before →
  PtpStatus d = Raise e →
  comprehension (before ++ d :: after)
                (λ d, node_value d "PtpStatus" (PtpStatus d)) w =
  (Raise e,
   add_events (map (λ d, NodeRead (handle d) "PtpStatus") (before ++ [d])) w).
Proof.
  intros Hread Herr. revert w.
  induction Hread as [|d0 before Hd0 Hread IH]; intros w.
  - cbn [app comprehension map]. unfold bind at 1.
    change (node_value d "PtpStatus" (PtpStatus d) w)
      with (PtpStatus d, add_events [NodeRead (handle d) "PtpStatus"] w).
    by rewrite Herr.
  - cbn [app comprehension map].
    destruct (PtpStatus d0) as [st|e0] eqn:Hst; [|done].
    rewrite (bind_return _ _ w st (add_events [NodeRead (handle d0) "PtpStatus"] w))
      by reflexivity.
    unfold bind. rewrite IH, add_events_app. reflexivity.
Qed.

Lemma wait_for_sync_loop_error devices before d after e k fuel pass m w :
  m ≠ 1 →
  (∀ j, j < k → readable (devices (pass + j)) ∧ masters (devices (pass + j)) ≠ 1) →
  devices (pass + k) = before ++ d :: after →
  readable before →
  PtpStatus d = Raise e →
  k < fuel →
  wait_for_sync_loop fuel devices pass m w =
  Some (Raise e,
        add_events
          (flat_map (λ j, poll_events (devices j)) (seq pass k) ++
           map (λ d, NodeRead (handle d) "PtpStatus") (before ++ [d])) w).
Proof.
  revert fuel pass m w.
  induction k as [|k IH]; intros fuel pass m w Hm Hbefore Hk Hread Herr Hfuel.
  - destruct fuel as [|fuel]; [lia|]. rewrite Nat.add_0_r in Hk.
    cbn [wait_for_sync_loop]. rewrite decide_True by done.
    unfold poll, bind at 1. rewrite Hk.
    by rewrite (comprehension_error before d after w e Hread Herr).
  - destruct fuel as [|fuel]; [lia|].
    destruct (Hbefore 0) as (Hread0 & Hnot); [lia|].
    rewrite Nat.add_0_r in Hread0, Hnot.
    cbn [wait_for_sync_loop]. rewrite decide_True by done.
    rewrite (poll_readable _ _ Hread0).
    rewrite (IH fuel (S pass) (masters (devices pass))
               (add_events (poll_events (devices pass)) w)); [|done| | |done|done|lia].
    + rewrite add_events_app. cbn [seq flat_map]. by rewrite <- app_assoc.
    + intros j Hj. rewrite Nat.add_succ_comm. apply Hbefore. lia.
    + by rewrite Nat.add_succ_comm.
Qed.

(** X8.  Let the read of the clock role of a device raise during pass
    [k], the devices before it in the list having answered in that pass,
    and let every earlier pass have read all devices and counted a
    number of masters other than one.  Then the exception leaves
    [wait_for_sync] (when at least [k + 1] passes are followed), and
    what it has done is exactly this: the opening line, the full passes
    before [k], and in pass [k] one read of each device up to and
    including the failing one.  The failed read is not retried, the
    devices after it are not read, no dot is printed and nothing slept
    in that pass, and " | OK " is not printed. *)
Theorem wait_for_sync_read_error devices before d after w k e fuel :
  (∀ j, j < k → readable (devices j) ∧ masters (devices j) ≠ 1) →
  devices k = before ++ d :: after →
  readable before →
  PtpStatus d = Raise e →
  k < fuel →
  wait_for_sync fuel devices w =
  Some (Raise e,
        add_events
          ([Print "Waiting for PTP Sync..."] ++
           flat_map (λ j, poll_events (devices j)) (seq 0 k) ++
           map (λ d, NodeRead (handle d) "PtpStatus") (before ++ [d])) w).
Proof.
  intros Hbefore Hk Hread Herr Hfuel.
  change (wait_for_sync fuel devices w)
    with (match wait_for_sync_loop fuel devices 0 0
                  (add_events [Print "Waiting for PTP Sync..."] w) with
          | Some (Return _, w1) => Some (print " | OK " w1)
          | r => r
          end).
  rewrite (wait_for_sync_loop_error devices before d after e k fuel 0 0);
    [|lia|done|done|done|done|done].
  by rewrite add_events_app.
Qed.

Lemma wait_for_sync_read_error_witness :
  let devices := λ k : nat,
    if decide (k < 1)
    then [cam 0 "A" 10 []; cam 1 "B" 11 []]
    else [cam_master 0 "A" 10 []; cam_role_fault 1 "B"; cam 2 "C" 12 []] in
  wait_for_sync 5 devices world0 =
  Some (Raise (Exception "read failed"),
        add_events
          ([Print "Waiting for PTP Sync..."] ++
           flat_map (λ j, poll_events (devices j)) (seq 0 1) ++
           map (λ d, NodeRead (handle d) "PtpStatus")
               ([cam_master 0 "A" 10 []] ++ [cam_role_fault 1 "B"])) world0).
Proof.
  apply (wait_for_sync_read_error
           (λ k, if decide (k < 1)
                 then [cam 0 "A" 10 []; cam 1 "B" 11 []]
                 else [cam_master 0 "A" 10 []; cam_role_fault 1 "B"; cam 2 "C" 12 []])
           [cam_master 0 "A" 10 []] (cam_role_fault 1 "B") [cam 2 "C" 12 []]
           world0 1 (Exception "read failed") 5).
  - intros [|j] Hj; [|lia]. split; [repeat constructor|discriminate].
  - reflexivity.
  - repeat constructor.
  - reflexivity.
  - lia.
Defined.

(** ** Folder and file names *)

Lemma append_nil s : "" +:+ s = s.
Proof. reflexivity. Qed.

Lemma append_cons c s1 s2 : String c s1 +:+ s2 = String c (s1 +:+ s2).
Proof. reflexivity. Qed.

Lemma append_length s1 s2 :
  String.length (s1 +:+ s2) = String.length s1 + String.length s2.
Proof.
  induction s1 as [|c s1 IH]; [done|].
  rewrite append_cons. cbn [String.length]. by rewrite IH.
Qed.

Lemma append_inj_r s1 s2 t : s1 +:+ t = s2 +:+ t → s1 = s2.
Proof.
  revert s2. induction s1 as [|c s1 IH]; intros [|c2 s2] Heq;
    rewrite ?append_nil, ?append_cons in Heq.
  - done.
  - apply (f_equal String.length) in Heq. cbn [String.length] in Heq.
    rewrite append_length in Heq. lia.
  - apply (f_equal String.length) in Heq. cbn [String.length] in Heq.
    rewrite append_length in Heq. lia.
  - injection Heq as -> Heq. by rewrite (IH s2 Heq).
Qed.

Lemma pretty_N_char_digit x :
  Ascii.leb (digit 0) (pretty_N_char x) && Ascii.leb (pretty_N_char x) (digit 9) = true ∧
  (x < 10 → digit_value (pretty_N_char x) = x)%N.
Proof.
  split.
  - unfold pretty_N_char. by repeat case_match.
  - intros Hx.
    assert (x = 0 ∨ x = 1 ∨ x = 2 ∨ x = 3 ∨ x = 4 ∨ x = 5 ∨ x = 6 ∨ x = 7 ∨
            x = 8 ∨ x = 9)%N as Hcases by lia.
    repeat (destruct Hcases as [->|Hcases]; [reflexivity|]). by subst.
Qed.

Lemma pretty_N_go_digits x s :
  digits_only s = true → digits_only (pretty_N_go x s) = true.
Proof.
  revert s. induction (N.lt_wf_0 x) as [x _ IH]; intros s Hs.
  assert (x = 0 ∨ 0 < x)%N as [->|Hx] by lia; [by rewrite pretty_N_go_0|].
  rewrite pretty_N_go_step by done. apply IH; [by apply N.div_lt|].
  cbn [digits_only]. by rewrite (proj1 (pretty_N_char_digit _)), Hs.
Qed.

Lemma pretty_N_go_length x s :
  (String.length s ≤ String.length (pretty_N_go x s))%nat.
Proof.
  revert s. induction (N.lt_wf_0 x) as [x _ IH]; intros s.
  assert (x = 0 ∨ 0 < x)%N as [->|Hx] by lia; [by rewrite pretty_N_go_0|].
  rewrite pretty_N_go_step by done.
  etrans; [|apply IH; by apply N.div_lt]. cbn. lia.
Qed.

Lemma pretty_N_go_decode x s :
  decode_go 0 (pretty_N_go x s) = decode_go x s.
Proof.
  revert s. induction (N.lt_wf_0 x) as [x _ IH]; intros s.
  assert (x = 0 ∨ 0 < x)%N as [->|Hx] by lia; [by rewrite pretty_N_go_0|].
  rewrite pretty_N_go_step by done. rewrite IH by (by apply N.div_lt).
  cbn [decode_go]. rewrite (proj2 (pretty_N_char_digit _)) by (by apply N.mod_lt).
  f_equal. pose proof (N.div_mod x 10). lia.
Qed.

Lemma zeros_cons k :
  String.concat "" (replicate (S k) "0") =
  String (digit 0) (String.concat "" (replicate k "0")).
Proof. destruct k; reflexivity. Qed.

Lemma zeros_decode k s acc :
  decode_go acc (String.concat "" (replicate k "0") +:+ s) =
  decode_go (10 ^ N.of_nat k * acc) s.
Proof.
  revert acc. induction k as [|k IH]; intros acc.
  - cbn [replicate String.concat]. rewrite append_nil. f_equal. lia.
  - rewrite zeros_cons, append_cons. cbn [decode_go]. rewrite IH.
    f_equal. change (digit_value (digit 0)) with 0%N.
    rewrite Nat2N.inj_succ, N.pow_succ_r'. lia.
Qed.

Lemma zeros_digits k :
  digits_only (String.concat "" (replicate k "0")) = true ∧
  String.length (String.concat "" (replicate k "0")) = k.
Proof.
  induction k as [|k IH]; [done|]. rewrite zeros_cons.
  cbn [digits_only String.length]. destruct IH as [-> ->]. done.
Qed.

Lemma digits_only_app s1 s2 :
  digits_only s1 = true → digits_only s2 = true → digits_only (s1 +:+ s2) = true.
Proof.
  intros H1 H2. induction s1 as [|c s1 IH]; [done|].
  rewrite append_cons. cbn [digits_only] in *.
  apply andb_true_iff in H1 as [-> H1]. by rewrite IH.
Qed.

Lemma pretty_nat_unfold n :
  pretty n = if decide (N.of_nat n = 0%N) then "0" else pretty_N_go (N.of_nat n) "".
Proof. reflexivity. Qed.

Lemma format_03_digits n : digits_only (format_03 n) = true.
Proof.
  unfold format_03. apply digits_only_app; [apply zeros_digits|].
  rewrite pretty_nat_unfold. case_decide; [done|]. by apply pretty_N_go_digits.
Qed.

Lemma format_03_decode n : decode (format_03 n) = n.
Proof.
  unfold decode, format_03. rewrite zeros_decode, N.mul_0_r.
  rewrite pretty_nat_unfold. case_decide as Hn.
  - change (decode_go 0 "0") with 0%N. lia.
  - rewrite pretty_N_go_decode. cbn [decode_go]. lia.
Qed.

Lemma pretty_length_1000 n : (1000 ≤ n)%nat → (4 ≤ String.length (pretty n))%nat.
Proof.
  intros Hn. rewrite pretty_nat_unfold. rewrite decide_False by lia.
  set (x := N.of_nat n). assert (1000 ≤ x)%N as Hx by lia.
  assert ((0 < N.div x 10)%N ∧ (0 < N.div (N.div x 10) 10)%N ∧
          (0 < N.div (N.div (N.div x 10) 10) 10)%N) as (H1 & H2 & H3).
  { rewrite !N.Div0.div_div. repeat split; apply N.div_str_pos; lia. }
  rewrite pretty_N_go_step by lia.
  rewrite pretty_N_go_step by done.
  rewrite pretty_N_go_step by done.
  rewrite pretty_N_go_step by done.
  etrans; [|apply pretty_N_go_length]. cbn. lia.
Qed.

(** X9.  The folder number written by [f"{batch:03}"] consists of decimal
    digits, at least three of them; read back as a number it is the
    batch, so different batches never share a folder.  From batch 1000 on
    it is the plain decimal numeral, longer than three digits and not cut
    down. *)
Theorem format_03_reads_back batch :
  digits_only (format_03 batch) = true ∧
  (3 ≤ String.length (format_03 batch))%nat ∧
  decode (format_03 batch) = batch ∧
  (∀ other, format_03 other = format_03 batch → other = batch) ∧
  ((1000 ≤ batch)%nat → format_03 batch = pretty batch).
Proof.
  split; [apply format_03_digits|]. split; [|split; [apply format_03_decode|split]].
  - unfold format_03. rewrite append_length, (proj2 (zeros_digits _)). lia.
  - intros other Heq. by rewrite <- (format_03_decode other), Heq, format_03_decode.
  - intros Hb. unfold format_03. pose proof (pretty_length_1000 batch Hb).
    replace (3 - String.length (pretty batch)) with 0 by lia. done.
Qed.

Lemma split_at_slash s1 s2 t1 t2 :
  digits_only s1 = true → digits_only s2 = true →
  s1 +:+ String (Ascii.ascii_of_nat 47) t1 = s2 +:+ String (Ascii.ascii_of_nat 47) t2 →
  s1 = s2 ∧ t1 = t2.
Proof.
  revert s2. induction s1 as [|c s1 IH]; intros [|c2 s2] H1 H2 Heq;
    rewrite ?append_nil, ?append_cons in Heq; cbn [digits_only] in *.
  - by injection Heq as ->.
  - injection Heq as <- _. done.
  - injection Heq as -> _. done.
  - injection Heq as -> Heq.
    apply andb_true_iff in H1 as [_ H1]. apply andb_true_iff in H2 as [_ H2].
    destruct (IH s2 H1 H2 Heq) as [-> ->]. done.
Qed.

(** X10.  Within one session two frames are written to the same file only if
    they have the same batch and the same serial number; and for one
    batch and serial, different sessions write to different files. *)
Theorem save_path_separates sessionID batch serial :
  (∀ batch' serial',
     save_path sessionID batch' serial' = save_path sessionID batch serial →
     batch' = batch ∧ serial' = serial) ∧
  (∀ sessionID',
     save_path sessionID' batch serial = save_path sessionID batch serial →
     sessionID' = sessionID).
Proof.
  unfold save_path. split.
  - intros batch' serial' Heq.
    apply (inj (String.append "images/")) in Heq.
    apply (inj (String.append sessionID)) in Heq.
    apply (inj (String.append "/Scene_")) in Heq.
    apply split_at_slash in Heq as [Hb Hs]; [|apply format_03_digits..].
    apply (inj (String.append "cam_")) in Hs.
    apply append_inj_r in Hs.
    split; [|done]. by rewrite <- (format_03_decode batch'), Hb, format_03_decode.
  - intros sessionID' Heq.
    apply (inj (String.append "images/")) in Heq.
    by apply append_inj_r in Heq.
Qed.

(** ** Starting the streams *)

Lemma rig_events_nil r : rig_events [] r = r.
Proof. destruct r. unfold rig_events, set_world. cbn. by rewrite add_events_nil. Qed.

Lemma rig_events_app evs evs' r :
  rig_events evs' (rig_events evs r) = rig_events (evs ++ evs') r.
Proof. unfold rig_events, set_world. cbn. by rewrite add_events_app. Qed.

Lemma lift_print s r : lift (print s) r = (Return tt, rig_events [Print s] r).
Proof. reflexivity. Qed.

Lemma start_streams_loop cameras r :
  rfor_each cameras
    (λ c, rtry_except (rbind (lift (print ".")) (λ _, device_start_stream c))
                      (λ _, lift (print "*"))) r =
  (Return tt,
   with_streaming
     (map camera_handle (filter (λ c, returned (start_stream c)) cameras))
     (rig_events (flat_map stream_marks cameras) r)).
Proof.
  revert r. induction cameras as [|c cameras IH]; intros r.
  - cbn. rewrite rig_events_nil. destruct r. unfold with_streaming. cbn.
    by rewrite app_nil_r.
  - cbn [rfor_each flat_map]. unfold rbind at 1.
    unfold rtry_except, rbind at 1, device_start_stream, stream_marks at 1.
    rewrite lift_print, filter_cons.
    destruct (start_stream c) as [[]|e] eqn:Hs; cbn [returned].
    + rewrite IH. f_equal. unfold with_streaming, rig_events, set_world, add_events.
      cbn. rewrite <- ?app_assoc. reflexivity.
    + rewrite lift_print, IH. f_equal.
      rewrite !rig_events_app. reflexivity.
Qed.

Lemma start_streams_run cameras r :
  start_streams cameras r =
  (Return tt,
   with_streaming
     (map camera_handle (filter (λ c, returned (start_stream c)) cameras))
     (rig_events ([Print "Starting Streams..."] ++
                  flat_map stream_marks cameras ++ [Print " | OK "]) r)).
Proof.
  unfold start_streams. unfold rbind at 1. rewrite lift_print.
  unfold rbind at 1. rewrite start_streams_loop. rewrite lift_print. f_equal.
  unfold with_streaming, rig_events, set_world, add_events. cbn.
  rewrite <- ?app_assoc. reflexivity.
Qed.

(** X11.  [start_streams] never raises.  It starts the stream of every camera
    of the list, in order, whether or not the cameras before it failed;
    it prints a dot for each camera and a star after the dot of each
    camera whose start raised, whose exception is dropped; the cameras
    whose start returned are streaming afterwards, and nothing else
    changes. *)
Theorem start_streams_tries_every_camera cameras r :
  start_streams cameras r =
  (Return tt,
   with_streaming
     (map camera_handle (filter (λ c, returned (start_stream c)) cameras))
     (rig_events ([Print "Starting Streams..."] ++
                  flat_map stream_marks cameras ++ [Print " | OK "]) r)).
Proof. apply start_streams_run. Qed.

(** ** Configuring a camera *)

Lemma assign_all_ok c l r :
  (∀ n, node_assign c n = Return tt) →
  assign_all c l r =
  (Return tt, set_nodemap (assigned (camera_handle c) l (nodemap r)) r).
Proof.
  intros Hok. revert r. induction l as [|[n v] l IH]; intros r.
  - by destruct r.
  - unfold assign_all in *. cbn [rfor_each]. unfold rbind at 1, assign at 1.
    cbn [fst snd]. rewrite Hok, IH. reflexivity.
Qed.

Lemma assign_tl_all_ok c l r :
  (∀ n, tl_assign c n = Return tt) →
  assign_tl_all c l r =
  (Return tt,
   set_tl_stream_nodemap (assigned (camera_handle c) l (tl_stream_nodemap r)) r).
Proof.
  intros Hok. revert r. induction l as [|[n v] l IH]; intros r.
  - by destruct r.
  - unfold assign_tl_all in *. cbn [rfor_each]. unfold rbind at 1, assign_tl at 1.
    cbn [fst snd]. rewrite Hok, IH. reflexivity.
Qed.

Lemma assign_all_ok_list c l r :
  (∀ j nv, l !! j = Some nv → node_assign c nv.1 = Return tt) →
  assign_all c l r =
  (Return tt, set_nodemap (assigned (camera_handle c) l (nodemap r)) r).
Proof.
  revert r. induction l as [|[n v] l IH]; intros r Hok.
  - by destruct r.
  - unfold assign_all in *. cbn [rfor_each]. unfold rbind at 1, assign at 1.
    cbn [fst snd]. pose proof (Hok 0 (n, v) eq_refl) as Hfirst.
    cbn [fst] in Hfirst. rewrite Hfirst, IH; [reflexivity|].
    intros j nv Hj. by apply (Hok (S j)).
Qed.

Lemma assign_all_fail c l k n v e r :
  l !! k = Some (n, v) →
  (∀ j nv, (j < k)%nat → l !! j = Some nv → node_assign c nv.1 = Return tt) →
  node_assign c n = Raise e →
  assign_all c l r =
  (Raise e, set_nodemap (assigned (camera_handle c) (take k l) (nodemap r)) r).
Proof.
  revert k r. induction l as [|[n' v'] l IH]; intros k r Hk Hbefore Hfail; [done|].
  unfold assign_all in *. cbn [rfor_each]. unfold rbind at 1, assign at 1.
  cbn [fst snd]. destruct k as [|k].
  - injection Hk as -> ->. rewrite Hfail. by destruct r.
  - pose proof (Hbefore 0 (n', v') ltac:(lia) eq_refl) as Hfirst.
    cbn [fst] in Hfirst. rewrite Hfirst.
    rewrite (IH k); [reflexivity|exact Hk| |exact Hfail].
    intros j nv Hj Hnv. apply (Hbefore (S j) nv); [lia|exact Hnv].
Qed.

Lemma assigned_cons h n v l m :
  assigned h ((n, v) :: l) m = assigned h l (<[(h, n) := v]> m).
Proof. reflexivity. Qed.

Lemma assigned_other h l m k : k.1 ≠ h → assigned h l m !! k = m !! k.
Proof.
  intros Hk. revert m. induction l as [|[n v] l IH]; intros m; [done|].
  rewrite assigned_cons, IH. apply lookup_insert_ne. intros <-. by apply Hk.
Qed.

Lemma assigned_absent h l m n : n ∉ l.*1 → assigned h l m !! (h, n) = m !! (h, n).
Proof.
  revert m. induction l as [|[n' v] l IH]; intros m Hn; [done|].
  rewrite fmap_cons in Hn. apply not_elem_of_cons in Hn as [Hne Hn].
  rewrite assigned_cons, (IH _ Hn). apply lookup_insert_ne. cbn in Hne. congruence.
Qed.

Lemma assigned_present h l m n v :
  NoDup l.*1 → (n, v) ∈ l → assigned h l m !! (h, n) = Some v.
Proof.
  revert m. induction l as [|[n' v'] l IH]; intros m Hnd Hin.
  - by apply not_elem_of_nil in Hin.
  - rewrite fmap_cons in Hnd. apply NoDup_cons in Hnd as [Hn' Hnd].
    rewrite assigned_cons.
    apply elem_of_cons in Hin as [[= -> ->]|Hin].
    + rewrite assigned_absent by done. apply lookup_insert_eq.
    + by apply IH.
Qed.

Lemma assigned_app h l1 l2 m :
  assigned h (l1 ++ l2) m = assigned h l2 (assigned h l1 m).
Proof. unfold assigned. by rewrite foldl_app. Qed.

Lemma rbind_ext {A B} (c : R A) (k k' : A → R B) r :
  (∀ a r1, k a r1 = k' a r1) → rbind c k r = rbind c k' r.
Proof. intros Hk. unfold rbind. by destruct (c r) as [[a|e] r1]. Qed.

Lemma assign_all_cons_bind {B} c n v l (k : unit → R B) r :
  rbind (assign_all c ((n, v) :: l)) k r =
  rbind (assign c n v) (λ _, rbind (assign_all c l) k) r.
Proof.
  unfold assign_all. cbn [rfor_each fst snd]. unfold rbind.
  by destruct (assign c n v r) as [[[]|e] r1].
Qed.

Lemma assign_all_nil_bind {B} c (k : unit → R B) r :
  rbind (assign_all c []) k r = k tt r.
Proof. reflexivity. Qed.

Lemma assign_tl_all_cons_bind {B} c n v l (k : unit → R B) r :
  rbind (assign_tl_all c ((n, v) :: l)) k r =
  rbind (assign_tl c n v) (λ _, rbind (assign_tl_all c l) k) r.
Proof.
  unfold assign_tl_all. cbn [rfor_each fst snd]. unfold rbind.
  by destruct (assign_tl c n v r) as [[[]|e] r1].
Qed.

Lemma assign_tl_all_nil_bind {B} c (k : unit → R B) r :
  rbind (assign_tl_all c []) k r = k tt r.
Proof. reflexivity. Qed.

(** With the two maxima read, [configure_camera] is its table of
    assignments with the execution of [TransferStop] in between. *)
Lemma configure_camera_tabled c id r width height :
  node_max c "Width" = Return width →
  node_max c "Height" = Return height →
  configure_camera c id r =
  (lift (print ".") ;;
   assign_all c (settings_before_stop width height) ;;
   lift (node_execute (device_of c) "TransferStop" (TransferStop (device_of c))) ;;
   assign_all c (settings_after_stop id) ;;
   assign_tl_all c stream_settings ;;
   lift (print " | OK"))%R r.
Proof.
  intros Hw Hh. unfold configure_camera, settings_before_stop,
    settings_after_stop, stream_settings.
  apply rbind_ext; intros _ r1.
  unfold rbind at 1, read_max at 1. rewrite Hw.
  rewrite assign_all_cons_bind. apply rbind_ext; intros _ r2.
  unfold rbind at 1, read_max at 1. rewrite Hh.
  repeat (rewrite assign_all_cons_bind; apply rbind_ext; intros _ ?).
  rewrite assign_all_nil_bind. apply rbind_ext; intros _ ?.
  repeat (rewrite assign_all_cons_bind; apply rbind_ext; intros _ ?).
  rewrite assign_all_nil_bind.
  repeat (rewrite assign_tl_all_cons_bind; apply rbind_ext; intros _ ?).
  by rewrite assign_tl_all_nil_bind.
Qed.

Lemma lift_node_execute d node o r :
  lift (node_execute d node o) r = (o, rig_events [NodeExecute (handle d) node] r).
Proof. reflexivity. Qed.

Lemma settings_names id width height :
  NoDup (settings id width height).*1 ∧ NoDup stream_settings.*1 ∧
  length (settings_before_stop width height) = 16.
Proof. split; [|split]; [compute_done..|reflexivity]. Qed.

(** The rig after a configuration that went through. *)
Lemma configure_camera_ok c id r width height :
  accepts c width height →
  configure_camera c id r =
  (Return tt,
   rig_events [Print "."; NodeExecute (camera_handle c) "TransferStop"; Print " | OK"]
     (set_tl_stream_nodemap
        (assigned (camera_handle c) stream_settings (tl_stream_nodemap r))
        (set_nodemap
           (assigned (camera_handle c) (settings id width height) (nodemap r)) r))).
Proof.
  intros (Hw & Hh & Hassign & Htl & Hstop).
  rewrite (configure_camera_tabled c id r width height Hw Hh).
  unfold rbind at 1. rewrite lift_print.
  unfold rbind at 1. rewrite (assign_all_ok _ _ _ Hassign).
  unfold rbind at 1. rewrite lift_node_execute, Hstop.
  unfold rbind at 1. rewrite (assign_all_ok _ _ _ Hassign).
  unfold rbind at 1. rewrite (assign_tl_all_ok _ _ _ Htl).
  rewrite lift_print. unfold settings. rewrite assigned_app.
  unfold rig_events, set_tl_stream_nodemap, set_nodemap, set_world, add_events,
    camera_handle.
  cbn [rig_world nodemap tl_stream_nodemap streaming to_do_signal worker_started
       destroyed buffer_queue memory on_loan SYS_TL_MAP trace].
  rewrite <- ?app_assoc. reflexivity.
Qed.

(** X12.  When every call answers, [configure_camera] returns, the camera's
    node map holds every setting of the table, among them the maxima as
    width and height and [PtpSlaveOnly] true exactly when [id] is not 0,
    the stream node map holds its three settings, the nodes of all other
    cameras are as before, and a dot and " | OK" are printed. *)
Theorem configure_camera_applies c id r width height :
  accepts c width height →
  let r' := (configure_camera c id r).2 in
  (configure_camera c id r).1 = Return tt ∧
  (∀ n v, (n, v) ∈ settings id width height →
     nodemap r' !! (camera_handle c, n) = Some v) ∧
  (∀ n v, (n, v) ∈ stream_settings →
     tl_stream_nodemap r' !! (camera_handle c, n) = Some v) ∧
  (∀ k, k.1 ≠ camera_handle c →
     nodemap r' !! k = nodemap r !! k ∧
     tl_stream_nodemap r' !! k = tl_stream_nodemap r !! k) ∧
  rig_world r' =
    add_events [Print "."; NodeExecute (camera_handle c) "TransferStop";
                Print " | OK"] (rig_world r).
Proof.
  intros Hok. cbn zeta. rewrite (configure_camera_ok c id r width height Hok).
  destruct (settings_names id width height) as (Hnd & Hndtl & _).
  cbn [fst snd rig_events set_world set_tl_stream_nodemap set_nodemap
       nodemap tl_stream_nodemap rig_world].
  split; [done|]. split; [|split; [|split; [|done]]].
  - intros n v Hin. by apply assigned_present.
  - intros n v Hin. by apply assigned_present.
  - intros k Hk. by rewrite !assigned_other.
Qed.

Lemma configure_camera_applies_witness :
  let c := camera_ok 3 2048 1536 in
  let r' := (configure_camera c 0 rig0).2 in
  (configure_camera c 0 rig0).1 = Return tt ∧
  (∀ n v, (n, v) ∈ settings 0 2048 1536 →
     nodemap r' !! (camera_handle c, n) = Some v) ∧
  (∀ n v, (n, v) ∈ stream_settings →
     tl_stream_nodemap r' !! (camera_handle c, n) = Some v) ∧
  (∀ k, k.1 ≠ camera_handle c →
     nodemap r' !! k = nodemap rig0 !! k ∧
     tl_stream_nodemap r' !! k = tl_stream_nodemap rig0 !! k) ∧
  rig_world r' =
    add_events [Print "."; NodeExecute (camera_handle c) "TransferStop";
                Print " | OK"] (rig_world rig0).
Proof.
  apply (configure_camera_applies (camera_ok 3 2048 1536) 0 rig0 2048 1536).
  repeat split.
Defined.

(** X13.  When the assignment of a node raises and every call before it
    answered, the exception leaves [configure_camera] at once: the nodes
    of the table before that node hold their new values, that node and
    the nodes after it, and the stream node map, are as they were, and
    " | OK" is not printed.  The camera is left partly configured. *)
Theorem configure_camera_stops_at_failure c id r width height k n v e :
  node_max c "Width" = Return width →
  node_max c "Height" = Return height →
  settings id width height !! k = Some (n, v) →
  (∀ j nv, (j < k)%nat → settings id width height !! j = Some nv →
     node_assign c nv.1 = Return tt) →
  ((16 ≤ k)%nat → TransferStop (device_of c) = Return tt) →
  node_assign c n = Raise e →
  let r' := (configure_camera c id r).2 in
  (configure_camera c id r).1 = Raise e ∧
  (∀ j nv, settings id width height !! j = Some nv →
     nodemap r' !! (camera_handle c, nv.1) =
     if decide (j < k)%nat then Some nv.2 else nodemap r !! (camera_handle c, nv.1)) ∧
  tl_stream_nodemap r' = tl_stream_nodemap r ∧
  rig_world r' =
    add_events (Print "." ::
                if decide (16 ≤ k)%nat
                then [NodeExecute (camera_handle c) "TransferStop"] else [])
               (rig_world r).
Proof.
  intros Hw Hh Hk Hbefore Hstop Hfail.
  destruct (settings_names id width height) as (Hnd & _ & Hlen).
  assert (configure_camera c id r =
          (Raise e,
           rig_events (Print "." ::
                       if decide (16 ≤ k)%nat
                       then [NodeExecute (camera_handle c) "TransferStop"] else [])
             (set_nodemap
                (assigned (camera_handle c) (take k (settings id width height))
                          (nodemap r)) r))) as Hrun.
  { rewrite (configure_camera_tabled c id r width height Hw Hh).
    unfold rbind at 1. rewrite lift_print. unfold rbind at 1.
    unfold settings in *. destruct (decide (16 ≤ k)%nat) as [Hge|Hlt].
    - rewrite assign_all_ok_list.
      2: { intros j nv Hj. apply (Hbefore j nv).
           - apply lookup_lt_Some in Hj. lia.
           - by apply lookup_app_l_Some. }
      unfold rbind at 1. rewrite lift_node_execute, (Hstop Hge).
      unfold rbind at 1.
      rewrite (assign_all_fail c (settings_after_stop id) (k - 16) n v e).
      + rewrite take_app_ge by lia. rewrite Hlen, assigned_app.
        unfold rig_events, set_nodemap, set_world, add_events, camera_handle.
        cbn [rig_world nodemap tl_stream_nodemap streaming to_do_signal
             worker_started destroyed buffer_queue memory on_loan SYS_TL_MAP trace].
        rewrite <- ?app_assoc. reflexivity.
      + rewrite lookup_app_r in Hk by lia. by rewrite Hlen in Hk.
      + intros j nv Hj Hnv. apply (Hbefore (16 + j) nv); [lia|].
        rewrite lookup_app_r by lia. rewrite Hlen.
        by replace (16 + j - 16) with j by lia.
      + done.
    - rewrite (assign_all_fail c (settings_before_stop width height) k n v e).
      + rewrite take_app_le by lia. reflexivity.
      + rewrite lookup_app_l in Hk by lia. done.
      + intros j nv Hj Hnv. apply (Hbefore j nv); [lia|].
        by apply lookup_app_l_Some.
      + done. }
  cbn zeta. rewrite Hrun.
  cbn [fst snd rig_events set_world set_nodemap nodemap tl_stream_nodemap rig_world].
  split; [done|]. split; [|done].
  intros j [n' v'] Hj. cbn [fst snd].
  rewrite <- (take_drop k (settings id width height)) in Hj, Hnd.
  rewrite fmap_app in Hnd. apply NoDup_app in Hnd as (Hnd1 & Hdisj & Hnd2).
  destruct (decide (j < k)%nat) as [Hjk|Hjk].
  - apply assigned_present; [done|].
    rewrite lookup_app_l in Hj by (rewrite length_take; apply lookup_lt_Some in Hk; lia).
    by eapply list_elem_of_lookup_2.
  - apply assigned_absent. intros Hin. apply (Hdisj n' Hin).
    rewrite lookup_app_r in Hj by (rewrite length_take; lia).
    apply list_elem_of_fmap. exists (n', v'). split; [done|].
    by eapply list_elem_of_lookup_2.
Qed.

Lemma configure_camera_stops_at_failure_witness :
  let c := camera_faulty 3 "PtpEnable" in
  let r' := (configure_camera c 1 rig0).2 in
  (configure_camera c 1 rig0).1 = Raise (Exception "not writable") ∧
  (∀ j nv, settings 1 100 100 !! j = Some nv →
     nodemap r' !! (camera_handle c, nv.1) =
     if decide (j < 16)%nat then Some nv.2
     else nodemap rig0 !! (camera_handle c, nv.1)) ∧
  tl_stream_nodemap r' = tl_stream_nodemap rig0 ∧
  rig_world r' =
    add_events (Print "." ::
                if decide (16 ≤ 16)%nat
                then [NodeExecute (camera_handle c) "TransferStop"] else [])
               (rig_world rig0).
Proof.
  apply (configure_camera_stops_at_failure (camera_faulty 3 "PtpEnable") 1 rig0
           100 100 16 "PtpEnable" (VBool true) (Exception "not writable"));
    try reflexivity.
  intros j nv Hj Hnv.
  do 16 (destruct j as [|j]; [injection Hnv as <-; reflexivity|]). lia.
Defined.

(** ** The configuration loop *)

Lemma touches_only_bind {A B} h (c : R A) (k : A → R B) :
  touches_only h c → (∀ a, touches_only h (k a)) → touches_only h (rbind c k).
Proof.
  intros Hc Hk r key Hkey. unfold rbind.
  destruct (Hc r key Hkey) as (Hn & Ht).
  destruct (c r) as [[a|e] r1]; cbn [snd] in *; [|done].
  destruct (Hk a r1 key Hkey) as (Hn' & Ht'). split; congruence.
Qed.

Lemma touches_only_lift {A} h (c : M A) : touches_only h (lift c).
Proof. intros r key _. unfold lift. by destruct (c (rig_world r)). Qed.

Lemma touches_only_read_max h c node : touches_only h (read_max c node).
Proof. by intros r key _. Qed.

Lemma touches_only_assign c node v : touches_only (camera_handle c) (assign c node v).
Proof.
  intros r key Hkey. unfold assign. destruct (node_assign c node); [|done].
  cbn. split; [|done]. apply lookup_insert_ne. intros <-. by apply Hkey.
Qed.

Lemma touches_only_assign_tl c node v :
  touches_only (camera_handle c) (assign_tl c node v).
Proof.
  intros r key Hkey. unfold assign_tl. destruct (tl_assign c node); [|done].
  cbn. split; [done|]. apply lookup_insert_ne. intros <-. by apply Hkey.
Qed.

Lemma touches_only_try {A} h (body : R A) handler :
  touches_only h body → (∀ e, touches_only h (handler e)) →
  touches_only h (rtry_except body handler).
Proof.
  intros Hb Hh r key Hkey. unfold rtry_except.
  destruct (Hb r key Hkey) as (Hn & Ht).
  destruct (body r) as [[a|e] r1]; cbn [snd] in *; [done|].
  destruct (Hh e r1 key Hkey) as (Hn' & Ht'). split; congruence.
Qed.

(** Whether it goes through or not, [configure_camera] leaves the nodes
    of the other cameras alone. *)
Lemma configure_camera_touches_only c id :
  touches_only (camera_handle c) (configure_camera c id).
Proof.
  unfold configure_camera.
  repeat first
    [ apply touches_only_lift | apply touches_only_read_max
    | apply touches_only_assign | apply touches_only_assign_tl
    | apply touches_only_bind; [|intros ?] ].
Qed.

Lemma configure_step_returns c id r :
  (rtry_except (configure_camera c id) (λ e, lift (print (message e))) r).1 =
  Return tt.
Proof.
  unfold rtry_except. by destruct (configure_camera c id r) as [[[]|e] r1].
Qed.

Lemma configure_cameras_cons c cameras id r :
  configure_cameras (c :: cameras) id r =
  configure_cameras cameras (S id)
    (rtry_except (configure_camera c id) (λ e, lift (print (message e))) r).2.
Proof.
  cbn [configure_cameras]. unfold rbind at 1.
  pose proof (configure_step_returns c id r) as Hret.
  by destruct (rtry_except _ _ r) as [[[]|e] r1].
Qed.

Lemma configure_cameras_from_returns cameras b r :
  (configure_cameras cameras b r).1 = Return (b + length cameras).
Proof.
  revert b r. induction cameras as [|c cameras IH]; intros b r.
  - cbn. f_equal. lia.
  - rewrite configure_cameras_cons, IH. cbn. f_equal. lia.
Qed.

Lemma configure_cameras_keeps cameras id r key :
  key.1 ∉ map camera_handle cameras →
  nodemap (configure_cameras cameras id r).2 !! key = nodemap r !! key ∧
  tl_stream_nodemap (configure_cameras cameras id r).2 !! key =
    tl_stream_nodemap r !! key.
Proof.
  revert id r. induction cameras as [|c cameras IH]; intros id r Hkey; [done|].
  cbn [map] in Hkey. apply not_elem_of_cons in Hkey as [Hne Hkey].
  rewrite configure_cameras_cons.
  destruct (IH (S id) (rtry_except (configure_camera c id)
                         (λ e, lift (print (message e))) r).2 Hkey) as (Hn & Ht).
  rewrite Hn, Ht.
  apply (touches_only_try (camera_handle c) (configure_camera c id));
    [apply configure_camera_touches_only|intros e; apply touches_only_lift|done].
Qed.

Lemma configure_cameras_from cameras b r :
  NoDup (map camera_handle cameras) →
  (configure_cameras cameras b r).1 = Return (b + length cameras) ∧
  ∀ i c width height,
    cameras !! i = Some c → accepts c width height →
    (∀ n v, (n, v) ∈ settings (b + i) width height →
       nodemap (configure_cameras cameras b r).2 !! (camera_handle c, n) = Some v) ∧
    (∀ n v, (n, v) ∈ stream_settings →
       tl_stream_nodemap (configure_cameras cameras b r).2 !! (camera_handle c, n)
       = Some v).
Proof.
  revert b r. induction cameras as [|c0 cameras IH]; intros b r Hnd.
  - split; [cbn; f_equal; lia|]. by intros i c w h.
  - cbn [map] in Hnd. apply NoDup_cons in Hnd as [Hc0 Hnd].
    rewrite configure_cameras_cons.
    set (r1 := (rtry_except (configure_camera c0 b)
                  (λ e, lift (print (message e))) r).2).
    destruct (IH (S b) r1 Hnd) as (Hret & Hset).
    split; [rewrite Hret; cbn; f_equal; lia|].
    intros [|i] c width height Hc Hok; cbn in Hc.
    + injection Hc as ->. rewrite Nat.add_0_r.
      assert (r1 = (configure_camera c b r).2) as Hr1.
      { subst r1. unfold rtry_except.
        by rewrite (configure_camera_ok c b r width height Hok). }
      destruct (settings_names b width height) as (Hnames & Hnamestl & _).
      split; intros n v Hin.
      * destruct (configure_cameras_keeps cameras (S b) r1 (camera_handle c, n) Hc0)
          as (-> & _).
        rewrite Hr1, (configure_camera_ok c b r width height Hok).
        cbn [snd rig_events set_world set_tl_stream_nodemap set_nodemap nodemap].
        by apply assigned_present.
      * destruct (configure_cameras_keeps cameras (S b) r1 (camera_handle c, n) Hc0)
          as (_ & ->).
        rewrite Hr1, (configure_camera_ok c b r width height Hok).
        cbn [snd rig_events set_world set_tl_stream_nodemap set_nodemap
             tl_stream_nodemap].
        by apply assigned_present.
    + rewrite Nat.add_succ_r. by apply Hset.
Qed.

(** X14.  The configuration loop never raises, whatever the cameras do; it
    configures the camera at position [i] of the list with id [i], also
    after failures of cameras before it.  So every camera that answers
    its configuration ends with the settings of the table for its own
    position, whatever happened to the others: [PtpSlaveOnly] is false
    for the camera at position 0 and true for all others.  (Handles are
    distinct.) *)
Theorem configure_cameras_numbers_by_position cameras r :
  NoDup (map camera_handle cameras) →
  let r' := (configure_cameras cameras 0 r).2 in
  (configure_cameras cameras 0 r).1 = Return (length cameras) ∧
  ∀ i c width height,
    cameras !! i = Some c → accepts c width height →
    nodemap r' !! (camera_handle c, "PtpSlaveOnly") =
      Some (VBool (bool_decide (i ≠ 0))) ∧
    (∀ n v, (n, v) ∈ settings i width height →
       nodemap r' !! (camera_handle c, n) = Some v) ∧
    (∀ n v, (n, v) ∈ stream_settings →
       tl_stream_nodemap r' !! (camera_handle c, n) = Some v).
Proof.
  intros Hnd. destruct (configure_cameras_from cameras 0 r Hnd) as (Hret & Hset).
  split; [exact Hret|]. intros i c width height Hc Hok.
  destruct (Hset i c width height Hc Hok) as (Hdev & Htl).
  split; [|by split]. apply Hdev. unfold settings, settings_after_stop.
  apply elem_of_app. right. cbn. apply list_elem_of_In. cbn. tauto.
Qed.

Lemma configure_cameras_numbers_by_position_witness :
  let cameras := [camera_faulty 0 "Width"; camera_ok 1 640 480; camera_ok 2 640 480] in
  let r' := (configure_cameras cameras 0 rig0).2 in
  (configure_cameras cameras 0 rig0).1 = Return (length cameras) ∧
  ∀ i c width height,
    cameras !! i = Some c → accepts c width height →
    nodemap r' !! (camera_handle c, "PtpSlaveOnly") =
      Some (VBool (bool_decide (i ≠ 0))) ∧
    (∀ n v, (n, v) ∈ settings i width height →
       nodemap r' !! (camera_handle c, n) = Some v) ∧
    (∀ n v, (n, v) ∈ stream_settings →
       tl_stream_nodemap r' !! (camera_handle c, n) = Some v).
Proof.
  apply (configure_cameras_numbers_by_position
           [camera_faulty 0 "Width"; camera_ok 1 640 480; camera_ok 2 640 480] rig0).
  cbn. compute_done.
Defined.

(** ** [__main__] *)

Lemma idle_bind {A B} (c : R A) (k : A → R B) :
  idle c → (∀ a, idle (k a)) → idle (rbind c k).
Proof.
  intros Hc Hk r. unfold rbind. destruct (Hc r) as (H1 & H2 & H3 & H4 & H5).
  destruct (c r) as [[a|e] r1]; cbn [snd] in *; [|done].
  destruct (Hk a r1) as (H1' & H2' & H3' & H4' & H5'). repeat split; congruence.
Qed.

Lemma idle_try {A} (body : R A) handler :
  idle body → (∀ e, idle (handler e)) → idle (rtry_except body handler).
Proof.
  intros Hb Hh r. unfold rtry_except. destruct (Hb r) as (H1 & H2 & H3 & H4 & H5).
  destruct (body r) as [[a|e] r1]; cbn [snd] in *; [done|].
  destruct (Hh e r1) as (H1' & H2' & H3' & H4' & H5'). repeat split; congruence.
Qed.

Lemma idle_lift {A} (c : M A) : logs_only c → idle (lift c).
Proof.
  intros Hc r. unfold lift. destruct (Hc (rig_world r)) as (Hq & _).
  by destruct (c (rig_world r)).
Qed.

Lemma logs_only_print s : logs_only (print s).
Proof. by intros w. Qed.

Lemma logs_only_node_execute d node o : logs_only (node_execute d node o).
Proof. by intros w. Qed.

Lemma logs_only_setup : logs_only setup_action_command.
Proof. by intros w. Qed.

Lemma idle_read_max c node : idle (read_max c node).
Proof. by intros r. Qed.

Lemma idle_assign c node v : idle (assign c node v).
Proof. intros r. unfold assign. by destruct (node_assign c node). Qed.

Lemma idle_assign_tl c node v : idle (assign_tl c node v).
Proof. intros r. unfold assign_tl. by destruct (tl_assign c node). Qed.

Lemma idle_configure_camera c id : idle (configure_camera c id).
Proof.
  unfold configure_camera.
  repeat first
    [ apply idle_lift; first [apply logs_only_print | apply logs_only_node_execute]
    | apply idle_read_max | apply idle_assign | apply idle_assign_tl
    | apply idle_bind; [|intros ?] ].
Qed.

Lemma idle_configure_cameras cameras id : idle (configure_cameras cameras id).
Proof.
  revert id. induction cameras as [|c cameras IH]; intros id; [by intros r|].
  cbn [configure_cameras]. apply idle_bind; [|intros _; apply IH].
  apply idle_try; [apply idle_configure_camera|].
  intros e. apply idle_lift, logs_only_print.
Qed.

(** With at least one camera the preparation never raises. *)
Lemma prepare_returns c cameras r :
  (prepare (c :: cameras) r).1 = Return tt.
Proof.
  unfold prepare. unfold rbind at 1. rewrite lift_print.
  unfold rbind at 1. rewrite lift_print. unfold rbind at 1.
  pose proof (configure_cameras_from_returns (c :: cameras) 0
                (rig_events [Print "Configuring Cameras..."]
                   (rig_events [Print ("Found and connected to " +:+
                                       pretty (length (c :: cameras)) +:+ " cameras")] r)))
    as Hret.
  destruct (configure_cameras _ _ _) as [[n|e] r1]; cbn in Hret; [done|done].
Qed.

Lemma idle_prepare cameras : idle (prepare cameras).
Proof.
  destruct cameras as [|c cameras]; [by intros r|]. unfold prepare.
  apply idle_bind; [apply idle_lift, logs_only_print|intros _].
  apply idle_bind; [apply idle_lift, logs_only_print|intros _].
  apply idle_bind; [apply idle_configure_cameras|intros _].
  apply idle_lift, logs_only_setup.
Qed.

Lemma comprehension_logs devices w :
  ∃ evs, (comprehension devices
            (λ d, node_value d "PtpStatus" (PtpStatus d)) w).2 = add_events evs w.
Proof.
  revert w. induction devices as [|d devices IH]; intros w.
  - exists []. cbn. by rewrite add_events_nil.
  - cbn [comprehension]. unfold bind at 1.
    change (node_value d "PtpStatus" (PtpStatus d) w)
      with (PtpStatus d, add_events [NodeRead (handle d) "PtpStatus"] w).
    destruct (PtpStatus d) as [st|e]; [|by eexists].
    destruct (IH (add_events [NodeRead (handle d) "PtpStatus"] w)) as (evs & Hevs).
    unfold bind.
    destruct (comprehension devices _ _) as [[sts|e] w1]; cbn [snd] in *;
      rewrite Hevs, add_events_app; by eexists.
Qed.

Lemma poll_logs devices w : ∃ evs, (poll devices w).2 = add_events evs w.
Proof.
  destruct (comprehension_logs devices w) as (evs & Hevs).
  unfold poll, bind at 1.
  destruct (comprehension devices _ _) as [[sts|e] w1]; cbn [snd] in *; subst w1.
  - cbv [bind print sleep emit ret]. cbn [snd].
    exists (evs ++ [Print "."; Sleep 2]). unfold add_events. cbn.
    by rewrite <- !app_assoc.
  - by exists evs.
Qed.

Lemma wait_for_sync_loop_logs fuel devices pass m w o w' :
  wait_for_sync_loop fuel devices pass m w = Some (o, w') →
  ∃ evs, w' = add_events evs w.
Proof.
  revert pass m w. induction fuel as [|fuel IH]; intros pass m w Hrun.
  - cbn in Hrun. destruct (decide (m ≠ 1)); [done|].
    injection Hrun as _ <-. exists []. by rewrite add_events_nil.
  - cbn [wait_for_sync_loop] in Hrun. destruct (decide (m ≠ 1)).
    + destruct (poll_logs (devices pass) w) as (evs & Hevs).
      destruct (poll (devices pass) w) as [[m'|e] w1]; cbn [snd] in Hevs; subst w1.
      * destruct (IH _ _ _ Hrun) as (evs' & ->). rewrite add_events_app. by eexists.
      * injection Hrun as _ <-. by eexists.
    + injection Hrun as _ <-. exists []. by rewrite add_events_nil.
Qed.

Lemma wait_for_sync_logs fuel devices w o w' :
  wait_for_sync fuel devices w = Some (o, w') → ∃ evs, w' = add_events evs w.
Proof.
  unfold wait_for_sync, print at 1, emit. intros Hrun.
  destruct (wait_for_sync_loop fuel devices 0 0 _) as [[[[]|e] w1]|] eqn:Hloop;
    [| |done].
  - destruct (wait_for_sync_loop_logs _ _ _ _ _ _ _ Hloop) as (evs & ->).
    injection Hrun as _ <-. unfold print, emit, add_events. cbn.
    rewrite <- !app_assoc. by eexists.
  - destruct (wait_for_sync_loop_logs _ _ _ _ _ _ _ Hloop) as (evs & ->).
    injection Hrun as _ <-. unfold add_events. cbn.
    rewrite <- !app_assoc. by eexists.
Qed.

(** What [operate] comes to, by how the interactive loop ends. *)
Lemma operate_run cameras devices inputs r :
  let started :=
    with_streaming
      (map camera_handle (filter (λ c, returned (start_stream c)) cameras))
      (rig_events ([Print "Starting Streams..."] ++
                   flat_map stream_marks cameras ++ [Print " | OK "]) r) in
  operate cameras devices inputs r =
  match interactive_loop inputs devices 0 (rig_world started) with
  | (Return _, w) =>
      (Return tt,
       mkRig w (nodemap r) (tl_stream_nodemap r) (streaming started)
             (Some 0%Z) true true)
  | (Raise e, w) =>
      (Raise e,
       mkRig w (nodemap r) (tl_stream_nodemap r) (streaming started)
             (Some 1%Z) true (destroyed r))
  end.
Proof.
  cbn zeta. unfold operate. unfold rbind at 1. rewrite start_streams_run.
  unfold rbind at 1, start_worker. unfold rbind at 1, lift at 1.
  cbn [rig_world with_streaming rig_events set_world].
  destruct (interactive_loop inputs devices 0 _) as [[b|e] w]; reflexivity.
Qed.

(** *** The main thread's actions, interleaved with the worker *)

Lemma filter_main_cons a schedule :
  filter of_main_thread (a :: schedule) =
  if of_main_thread a then a :: filter of_main_thread schedule
  else filter of_main_thread schedule.
Proof. rewrite filter_cons. by destruct a. Qed.

Lemma enqueued_filter schedule :
  enqueued (filter of_main_thread schedule) = enqueued schedule.
Proof.
  induction schedule as [|a schedule IH]; [done|].
  rewrite filter_main_cons, (enqueued_cons a schedule).
  destruct a as [t| |]; cbn [of_main_thread].
  - by rewrite (enqueued_cons (Enqueue t)), IH.
  - by rewrite (enqueued_cons ClearFlag), IH.
  - by rewrite IH.
Qed.

Lemma enqueued_app s1 s2 : enqueued (s1 ++ s2) = enqueued s1 ++ enqueued s2.
Proof.
  induction s1 as [|a s1 IH]; [done|].
  rewrite <- app_comm_cons, (enqueued_cons a (s1 ++ s2)), (enqueued_cons a s1), IH.
  by rewrite app_assoc.
Qed.

Lemma enqueued_puts tasks : enqueued (map Enqueue tasks) = tasks.
Proof.
  induction tasks as [|t tasks IH]; [done|].
  cbn [map]. by rewrite (enqueued_cons (Enqueue t)), IH.
Qed.

Lemma quiet_filter schedule :
  forallb (λ a, negb (is_enqueue a)) (filter of_main_thread schedule) =
  forallb (λ a, negb (is_enqueue a)) schedule.
Proof.
  induction schedule as [|a schedule IH]; [done|]. rewrite filter_main_cons.
  destruct a as [t| |]; cbn [of_main_thread]; cbn; by rewrite ?IH.
Qed.

Lemma stops_filter schedule :
  stops_before_signal (filter of_main_thread schedule) =
  stops_before_signal schedule.
Proof.
  induction schedule as [|a schedule IH]; [done|]. rewrite filter_main_cons.
  destruct a as [t| |]; cbn [of_main_thread]; cbn; by rewrite ?IH, ?quiet_filter.
Qed.

Lemma stops_puts_then_clear tasks :
  stops_before_signal (map Enqueue tasks ++ [ClearFlag]) = true.
Proof. induction tasks as [|t tasks IH]; [done|]. cbn. by rewrite IH. Qed.

Lemma no_clear_in_puts schedule tasks :
  filter of_main_thread schedule = map Enqueue tasks →
  Forall (λ a, a ≠ ClearFlag) schedule.
Proof.
  revert tasks. induction schedule as [|a schedule IH]; intros tasks Hf; [done|].
  rewrite filter_main_cons in Hf. destruct a as [t| |]; cbn [of_main_thread] in Hf.
  - destruct tasks as [|t' tasks]; [done|].
    injection Hf as _ Hf. constructor; [done|]. by eapply IH.
  - by destruct tasks.
  - constructor; [done|]. by eapply IH.
Qed.

Section MainAndWorker.
Variable sessionID : string.
Variable writer_save : addr → string → outcome unit.

Local Abbreviation exec := (run sessionID writer_save).
Local Abbreviation persisted := (persisted sessionID).
Local Abbreviation write_of := (write_of sessionID writer_save).

Lemma exec_app s1 s2 s : exec (s1 ++ s2) s = exec s2 (exec s1 s).
Proof. unfold run. apply foldl_app. Qed.

Lemma exec_flag_cleared schedule s :
  to_do s = 0%Z ∨ ClearFlag ∈ schedule → to_do (exec schedule s) = 0%Z.
Proof.
  revert s. induction schedule as [|a schedule IH]; intros s [Hz|Hin].
  - done.
  - by apply not_elem_of_nil in Hin.
  - rewrite exec_cons. apply IH. left. destruct a; [done|done|].
    cbn. by rewrite step_to_do.
  - rewrite exec_cons. apply IH.
    apply elem_of_cons in Hin as [<-|Hin]; [by left|by right].
Qed.

(** Every interleaving in which the main thread puts [tasks] and then
    clears the flag ends, after enough further steps of the worker and
    unless the writer raises, with the worker out of its loop and every
    task saved. *)
Lemma shutdown_finishes schedule tasks :
  interleaves schedule (map Enqueue tasks ++ [ClearFlag]) →
  (∀ t, t ∈ tasks → write_of t = Return tt) →
  ∃ n, let s := exec (schedule ++ replicate n Work) pipeline0 in
    worker s = Finished ∧ queue s = [] ∧ saved s = map persisted tasks.
Proof.
  unfold interleaves. intros Hinter Hwrite.
  assert (enqueued schedule = tasks) as Henq.
  { rewrite <- enqueued_filter, Hinter, enqueued_app, enqueued_puts.
    by rewrite app_nil_r. }
  assert (stops_before_signal schedule = true) as Hstop.
  { rewrite <- stops_filter, Hinter. apply stops_puts_then_clear. }
  assert (ClearFlag ∈ schedule) as Hclear.
  { assert (ClearFlag ∈ filter of_main_thread schedule) as Hin.
    { rewrite Hinter. apply elem_of_app. right. by left. }
    by apply list_elem_of_filter in Hin as [_ Hin]. }
  set (s := exec schedule pipeline0).
  pose proof (consistent_run sessionID writer_save schedule pipeline0 []
                (consistent_start sessionID writer_save)) as Hs.
  cbn [app] in Hs. fold s in Hs. rewrite Henq in Hs.
  assert (worker s = Finished → queue s = []) as Hfin.
  { apply (run_finished_empty sessionID writer_save schedule pipeline0 []
             (consistent_start sessionID writer_save)); [done|done|exact Hstop]. }
  assert (to_do s = 0%Z) as Hz by (apply exec_flag_cleared; by right).
  assert (failed (worker s) = false) as Hok.
  { destruct (worker s) as [| | | | | | |e] eqn:Hw; try done.
    destruct (failure_from_writer _ _ _ _ Hs e Hw) as (t & Ht & He).
    rewrite (Hwrite t Ht) in He. done. }
  destruct (finishes sessionID writer_save s Hz Hok (get_finds_task _ _ _ _ Hs) Hfin)
    as (n & Hw & Hq & Hsv).
  { intros t Ht. apply Hwrite. by apply (pending_were_put _ _ _ _ Hs). }
  exists n. cbn zeta. rewrite exec_app. fold s. split; [done|]. split; [done|].
  rewrite Hsv. by apply (all_accounted _ _ _ _ Hs).
Qed.

(** In every interleaving in which the main thread only puts tasks and
    never clears the flag, the worker stays in its loop. *)
Lemma no_shutdown_no_exit schedule tasks :
  interleaves schedule (map Enqueue tasks) →
  worker (exec schedule pipeline0) ≠ Finished.
Proof.
  intros Hinter Hfin.
  pose proof (no_clear_in_puts schedule tasks Hinter) as Hno.
  pose proof (consistent_run sessionID writer_save schedule pipeline0 []
                (consistent_start sessionID writer_save)) as Hs.
  pose proof (flag_seen_cleared _ _ _ _ Hs (or_intror Hfin)) as Hz.
  rewrite (exec_keeps_flag sessionID writer_save schedule pipeline0 Hno) in Hz.
  done.
Qed.
End MainAndWorker.

(** *** The stages of [__main__] *)

(** With at least one camera, [__main__] either stops in
    [wait_for_sync], before anything is started, or goes through
    [operate] from a state in which nothing is started and the queue is
    as it was. *)
Lemma main_stages fuel c cs syncing devices inputs r o r' :
  main fuel (c :: cs) syncing devices inputs r = Some (o, r') →
  ∃ r1,
    (to_do_signal r1 = to_do_signal r ∧ worker_started r1 = worker_started r ∧
     destroyed r1 = destroyed r ∧ streaming r1 = streaming r ∧
     buffer_queue (rig_world r1) = buffer_queue (rig_world r)) ∧
    ((∃ e, o = Raise e ∧ r' = r1 ∧
        wait_for_sync fuel syncing (rig_world (prepare (c :: cs) r).2) =
        Some (Raise e, rig_world r1)) ∨
     operate (c :: cs) devices inputs r1 = (o, r')).
Proof.
  unfold main. intros Hrun.
  pose proof (prepare_returns c cs r) as Hret.
  pose proof (idle_prepare (c :: cs) r) as (Hflag & Hstart & Hdes & Hstr & Hq).
  destruct (prepare (c :: cs) r) as [[[]|e0] r0]; [|done]. cbn [fst snd] in *.
  destruct (wait_for_sync fuel syncing (rig_world r0)) as [[[[]|e] w2]|] eqn:Hsync;
    [| |done].
  - destruct (wait_for_sync_logs _ _ _ _ _ Hsync) as (evs & ->).
    injection Hrun as Hrun. exists (set_world (add_events evs (rig_world r0)) r0).
    split; [by cbn|]. by right.
  - destruct (wait_for_sync_logs _ _ _ _ _ Hsync) as (evs & ->).
    injection Hrun as <- <-. exists (set_world (add_events evs (rig_world r0)) r0).
    split; [by cbn|]. left. exists e. by cbn.
Qed.

(** What [operate] leaves of the state shared with the worker. *)
Lemma operate_shared cameras devices inputs r o r' :
  operate cameras devices inputs r = (o, r') →
  worker_started r' = true ∧
  match o with
  | Return _ => to_do_signal r' = Some 0%Z ∧ destroyed r' = true
  | Raise e =>
      to_do_signal r' = Some 1%Z ∧ destroyed r' = destroyed r ∧
      ∃ w, buffer_queue w = buffer_queue (rig_world r) ∧
           interactive_loop inputs devices 0 w = (Raise e, rig_world r')
  end.
Proof.
  pose proof (operate_run cameras devices inputs r) as Hrun. cbn zeta in Hrun.
  rewrite Hrun. clear Hrun.
  destruct (interactive_loop inputs devices 0 _) as [[b|e] w] eqn:Hloop;
    intros [= <- <-]; cbn; [done|].
  split; [done|]. split; [done|]. split; [done|].
  eexists. split; [|exact Hloop]. done.
Qed.

(** X15.  When [__main__] comes to its end, the flag is cleared, the
    devices are destroyed and the worker has been started; and in every
    interleaving of the worker with what the main thread did to the
    queue and the flag, if the writer raises for none of the frames,
    the worker leaves its loop after enough steps of its own, with the
    queue empty and every frame that the capture loop enqueued saved,
    in the order of the queue. *)
Theorem main_shutdown_saves_every_frame sessionID writer_save
    fuel cameras syncing devices inputs r' schedule :
  main fuel cameras syncing devices inputs rig0 = Some (Return tt, r') →
  interleaves schedule (main_actions r') →
  (∀ t, t ∈ buffer_queue (rig_world r') →
        write_of sessionID writer_save t = Return tt) →
  to_do_signal r' = Some 0%Z ∧ worker_started r' = true ∧ destroyed r' = true ∧
  ∃ n, let s := run sessionID writer_save (schedule ++ replicate n Work) pipeline0 in
    worker s = Finished ∧ queue s = [] ∧
    saved s = map (persisted sessionID) (buffer_queue (rig_world r')).
Proof.
  intros Hmain Hinter Hwrite.
  destruct cameras as [|c cs]; [done|].
  destruct (main_stages _ _ _ _ _ _ _ _ _ Hmain) as (r1 & _ & [(e & He & _)|Hop]);
    [done|].
  destruct (operate_shared _ _ _ _ _ _ Hop) as (Hstart & Hflag & Hdes).
  split; [done|]. split; [done|]. split; [done|].
  apply shutdown_finishes; [|done].
  unfold main_actions in Hinter. by rewrite decide_True in Hinter by done.
Qed.

Lemma main_shutdown_saves_every_frame_witness :
  let r' := match main 3 [camera_ok 0 640 480] (λ _, [cam_master 0 "A" 10 [1%Z]])
                       (λ _, [cam 0 "A" 10 [1%Z]]) [""; "q"] rig0 with
            | Some (_, r) => r
            | None => rig0
            end in
  let schedule := [Work; Enqueue (mkTask 11 0 "A"); Work; Work; ClearFlag] in
  to_do_signal r' = Some 0%Z ∧ worker_started r' = true ∧ destroyed r' = true ∧
  ∃ n, let s := run "s" (λ _ _, Return tt) (schedule ++ replicate n Work) pipeline0 in
    worker s = Finished ∧ queue s = [] ∧
    saved s = map (persisted "s") (buffer_queue (rig_world r')).
Proof.
  apply (main_shutdown_saves_every_frame "s" (λ _ _, Return tt) 3
           [camera_ok 0 640 480] (λ _, [cam_master 0 "A" 10 [1%Z]])
           (λ _, [cam 0 "A" 10 [1%Z]]) [""; "q"]).
  - vm_compute. reflexivity.
  - vm_compute. reflexivity.
  - intros t _. reflexivity.
Defined.

(** X17.  When [__main__] raises after it has started the worker, the
    flag is still set and the devices are not destroyed; and in every
    interleaving of the worker with what the main thread did to the
    queue, however long the worker runs, it does not return from its
    loop: the thread that [__main__] leaves behind never ends
    normally. *)
Theorem main_failure_leaves_worker_waiting sessionID writer_save
    fuel cameras syncing devices inputs e r' schedule :
  main fuel cameras syncing devices inputs rig0 = Some (Raise e, r') →
  worker_started r' = true →
  interleaves schedule (main_actions r') →
  to_do_signal r' = Some 1%Z ∧ destroyed r' = false ∧
  worker (run sessionID writer_save schedule pipeline0) ≠ Finished.
Proof.
  intros Hmain Hst Hinter. destruct cameras as [|c cs].
  { cbn in Hmain. by injection Hmain as _ <-. }
  destruct (main_stages _ _ _ _ _ _ _ _ _ Hmain)
    as (r1 & (_ & Hstart & Hdes & _) & [(e' & _ & -> & _)|Hop]).
  { by rewrite Hstart in Hst. }
  destruct (operate_shared _ _ _ _ _ _ Hop) as (_ & Hflag & Hd & _).
  split; [done|]. split; [by rewrite Hd, Hdes|].
  unfold main_actions in Hinter.
  rewrite Hflag, decide_False, app_nil_r in Hinter by done.
  by eapply no_shutdown_no_exit.
Qed.

Lemma main_failure_leaves_worker_waiting_witness :
  let r' := match main 3 [camera_ok 0 640 480] (λ _, [cam_master 0 "A" 10 [1%Z]])
                       (λ _, [cam 0 "A" 10 [1%Z]]) [""] rig0 with
            | Some (_, r) => r
            | None => rig0
            end in
  let schedule := [Work; Enqueue (mkTask 11 0 "A"); Work; Work; Work; Work; Work] in
  to_do_signal r' = Some 1%Z ∧ destroyed r' = false ∧
  worker (run "s" (λ _ _, Return tt) schedule pipeline0) ≠ Finished.
Proof.
  apply (main_failure_leaves_worker_waiting "s" (λ _ _, Return tt) 3
           [camera_ok 0 640 480] (λ _, [cam_master 0 "A" 10 [1%Z]])
           (λ _, [cam 0 "A" 10 [1%Z]]) [""] (Exception "EOF when reading a line")).
  - vm_compute. reflexivity.
  - vm_compute. reflexivity.
  - vm_compute. reflexivity.
Defined.

(** The four nodes of the action command after its setup. *)
Lemma setup_action_command_keys w :
  let m := SYS_TL_MAP (setup_action_command w).2 in
  m !! "ActionCommandDeviceKey" = Some 1%Z ∧
  m !! "ActionCommandGroupKey" = Some 1%Z ∧
  m !! "ActionCommandGroupMask" = Some 1%Z ∧
  m !! "ActionCommandTargetIP" = Some 4294967295%Z.
Proof.
  cbn. repeat split.
  - rewrite !lookup_insert_ne by done. apply lookup_insert_eq.
  - rewrite !lookup_insert_ne by done. apply lookup_insert_eq.
  - rewrite lookup_insert_ne by done. apply lookup_insert_eq.
  - apply lookup_insert_eq.
Qed.

(** X18.  When the preparation of [__main__] (steps 1 and 2 and the
    setup of the action command) has gone through, the action command
    of the system addresses every camera that answered its
    configuration: same device key, same group key, overlapping group
    masks, broadcast target, and the camera triggered by action 0.
    (Handles are distinct.) *)
Theorem prepare_addresses_configured_cameras c cs r :
  NoDup (map camera_handle (c :: cs)) →
  (prepare (c :: cs) r).1 = Return tt →
  Forall (λ c', ∀ width height, accepts c' width height →
                addressed (prepare (c :: cs) r).2 (camera_handle c'))
         (c :: cs).
Proof.
  intros Hnd _. apply Forall_forall. intros c' Hin width height Hok.
  apply list_elem_of_lookup in Hin as (i & Hi).
  unfold prepare. unfold rbind at 1. rewrite lift_print.
  unfold rbind at 1. rewrite lift_print. unfold rbind at 1.
  set (r1 := rig_events _ (rig_events _ r)).
  destruct (configure_cameras_from (c :: cs) 0 r1 Hnd) as (Hret & Hset).
  destruct (Hset i c' width height Hi Hok) as (Hdev & _). clear Hset.
  destruct (configure_cameras (c :: cs) 0 r1) as [[n|e] r2]; [|done].
  cbn [snd] in Hdev.
  assert (∀ n v, (n, v) ∈ settings_before_stop width height →
                 nodemap r2 !! (camera_handle c', n) = Some v) as Hget.
  { intros n' v Hnv. apply Hdev. unfold settings. apply elem_of_app. by left. }
  change (rig_world (lift setup_action_command r2).2)
    with (setup_action_command (rig_world r2)).2.
  destruct (setup_action_command_keys (rig_world r2)) as (Hk & Hg & Hm & Hip).
  exists 1%Z, 1%Z, 1%Z, 1%Z.
  repeat split; try done;
    try (apply Hget; apply list_elem_of_In; cbn; tauto).
Qed.

Lemma prepare_addresses_configured_cameras_witness :
  let cameras := [camera_faulty 0 "Width"; camera_ok 1 640 480] in
  Forall (λ c', ∀ width height, accepts c' width height →
                addressed (prepare cameras rig0).2 (camera_handle c'))
         cameras.
Proof.
  apply (prepare_addresses_configured_cameras (camera_faulty 0 "Width")
           [camera_ok 1 640 480] rig0).
  - compute_done.
  - reflexivity.
Defined.
